(** * KaHyPar: community sub-hypergraphs and the hMetis file reader

    A shallow embedding of
      - kahypar/datastructure/community_subhypergraph.h
        (extractCommunityInducedSectionHypergraph and
         mergeCommunityInducedSectionHypergraphs), and
      - src/lib/io/HypergraphIO.h (parseHGRHeader, parseHypergraphFile),
    followed by the properties of these functions.

    Conventions.  Identifiers that index a vector (HypernodeID, HyperedgeID,
    positions of the incidence array) are [nat]; weights, community labels,
    the running counters of the hypergraph and every [size_t] accumulator are
    [Z], with the wrap-around of the machine type written out where the code
    does arithmetic on them.  A C++ vector is a [list]; [v !!! i] reads
    [v[i]] and [<[i:=x]> v] is the store [v[i] = x].  A read or store outside
    the vector is undefined behaviour in the source; the model reads the
    default element and drops the store, and the theorems that depend on it
    carry the bound as a hypothesis. *)

From Stdlib Require Import ZArith Lia List Permutation Sorted String Ascii.
From Stdlib Require Import Decimal DecimalFacts DecimalNat.
From stdpp Require Import base list gmap.

Local Open Scope Z_scope.

(** ** Machine integers *)

(** Unsigned [w]-bit wrap-around. *)
Definition wrap (w : Z) (x : Z) : Z := x mod 2 ^ w.

(** [size_t] is 64 bits wide. *)
Definition size_t_wrap (x : Z) : Z := wrap 64 x.

(** Storing a [size_t] into an [int] (32-bit two's complement). *)
Definition int_of_size_t (x : Z) : Z := (x + 2 ^ 31) mod 2 ^ 32 - 2 ^ 31.

(** ** std::sort

    The source calls [std::sort] with a comparator [comp] that is a strict
    weak order.  Its result is a permutation of the range in which no element
    compares before one that precedes it.  The model is an insertion sort;
    the order it gives to elements that compare equal is one of those
    [std::sort] may produce. *)

Section StdSort.
Context {A : Type} (comp : A -> A -> bool).

Fixpoint sort_insert (x : A) (l : list A) : list A :=
  match l with
  | [] => [x]
  | y :: l' => if comp y x then y :: sort_insert x l' else x :: y :: l'
  end.

Fixpoint std_sort (l : list A) : list A :=
  match l with
  | [] => []
  | x :: l' => sort_insert x (std_sort l')
  end.

(** [std::sort(v.begin() + s, v.begin() + e, comp)]. *)
Definition sort_range (v : list A) (s e : nat) : list A :=
  take s v ++ std_sort (take (e - s) (drop s v)) ++ drop e v.

End StdSort.

(** ** The hypergraph store *)

Abbreviation HypernodeID := nat (only parsing).
Abbreviation HyperedgeID := nat (only parsing).
Abbreviation PartitionID := Z (only parsing).
Abbreviation HypernodeWeight := Z (only parsing).
Abbreviation HyperedgeWeight := Z (only parsing).

(** Modelled from the spec: the hypergraph container
    (kahypar/datastructure/hypergraph.h) is not part of the sources at hand.
    A hypernode has a weight, an enabled flag and the ordered list of
    its incident hyperedges; its community label is kept in the hypergraph's
    [_communities] vector, which is what the code reads.  The constructor
    [Hypernode(incident_nets, weight, valid)] used by the merge is
    [Build_Hypernode]. *)
Record Hypernode := {
  hn_incident_nets : list HyperedgeID;
  hn_weight : HypernodeWeight;
  hn_valid : bool
}.

(** Modelled from the spec: a hyperedge has a weight, an enabled flag, a
    rolling hash and a pin range inside the flat pin array:
    [firstEntry = he_begin], and the number of active pins recorded on the
    edge is [firstInvalidEntry - firstEntry]. *)
Record Hyperedge := {
  he_begin : nat;
  he_size : nat;
  he_weight : HyperedgeWeight;
  he_hash : Z;
  he_valid : bool
}.

(** Modelled from the spec: the fields of the hypergraph that the two
    functions read and write.  [_hyperedges] holds one more element than
    there are hyperedges: the range of the last hyperedge ends at the
    [firstEntry] of that closing sentinel. *)
Record Hypergraph := {
  _num_hypernodes : nat;
  _num_hyperedges : nat;
  _num_pins : nat;
  _current_num_hypernodes : Z;
  _current_num_hyperedges : Z;
  _current_num_pins : Z;
  _hypernodes : list Hypernode;
  _hyperedges : list Hyperedge;
  _incidence_array : list HypernodeID;
  _communities : list PartitionID
}.

(** Modelled from the spec: one record per performed contraction; the code
    reads the absorbed hypernode [v] only. *)
Record ContractionMemento := { memento_v : HypernodeID }.

#[global] Instance Hypernode_inhabited : Inhabited Hypernode :=
  populate {| hn_incident_nets := []; hn_weight := 1; hn_valid := true |}.
#[global] Instance Hyperedge_inhabited : Inhabited Hyperedge :=
  populate {| he_begin := 0; he_size := 0; he_weight := 1; he_hash := 0;
              he_valid := true |}.
#[global] Instance ContractionMemento_inhabited : Inhabited ContractionMemento :=
  populate {| memento_v := 0%nat |}.

Definition firstEntry (e : Hyperedge) : nat := he_begin e.
Definition firstInvalidEntry (e : Hyperedge) : nat := (he_begin e + he_size e)%nat.
Definition he_isDisabled (e : Hyperedge) : bool := negb (he_valid e).
Definition hn_isDisabled (n : Hypernode) : bool := negb (hn_valid n).

Definition setFirstEntry (b : nat) (e : Hyperedge) : Hyperedge :=
  {| he_begin := b; he_size := he_size e; he_weight := he_weight e;
     he_hash := he_hash e; he_valid := he_valid e |}.
Definition setSize (s : nat) (e : Hyperedge) : Hyperedge :=
  {| he_begin := he_begin e; he_size := s; he_weight := he_weight e;
     he_hash := he_hash e; he_valid := he_valid e |}.
Definition incrementSize (e : Hyperedge) : Hyperedge := setSize (S (he_size e)) e.
Definition decrementSize (e : Hyperedge) : Hyperedge := setSize (pred (he_size e)) e.
Definition setWeight (w : HyperedgeWeight) (e : Hyperedge) : Hyperedge :=
  {| he_begin := he_begin e; he_size := he_size e; he_weight := w;
     he_hash := he_hash e; he_valid := he_valid e |}.
Definition setHash (h : Z) (e : Hyperedge) : Hyperedge :=
  {| he_begin := he_begin e; he_size := he_size e; he_weight := he_weight e;
     he_hash := h; he_valid := he_valid e |}.
Definition setValid (b : bool) (e : Hyperedge) : Hyperedge :=
  {| he_begin := he_begin e; he_size := he_size e; he_weight := he_weight e;
     he_hash := he_hash e; he_valid := b |}.
Definition he_disable : Hyperedge -> Hyperedge := setValid false.
Definition he_enable : Hyperedge -> Hyperedge := setValid true.

Definition set_hypernodes (v : list Hypernode) (hg : Hypergraph) : Hypergraph :=
  {| _num_hypernodes := _num_hypernodes hg; _num_hyperedges := _num_hyperedges hg;
     _num_pins := _num_pins hg;
     _current_num_hypernodes := _current_num_hypernodes hg;
     _current_num_hyperedges := _current_num_hyperedges hg;
     _current_num_pins := _current_num_pins hg;
     _hypernodes := v; _hyperedges := _hyperedges hg;
     _incidence_array := _incidence_array hg; _communities := _communities hg |}.
Definition set_hyperedges (v : list Hyperedge) (hg : Hypergraph) : Hypergraph :=
  {| _num_hypernodes := _num_hypernodes hg; _num_hyperedges := _num_hyperedges hg;
     _num_pins := _num_pins hg;
     _current_num_hypernodes := _current_num_hypernodes hg;
     _current_num_hyperedges := _current_num_hyperedges hg;
     _current_num_pins := _current_num_pins hg;
     _hypernodes := _hypernodes hg; _hyperedges := v;
     _incidence_array := _incidence_array hg; _communities := _communities hg |}.
Definition set_incidence_array (v : list HypernodeID) (hg : Hypergraph) : Hypergraph :=
  {| _num_hypernodes := _num_hypernodes hg; _num_hyperedges := _num_hyperedges hg;
     _num_pins := _num_pins hg;
     _current_num_hypernodes := _current_num_hypernodes hg;
     _current_num_hyperedges := _current_num_hyperedges hg;
     _current_num_pins := _current_num_pins hg;
     _hypernodes := _hypernodes hg; _hyperedges := _hyperedges hg;
     _incidence_array := v; _communities := _communities hg |}.
Definition set_current_counts (n e p : Z) (hg : Hypergraph) : Hypergraph :=
  {| _num_hypernodes := _num_hypernodes hg; _num_hyperedges := _num_hyperedges hg;
     _num_pins := _num_pins hg;
     _current_num_hypernodes := n;
     _current_num_hyperedges := e;
     _current_num_pins := p;
     _hypernodes := _hypernodes hg; _hyperedges := _hyperedges hg;
     _incidence_array := _incidence_array hg; _communities := _communities hg |}.

(** Modelled from the spec: the accessors of the container that the code
    calls.  Node and edge iteration run over the enabled elements in
    increasing order of their identifier; [pins] is the active prefix of the
    edge's range. *)
Definition initialNumNodes (hg : Hypergraph) : nat := _num_hypernodes hg.
Definition initialNumEdges (hg : Hypergraph) : nat := _num_hyperedges hg.
Definition currentNumNodes (hg : Hypergraph) : Z := _current_num_hypernodes hg.
Definition currentNumEdges (hg : Hypergraph) : Z := _current_num_hyperedges hg.
Definition currentNumPins (hg : Hypergraph) : Z := _current_num_pins hg.
Definition communityID (hg : Hypergraph) (hn : HypernodeID) : PartitionID :=
  _communities hg !!! hn.
Definition nodeWeight (hg : Hypergraph) (hn : HypernodeID) : HypernodeWeight :=
  hn_weight (_hypernodes hg !!! hn).
Definition edgeWeight (hg : Hypergraph) (he : HyperedgeID) : HyperedgeWeight :=
  he_weight (_hyperedges hg !!! he).
Definition nodes (hg : Hypergraph) : list HypernodeID :=
  filter (fun hn => hn_valid (_hypernodes hg !!! hn) = true) (seq 0 (_num_hypernodes hg)).
Definition edges (hg : Hypergraph) : list HyperedgeID :=
  filter (fun he => he_valid (_hyperedges hg !!! he) = true) (seq 0 (_num_hyperedges hg)).
Definition incidentEdges (hg : Hypergraph) (hn : HypernodeID) : list HyperedgeID :=
  hn_incident_nets (_hypernodes hg !!! hn).
Definition pins (hg : Hypergraph) (he : HyperedgeID) : list HypernodeID :=
  let e := _hyperedges hg !!! he in
  take (he_size e) (drop (firstEntry e) (_incidence_array hg)).

(** The default-constructed [Hypergraph()]. *)
Definition empty_hypergraph : Hypergraph :=
  {| _num_hypernodes := 0; _num_hyperedges := 0; _num_pins := 0;
     _current_num_hypernodes := 0; _current_num_hyperedges := 0;
     _current_num_pins := 0;
     _hypernodes := []; _hyperedges := []; _incidence_array := [];
     _communities := [] |}.

(** ** Community sub-hypergraphs *)

Record CommunityHyperedge := {
  original_he : HyperedgeID;
  incidence_array_start : Z;
  incidence_array_end : Z
}.

#[global] Instance CommunityHyperedge_inhabited : Inhabited CommunityHyperedge :=
  populate {| original_he := 0%nat; incidence_array_start := 0;
              incidence_array_end := 0 |}.

(** [hg_ref] is the source's [const Hypergraph& hg]: the original hypergraph
    as it is during the extraction.  The merge never reads it. *)
Record CommunitySubhypergraph := {
  hg_ref : Hypergraph;
  community_id : PartitionID;
  num_hn_not_in_community : Z;
  num_pins_not_in_community : Z;
  subhypergraph : Hypergraph;
  subhypergraph_to_hypergraph_hn : list HypernodeID;
  subhypergraph_to_hypergraph_he : list CommunityHyperedge
}.

(** The constructor [CommunitySubhypergraph(hg, community_id)]. *)
Definition new_CommunitySubhypergraph (hg : Hypergraph) (c : PartitionID)
  : CommunitySubhypergraph :=
  {| hg_ref := hg; community_id := c;
     num_hn_not_in_community := 0; num_pins_not_in_community := 0;
     subhypergraph := empty_hypergraph;
     subhypergraph_to_hypergraph_hn := [];
     subhypergraph_to_hypergraph_he := [] |}.

Definition foreign (cs : CommunitySubhypergraph) (hn : HypernodeID) : Z :=
  if communityID (hg_ref cs) hn =? community_id cs then 0 else 1.

Definition addHypernode (original_hn : HypernodeID) (cs : CommunitySubhypergraph)
  : CommunitySubhypergraph :=
  {| hg_ref := hg_ref cs; community_id := community_id cs;
     num_hn_not_in_community :=
       size_t_wrap (num_hn_not_in_community cs + foreign cs original_hn);
     num_pins_not_in_community := num_pins_not_in_community cs;
     subhypergraph := subhypergraph cs;
     subhypergraph_to_hypergraph_hn :=
       subhypergraph_to_hypergraph_hn cs ++ [original_hn];
     subhypergraph_to_hypergraph_he := subhypergraph_to_hypergraph_he cs |}.

Definition addPin (original_pin : HypernodeID) (cs : CommunitySubhypergraph)
  : CommunitySubhypergraph :=
  {| hg_ref := hg_ref cs; community_id := community_id cs;
     num_hn_not_in_community := num_hn_not_in_community cs;
     num_pins_not_in_community :=
       size_t_wrap (num_pins_not_in_community cs + foreign cs original_pin);
     subhypergraph := subhypergraph cs;
     subhypergraph_to_hypergraph_hn := subhypergraph_to_hypergraph_hn cs;
     subhypergraph_to_hypergraph_he := subhypergraph_to_hypergraph_he cs |}.

Definition sortHypernodes (cs : CommunitySubhypergraph) : CommunitySubhypergraph :=
  {| hg_ref := hg_ref cs; community_id := community_id cs;
     num_hn_not_in_community := num_hn_not_in_community cs;
     num_pins_not_in_community := num_pins_not_in_community cs;
     subhypergraph := subhypergraph cs;
     subhypergraph_to_hypergraph_hn :=
       std_sort Nat.ltb (subhypergraph_to_hypergraph_hn cs);
     subhypergraph_to_hypergraph_he := subhypergraph_to_hypergraph_he cs |}.

Definition addHyperedge (he : HyperedgeID) (s e : Z) (cs : CommunitySubhypergraph)
  : CommunitySubhypergraph :=
  {| hg_ref := hg_ref cs; community_id := community_id cs;
     num_hn_not_in_community := num_hn_not_in_community cs;
     num_pins_not_in_community := num_pins_not_in_community cs;
     subhypergraph := subhypergraph cs;
     subhypergraph_to_hypergraph_hn := subhypergraph_to_hypergraph_hn cs;
     subhypergraph_to_hypergraph_he :=
       subhypergraph_to_hypergraph_he cs
         ++ [ {| original_he := he; incidence_array_start := s;
                 incidence_array_end := e |} ] |}.

Definition set_subhypergraph (sub : Hypergraph) (cs : CommunitySubhypergraph)
  : CommunitySubhypergraph :=
  {| hg_ref := hg_ref cs; community_id := community_id cs;
     num_hn_not_in_community := num_hn_not_in_community cs;
     num_pins_not_in_community := num_pins_not_in_community cs;
     subhypergraph := sub;
     subhypergraph_to_hypergraph_hn := subhypergraph_to_hypergraph_hn cs;
     subhypergraph_to_hypergraph_he := subhypergraph_to_hypergraph_he cs |}.

(** Modelled from the spec: [SparseMap<PartitionID, size_t>], a sparse map
    keyed by community id that is cleared for every hyperedge; its class is
    not part of the sources at hand.  The model keeps the entries in the
    order of their first insertion; [sparse_add m k w] is [m[k] += w]. *)
Abbreviation SparseMap := (list (Z * Z)) (only parsing).

Fixpoint sparse_add (m : SparseMap) (k : PartitionID) (w : Z) : SparseMap :=
  match m with
  | [] => [(k, size_t_wrap (0 + w))]
  | (k', x) :: m' =>
      if k' =? k then (k', size_t_wrap (x + w)) :: m'
      else (k', x) :: sparse_add m' k w
  end.

(** Lines 185-194: the start and the length of the range of [community]. *)
Definition range_step (community : PartitionID) (acc : Z * Z)
  (element : PartitionID * Z) : Z * Z :=
  if element.1 <? community then (size_t_wrap (acc.1 + element.2), acc.2)
  else if element.1 =? community then (acc.1, element.2)
  else acc.

Definition community_range (community : PartitionID) (sizes : SparseMap) : Z * Z :=
  fold_left (range_step community) sizes (0, 0).

Section Kernel.

(** The hash of a pin and the seed of an edge hash are defined in headers
    that are not part of the sources at hand: [hash_add h x] stands for
    [h += math::hash(x)] and [kEdgeHashSeed] for [Hypergraph::kEdgeHashSeed].
    [id_bits] is the width of the unsigned type of the [_current_num_*]
    counters. *)
Variable hash_add : Z -> nat -> Z.
Variable kEdgeHashSeed : Z.
Variable id_bits : Z.

(** *** extractCommunityInducedSectionHypergraph *)

(** [visited[i]] of a [std::vector<bool>]. *)
Definition is_visited (visited : list bool) (i : nat) : bool :=
  default false (visited !! i).

(** Lines 133-139: one pin of a hyperedge that is visited for the first
    time. *)
Definition visit_pin (st : list bool * CommunitySubhypergraph) (pin : HypernodeID)
  : list bool * CommunitySubhypergraph :=
  let st' := if is_visited st.1 pin then st
             else (<[pin := true]> st.1, addHypernode pin st.2) in
  (st'.1, addPin pin st'.2).

(** Lines 131-141. *)
Definition visit_edge (hypergraph : Hypergraph)
  (st : list bool * CommunitySubhypergraph) (he : HyperedgeID)
  : list bool * CommunitySubhypergraph :=
  let slot := (initialNumNodes hypergraph + he)%nat in
  if is_visited st.1 slot then st
  else
    let st' := fold_left visit_pin (pins hypergraph he) st in
    (<[slot := true]> st'.1, st'.2).

(** Lines 127-144. *)
Definition visit_node (hypergraph : Hypergraph) (community : PartitionID)
  (st : list bool * CommunitySubhypergraph) (hn : HypernodeID)
  : list bool * CommunitySubhypergraph :=
  if communityID hypergraph hn =? community
  then fold_left (visit_edge hypergraph) (incidentEdges hypergraph hn) st
  else st.

Definition collect_community (hypergraph : Hypergraph) (community : PartitionID)
  : list bool * CommunitySubhypergraph :=
  fold_left (visit_node hypergraph community) (nodes hypergraph)
    (replicate (initialNumNodes hypergraph + initialNumEdges hypergraph) false,
     new_CommunitySubhypergraph hypergraph community).

(** Lines 153-155: [hypergraph_to_subhypergraph[hn] = num_hypernodes++]. *)
Definition number_hypernodes (mapping : list HypernodeID) : gmap nat nat * nat :=
  fold_left (fun (acc : gmap nat nat * nat) hn => (<[hn := acc.2]> acc.1, S acc.2))
    mapping (∅, 0%nat).

(** [m[pin]] of the [unordered_map]: a key that is absent reads as 0. *)
Definition local_id (m : gmap nat nat) (pin : HypernodeID) : nat :=
  default 0%nat (m !! pin).

(** State of the loop over the hyperedges (lines 164-197): the community
    sub-hypergraph under construction, [num_hyperedges] and [pin_index]. *)
Record ExtractState := {
  ex_cs : CommunitySubhypergraph;
  ex_num_hyperedges : nat;
  ex_pin_index : nat
}.

(** Lines 171-179: one pin of a hyperedge that is copied. *)
Definition copy_pin (hypergraph : Hypergraph) (m : gmap nat nat) (num_hyperedges : nat)
  (st : Hypergraph * SparseMap * nat) (pin : HypernodeID)
  : Hypergraph * SparseMap * nat :=
  let '(sub, community_sizes_in_he, pin_index) := st in
  let local := local_id m pin in
  let sub1 :=
    set_hyperedges
      (alter (fun e => setHash (hash_add (he_hash e) local) (incrementSize e))
             num_hyperedges (_hyperedges sub)) sub in
  let sub2 := set_incidence_array (_incidence_array sub1 ++ [local]) sub1 in
  (sub2,
   sparse_add community_sizes_in_he (communityID hypergraph pin)
     (nodeWeight hypergraph pin),
   S pin_index).

Definition bump_num_hyperedges (hg : Hypergraph) : Hypergraph :=
  {| _num_hypernodes := _num_hypernodes hg;
     _num_hyperedges := S (_num_hyperedges hg);
     _num_pins := _num_pins hg;
     _current_num_hypernodes := _current_num_hypernodes hg;
     _current_num_hyperedges := _current_num_hyperedges hg;
     _current_num_pins := _current_num_pins hg;
     _hypernodes := _hypernodes hg; _hyperedges := _hyperedges hg;
     _incidence_array := _incidence_array hg; _communities := _communities hg |}.

(** Lines 166-196: one hyperedge of the original hypergraph.  The hyperedge
    that [emplace_back(0, 0, weight)] constructs is enabled and its hash is
    the seed. *)
Definition copy_edge (hypergraph : Hypergraph) (community : PartitionID)
  (visited : list bool) (m : gmap nat nat) (st : ExtractState) (he : HyperedgeID)
  : ExtractState :=
  if is_visited visited (initialNumNodes hypergraph + he)%nat then
    let sub := subhypergraph (ex_cs st) in
    let sub1 :=
      bump_num_hyperedges
        (set_hyperedges
           (_hyperedges sub ++
              [ {| he_begin := 0; he_size := 0;
                   he_weight := edgeWeight hypergraph he;
                   he_hash := kEdgeHashSeed; he_valid := true |} ]) sub) in
    let sub2 :=
      set_hyperedges
        (alter (setFirstEntry (ex_pin_index st)) (ex_num_hyperedges st)
               (_hyperedges sub1)) sub1 in
    let '(sub3, community_sizes_in_he, pin_index) :=
      fold_left (copy_pin hypergraph m (ex_num_hyperedges st))
        (pins hypergraph he) (sub2, [], ex_pin_index st) in
    let '(incidence_array_start, community_size) :=
      community_range community community_sizes_in_he in
    {| ex_cs :=
         addHyperedge he incidence_array_start
           (size_t_wrap (incidence_array_start + community_size))
           (set_subhypergraph sub3 (ex_cs st));
       ex_num_hyperedges := S (ex_num_hyperedges st);
       ex_pin_index := pin_index |}
  else st.

(** Modelled from the spec: [setupInternalStructure] is defined with the
    hypergraph container, not in the sources at hand.  It completes an
    independent hypergraph instance whose hyperedges and pin array are
    already in place: the current counts are the initial ones, the range of
    the last hyperedge is closed by a sentinel whose [firstEntry] is the
    number of pins, every hypernode lists the hyperedges that contain it,
    and weight and community label of a local hypernode are those of the
    original hypernode it stands for. *)
Definition add_incident_net (he : HyperedgeID) (hns : list Hypernode)
  (pin : HypernodeID) : list Hypernode :=
  alter (fun n => {| hn_incident_nets := hn_incident_nets n ++ [he];
                     hn_weight := hn_weight n; hn_valid := hn_valid n |}) pin hns.

Definition setupInternalStructure (reference : Hypergraph)
  (mapping : list HypernodeID) (sub : Hypergraph)
  (num_hypernodes num_pins num_hyperedges : nat) : Hypergraph :=
  let sub1 :=
    set_hyperedges
      (_hyperedges sub ++
         [ {| he_begin := num_pins; he_size := 0; he_weight := 0;
              he_hash := kEdgeHashSeed; he_valid := true |} ]) sub in
  let hns1 :=
    fold_left
      (fun hns he => fold_left (add_incident_net he) (pins sub1 he) hns)
      (edges sub1) (_hypernodes sub1) in
  let hns2 :=
    imap (fun i n => {| hn_incident_nets := hn_incident_nets n;
                        hn_weight := nodeWeight reference (mapping !!! i);
                        hn_valid := hn_valid n |}) hns1 in
  {| _num_hypernodes := _num_hypernodes sub1;
     _num_hyperedges := _num_hyperedges sub1;
     _num_pins := num_pins;
     _current_num_hypernodes := Z.of_nat num_hypernodes;
     _current_num_hyperedges := Z.of_nat num_hyperedges;
     _current_num_pins := Z.of_nat num_pins;
     _hypernodes := hns2;
     _hyperedges := _hyperedges sub1;
     _incidence_array := _incidence_array sub1;
     _communities := map (communityID reference) mapping |}.

(** Lines 158-159: [_hypernodes.resize(num_hypernodes)] and
    [_num_hypernodes = num_hypernodes] on the fresh sub-hypergraph. *)
Definition resize_hypernodes (num_hypernodes : nat) (hg : Hypergraph) : Hypergraph :=
  {| _num_hypernodes := num_hypernodes;
     _num_hyperedges := _num_hyperedges hg;
     _num_pins := _num_pins hg;
     _current_num_hypernodes := _current_num_hypernodes hg;
     _current_num_hyperedges := _current_num_hyperedges hg;
     _current_num_pins := _current_num_pins hg;
     _hypernodes := resize num_hypernodes inhabitant (_hypernodes hg);
     _hyperedges := _hyperedges hg;
     _incidence_array := _incidence_array hg; _communities := _communities hg |}.

Definition extractCommunityInducedSectionHypergraph (hypergraph : Hypergraph)
  (community : PartitionID) (respect_order_of_hypernodes : bool)
  : CommunitySubhypergraph :=
  let '(visited, cs0) := collect_community hypergraph community in
  let cs1 := if respect_order_of_hypernodes then sortHypernodes cs0 else cs0 in
  let '(hypergraph_to_subhypergraph, num_hypernodes) :=
    number_hypernodes (subhypergraph_to_hypergraph_hn cs1) in
  if (0 <? num_hypernodes)%nat then
    let cs2 :=
      set_subhypergraph (resize_hypernodes num_hypernodes (subhypergraph cs1)) cs1 in
    let st :=
      fold_left (copy_edge hypergraph community visited hypergraph_to_subhypergraph)
        (edges hypergraph)
        {| ex_cs := cs2; ex_num_hyperedges := 0; ex_pin_index := 0 |} in
    set_subhypergraph
      (setupInternalStructure hypergraph
         (subhypergraph_to_hypergraph_hn (ex_cs st))
         (subhypergraph (ex_cs st))
         num_hypernodes (ex_pin_index st) (ex_num_hyperedges st))
      (ex_cs st)
  else cs1.

(** *** mergeCommunityInducedSectionHypergraphs *)

(** Modelled from the spec: the thread pool (kahypar/utils/thread_pool.h)
    is not part of the sources at hand.  It is consumed through [size()],
    [enqueue] and the barrier [loop_until_empty]; [pool_size] is what
    [size()] returns. *)
Record ThreadPool := { pool_size : nat }.

(** **** Pre-phase (lines 221-227) *)

Definition prephase_step (hypergraph : Hypergraph) (community : CommunitySubhypergraph)
  : Hypergraph :=
  let sub := subhypergraph community in
  set_current_counts
    (wrap id_bits (_current_num_hypernodes hypergraph
                   + (currentNumNodes sub - num_hn_not_in_community community)))
    (wrap id_bits (_current_num_hyperedges hypergraph
                   - (Z.of_nat (initialNumEdges sub) - currentNumEdges sub)))
    (wrap id_bits (_current_num_pins hypergraph
                   + (currentNumPins sub - num_pins_not_in_community community)))
    hypergraph.

Definition prephase (hypergraph : Hypergraph)
  (communities : list CommunitySubhypergraph) : Hypergraph :=
  fold_left prephase_step communities
    (set_current_counts 0 (_current_num_hyperedges hypergraph) 0 hypergraph).

(** **** Phase 1 (lines 235-301) *)

(** Lines 265-276: the pins of local hyperedge [he] are written to the
    incidence array of the original hypergraph, from position [pos] on. *)
Definition write_pin (community : CommunitySubhypergraph)
  (st : list HypernodeID * Z) (i : nat) : list HypernodeID * Z :=
  let sub := subhypergraph community in
  let pin := _incidence_array sub !!! i in
  if _communities sub !!! pin =? community_id community then
    let original_pin := subhypergraph_to_hypergraph_hn community !!! pin in
    (<[Z.to_nat st.2 := original_pin]> st.1, size_t_wrap (st.2 + 1))
  else st.

(** Lines 277-280: the weight update.  The guard reads the weight of the
    original hyperedge at the local index [he]; the store goes to
    [original_he]. *)
Definition update_weight (sub : Hypergraph) (he original_he : HyperedgeID)
  (hes : list Hyperedge) : list Hyperedge :=
  if he_weight (hes !!! he) <? he_weight (_hyperedges sub !!! he)
  then alter (setWeight (he_weight (_hyperedges sub !!! he))) original_he hes
  else hes.

(** Lines 286-288. *)
Definition update_disabled (sub : Hypergraph) (he original_he : HyperedgeID)
  (hes : list Hyperedge) : list Hyperedge :=
  if he_isDisabled (_hyperedges sub !!! he)
  then alter he_disable original_he hes
  else hes.

(** Lines 259-294: a local hyperedge that this task sees for the first
    time. *)
Definition write_back_edge (community : CommunitySubhypergraph)
  (hypergraph : Hypergraph) (he : HyperedgeID) : Hypergraph :=
  let sub := subhypergraph community in
  let community_hyperedge := subhypergraph_to_hypergraph_he community !!! he in
  let original_he := original_he community_hyperedge in
  let original_incidence_array_start :=
    size_t_wrap (Z.of_nat (firstEntry (_hyperedges hypergraph !!! original_he))
                 + incidence_array_start community_hyperedge) in
  let incidence_array_start := firstEntry (_hyperedges sub !!! he) in
  let incidence_array_end := firstEntry (_hyperedges sub !!! (S he)) in
  let written :=
    fold_left (write_pin community)
      (seq incidence_array_start (incidence_array_end - incidence_array_start))
      (_incidence_array hypergraph, original_incidence_array_start) in
  let hg1 := set_incidence_array written.1 hypergraph in
  let hg2 := set_hyperedges (update_weight sub he original_he (_hyperedges hg1)) hg1 in
  set_hyperedges (update_disabled sub he original_he (_hyperedges hg2)) hg2.

(** State of the task: the hypergraph, the task's [visited] bitset and the
    [incident_nets] of the hypernode at hand. *)
Record TaskState := {
  ts_hypergraph : Hypergraph;
  ts_visited : list bool;
  ts_incident_nets : list HyperedgeID
}.

(** Lines 248-295: one incident net of a local hypernode. *)
Definition write_back_net (community : CommunitySubhypergraph)
  (st : TaskState) (he : HyperedgeID) : TaskState :=
  let original_he :=
    original_he (subhypergraph_to_hypergraph_he community !!! he) in
  let incident_nets := ts_incident_nets st ++ [original_he] in
  if is_visited (ts_visited st) he then
    {| ts_hypergraph := ts_hypergraph st; ts_visited := ts_visited st;
       ts_incident_nets := incident_nets |}
  else
    {| ts_hypergraph := write_back_edge community (ts_hypergraph st) he;
       ts_visited := <[he := true]> (ts_visited st);
       ts_incident_nets := incident_nets |}.

(** Lines 241-299: one local hypernode. *)
Definition write_back_node (community : CommunitySubhypergraph)
  (st : Hypergraph * list bool) (hn : HypernodeID) : Hypergraph * list bool :=
  let sub := subhypergraph community in
  if _communities sub !!! hn =? community_id community then
    let original_hn := subhypergraph_to_hypergraph_hn community !!! hn in
    let st' :=
      fold_left (write_back_net community)
        (hn_incident_nets (_hypernodes sub !!! hn))
        {| ts_hypergraph := st.1; ts_visited := st.2; ts_incident_nets := [] |} in
    let hg' := ts_hypergraph st' in
    (set_hypernodes
       (<[original_hn :=
            {| hn_incident_nets := ts_incident_nets st';
               hn_weight := hn_weight (_hypernodes sub !!! hn);
               hn_valid := negb (hn_isDisabled (_hypernodes sub !!! hn)) |}]>
          (_hypernodes hg')) hg',
     ts_visited st')
  else st.

(** The task enqueued for one community (lines 236-300). *)
Definition write_back_community (hypergraph : Hypergraph)
  (community : CommunitySubhypergraph) : Hypergraph :=
  let sub := subhypergraph community in
  (fold_left (write_back_node community) (seq 0 (initialNumNodes sub))
     (hypergraph, replicate (initialNumEdges sub) false)).1.

(** The tasks of a phase are run one after the other, in the order in which
    they were enqueued; [loop_until_empty] separates the phases. *)
Definition phase1 (hypergraph : Hypergraph)
  (communities : list CommunitySubhypergraph) : Hypergraph :=
  fold_left write_back_community communities hypergraph.

(** **** Phase 2 (lines 311-331) *)

(** The lambda [construct_contraction_index(start, end)]. *)
Definition construct_contraction_index (history : list ContractionMemento)
  (contraction_index : list Z) (start end_ : nat) : list Z :=
  fold_left
    (fun ci i => <[memento_v (history !!! i) := int_of_size_t (Z.of_nat i)]> ci)
    (seq start (end_ - start)) contraction_index.

(** Lines 321-331 and 375-384: the ranges handed to the pool, in the order
    of their submission, or the single range of the sequential call. *)
Definition split_ranges (num_threads total : nat) : list (nat * nat) :=
  let step := (total / num_threads)%nat in
  if ((1 <=? step) && negb (num_threads =? 1))%nat then
    map (fun i => ((i * step)%nat,
                   if (i =? num_threads - 1)%nat then total else ((i + 1) * step)%nat))
        (seq 0 num_threads)
  else [(0%nat, total)].

Definition phase2 (pool : ThreadPool) (hypergraph : Hypergraph)
  (history : list ContractionMemento) : list Z :=
  fold_left (fun ci r => construct_contraction_index history ci r.1 r.2)
    (split_ranges (pool_size pool) (length history))
    (replicate (initialNumNodes hypergraph) (-1)).

(** **** Phase 3 (lines 340-384) *)

(** [std::swap(v[i], v[j])]. *)
Definition swap (v : list HypernodeID) (i j : nat) : list HypernodeID :=
  <[j := v !!! i]> (<[i := v !!! j]> v).

(** Lines 349-360.  Every turn of the loop either removes a pin from the
    active prefix or advances [j], so [he_size] turns suffice; [--j]
    followed by the [++j] of the loop header leaves [j] where it is (also
    for [j = 0], by wrap-around). *)
Fixpoint compact_pins (fuel : nat) (hypernodes : list Hypernode)
  (incidence_array : list HypernodeID) (current_he : Hyperedge) (j : nat)
  : list HypernodeID * Hyperedge :=
  match fuel with
  | O => (incidence_array, current_he)
  | S fuel' =>
      if (j <? firstInvalidEntry current_he)%nat then
        let pin := incidence_array !!! j in
        if hn_isDisabled (hypernodes !!! pin) then
          compact_pins fuel' hypernodes
            (swap incidence_array j (firstInvalidEntry current_he - 1))
            (decrementSize current_he) j
        else
          compact_pins fuel' hypernodes incidence_array
            (setHash (hash_add (he_hash current_he) pin) current_he) (S j)
      else (incidence_array, current_he)
  end.

(** The comparator of the sort (lines 369-371). *)
Definition later_contracted (contraction_index : list Z) (u v : HypernodeID) : bool :=
  contraction_index !!! v <? contraction_index !!! u.

(** The body of the loop of [create_contraction_hierarchy] (lines 343-371). *)
Definition create_contraction_hierarchy_he (contraction_index : list Z)
  (hypergraph : Hypergraph) (he : HyperedgeID) : Hypergraph :=
  let current_he := _hyperedges hypergraph !!! he in
  let isDisabled := he_isDisabled current_he in
  let e1 := if isDisabled then he_enable current_he else current_he in
  let e2 := setHash kEdgeHashSeed e1 in
  let '(incidence_array, e3) :=
    compact_pins (he_size e2) (_hypernodes hypergraph)
      (_incidence_array hypergraph) e2 (firstEntry e2) in
  let e4 := if isDisabled then he_disable e3 else e3 in
  let hyperedges := <[he := e4]> (_hyperedges hypergraph) in
  let invalid_pins_start := firstInvalidEntry e4 in
  let invalid_pins_end := firstEntry (hyperedges !!! (S he)) in
  set_incidence_array
    (sort_range (later_contracted contraction_index) incidence_array
       invalid_pins_start invalid_pins_end)
    (set_hyperedges hyperedges hypergraph).

Definition create_contraction_hierarchy (contraction_index : list Z)
  (hypergraph : Hypergraph) (start end_ : nat) : Hypergraph :=
  fold_left (create_contraction_hierarchy_he contraction_index)
    (seq start (end_ - start)) hypergraph.

Definition phase3 (pool : ThreadPool) (contraction_index : list Z)
  (hypergraph : Hypergraph) : Hypergraph :=
  fold_left (fun hg r => create_contraction_hierarchy contraction_index hg r.1 r.2)
    (split_ranges (pool_size pool) (initialNumEdges hypergraph)) hypergraph.

Definition mergeCommunityInducedSectionHypergraphs (pool : ThreadPool)
  (hypergraph : Hypergraph) (communities : list CommunitySubhypergraph)
  (history : list ContractionMemento) : Hypergraph :=
  let hg0 := prephase hypergraph communities in
  let hg1 := phase1 hg0 communities in
  let contraction_index := phase2 pool hg1 history in
  phase3 pool contraction_index hg1.

End Kernel.

(** ** The hMetis file reader (src/lib/io/HypergraphIO.h)

    The reader consumes the C++ stream library: [std::ifstream],
    [std::getline], [std::istringstream] and the formatted extraction
    [operator>>] of integers.  A stream is its unread characters together
    with [eofbit] and [failbit]. *)

Module io.

Record istream := {
  buf : list ascii;
  eofbit : bool;
  failbit : bool
}.

(** [s.good()] and the conversion of a stream to [bool] ([!s.fail()]). *)
Definition good (s : istream) : bool := negb (eofbit s) && negb (failbit s).
Definition stream_ok (s : istream) : bool := negb (failbit s).

(** A file that was opened with the given content, and the constructor
    [std::istringstream(line)]. *)
Definition open_stream (content : list ascii) : istream :=
  {| buf := content; eofbit := false; failbit := false |}.

(** A file that could not be opened. *)
Definition missing_file : istream :=
  {| buf := []; eofbit := false; failbit := true |}.

Definition newline : ascii := "010"%char.

(** The characters before the first newline, and what follows that newline
    if there is one. *)
Fixpoint until_newline (s : list ascii) : list ascii * option (list ascii) :=
  match s with
  | [] => ([], None)
  | c :: s' =>
      if Ascii.eqb c newline then ([], Some s')
      else let r := until_newline s' in (c :: r.1, r.2)
  end.

(** [std::getline(file, line)].  On a stream that is not good the sentry
    sets [failbit] and [line] keeps its value.  Otherwise [line] is erased
    and filled up to the newline, which is consumed; when the end of the
    stream is reached first, [eofbit] is set, and [failbit] too if nothing
    was read. *)
Definition getline (file : istream) (line : list ascii) : istream * list ascii :=
  if good file then
    match until_newline (buf file) with
    | (l, Some rest) => ({| buf := rest; eofbit := false; failbit := false |}, l)
    | (l, None) =>
        ({| buf := []; eofbit := true;
            failbit := match l with [] => true | _ => false end |}, l)
    end
  else ({| buf := buf file; eofbit := eofbit file; failbit := true |}, line).

(** [std::isspace] in the "C" locale. *)
Definition isspace (c : ascii) : bool :=
  let n := N_of_ascii c in
  (n =? 32)%N || ((9 <=? n)%N && (n <=? 13)%N).

Fixpoint skipws (s : list ascii) : list ascii :=
  match s with
  | c :: s' => if isspace c then skipws s' else s
  | [] => []
  end.

Definition digit_value (c : ascii) : option Z :=
  let n := Z.of_N (N_of_ascii c) in
  if (48 <=? n) && (n <=? 57) then Some (n - 48) else None.

(** The decimal digits at the front of [s]: how many there are, the number
    they denote after the digits already accumulated in [acc], and the
    characters behind them. *)
Fixpoint read_digits (s : list ascii) (count : nat) (acc : Z) : nat * Z * list ascii :=
  match s with
  | c :: s' =>
      match digit_value c with
      | Some d => read_digits s' (S count) (10 * acc + d)
      | None => (count, acc, s)
      end
  | [] => (count, acc, [])
  end.

(** An integer type: its signedness and its width. *)
Record num_type := { is_signed : bool; bits : Z }.

Definition max_value (ty : num_type) : Z :=
  if is_signed ty then 2 ^ (bits ty - 1) - 1 else 2 ^ bits ty - 1.
Definition min_value (ty : num_type) : Z :=
  if is_signed ty then - 2 ^ (bits ty - 1) else 0.

Definition int_type : num_type := {| is_signed := true; bits := 32 |}.

Definition at_end (s : list ascii) : bool :=
  match s with [] => true | _ => false end.

(** [stream >> value] for a [value] of the integer type [ty], in the
    default (decimal, skipws) format.  When the sentry fails (the stream is
    not good, or only white space is left) [value] is not touched.  When no
    digit is found, [value] becomes 0 and [failbit] is set; a number outside
    the type is replaced by the nearest bound and sets [failbit].  A minus
    sign in front of an unsigned number negates it modulo [2 ^ bits], as
    libstdc++ does.  [eofbit] is set when the extraction ran into the end of
    the stream. *)
Definition extract (ty : num_type) (s : istream) (value : Z) : istream * Z :=
  if good s then
    match skipws (buf s) with
    | [] => ({| buf := []; eofbit := true; failbit := true |}, value)
    | c :: rest =>
        let negative := Ascii.eqb c "-"%char in
        let after_sign :=
          if negative || Ascii.eqb c "+"%char then rest else c :: rest in
        let '(count, magnitude, rest') := read_digits after_sign 0 0 in
        match count with
        | O => ({| buf := rest'; eofbit := at_end rest'; failbit := true |}, 0)
        | S _ =>
            if negative then
              if is_signed ty then
                if - magnitude <? min_value ty
                then ({| buf := rest'; eofbit := at_end rest'; failbit := true |},
                      min_value ty)
                else ({| buf := rest'; eofbit := at_end rest'; failbit := false |},
                      - magnitude)
              else
                if max_value ty <? magnitude
                then ({| buf := rest'; eofbit := at_end rest'; failbit := true |},
                      max_value ty)
                else ({| buf := rest'; eofbit := at_end rest'; failbit := false |},
                      (- magnitude) mod 2 ^ bits ty)
            else
              if max_value ty <? magnitude
              then ({| buf := rest'; eofbit := at_end rest'; failbit := true |},
                    max_value ty)
              else ({| buf := rest'; eofbit := at_end rest'; failbit := false |},
                    magnitude)
        end
    end
  else ({| buf := buf s; eofbit := eofbit s; failbit := true |}, value).

Section Reader.

(** The identifier and weight types are declared in [definitions.h], which
    is not part of the sources at hand: [HyperNodeID] and [HyperEdgeID] are
    unsigned integers of [id_bits] bits, [HyperEdgeWeight] and
    [HyperNodeWeight] are integers of the type [weight_type]. *)
Variable id_bits : Z.
Variable weight_type : num_type.

Definition id_type : num_type := {| is_signed := false; bits := id_bits |}.

(** [line[0] == '%'] ([line[0]] of an empty string is the null character). *)
Definition is_comment (line : list ascii) : bool :=
  match line with
  | c :: _ => Ascii.eqb c "%"%char
  | [] => false
  end.

(** The loop of lines 18-20.  The result is [None] when the loop does not
    terminate: once the stream is not good, [getline] no longer changes
    [line], which still begins with '%'.  A good stream gives a line for
    every turn until its characters are used up, so the fuel that
    [parseHGRHeader] supplies is never exhausted. *)
Fixpoint skip_comments (fuel : nat) (file : istream) (line : list ascii)
  : option (istream * list ascii) :=
  if is_comment line then
    if good file then
      match fuel with
      | O => None
      | S fuel' =>
          let r := getline file line in skip_comments fuel' r.1 r.2
      end
    else None
  else Some (file, line).

(** Line 23: [sstream >> num_hyperedges >> num_hypernodes >> hypergraph_type]. *)
Definition read_header (line : list ascii)
  (num_hyperedges num_hypernodes hypergraph_type : Z) : Z * Z * Z :=
  let r1 := extract id_type (open_stream line) num_hyperedges in
  let r2 := extract id_type r1.1 num_hypernodes in
  let r3 := extract int_type r2.1 hypergraph_type in
  (r1.2, r2.2, r3.2).

(** [parseHGRHeader]: the stream and the three output parameters after the
    call, or [None] when the call does not return. *)
Definition parseHGRHeader (file : istream)
  (num_hyperedges num_hypernodes hypergraph_type : Z)
  : option (istream * (Z * Z * Z)) :=
  if stream_ok file then
    let r := getline file [] in
    match skip_comments (S (length (buf r.1))) r.1 r.2 with
    | Some (file', line) =>
        Some (file', read_header line num_hyperedges num_hypernodes hypergraph_type)
    | None => None
    end
  else Some (file, (num_hyperedges, num_hypernodes, hypergraph_type)).

(** Lines 56-61: [while (line_stream >> pin) { --pin; push_back(pin); }].
    Every successful extraction consumes a digit, so the fuel
    [length line] that the caller supplies is never exhausted. *)
Fixpoint read_pins (fuel : nat) (line_stream : istream) (pin : Z)
  (edge_vector : list Z) : list Z :=
  let r := extract id_type line_stream pin in
  if stream_ok r.1 then
    match fuel with
    | O => edge_vector
    | S fuel' =>
        read_pins fuel' r.1 (wrap id_bits (r.2 - 1))
          (edge_vector ++ [wrap id_bits (r.2 - 1)])
    end
  else edge_vector.

(** The variables that the loops of [parseHypergraphFile] change. *)
Record ReaderState := {
  file : istream;
  line : list ascii;
  index_vector : list Z;
  edge_vector : list Z;
  hyperedge_weights : list Z;
  hypernode_weights : list Z
}.

(** Lines 47-62: one turn of the loop over the hyperedges.  The local
    variables [edge_weight] and [pin] are not initialised.  [pin] is read
    only after an extraction has stored a value in it.  [edge_weight] is
    pushed as it is when the extraction fails in its sentry, that is, on an
    empty or blank line: the source pushes an indeterminate value there,
    for which 0 stands here.  The properties below do not speak of the
    value of a weight that is read from such a line. *)
Definition read_hyperedge (has_hyperedge_weights : bool) (st : ReaderState)
  : ReaderState :=
  let r := getline (file st) (line st) in
  let line_stream := open_stream r.2 in
  let w := if has_hyperedge_weights
           then extract weight_type line_stream 0
           else (line_stream, 0) in
  let hyperedge_weights' :=
    if has_hyperedge_weights then hyperedge_weights st ++ [w.2]
    else hyperedge_weights st in
  let edge_vector' := read_pins (length r.2) w.1 0 (edge_vector st) in
  {| file := r.1; line := r.2;
     index_vector := index_vector st ++ [Z.of_nat (length edge_vector')];
     edge_vector := edge_vector';
     hyperedge_weights := hyperedge_weights';
     hypernode_weights := hypernode_weights st |}.

(** Lines 68-72: one turn of the loop over the hypernode weights.  As for
    [edge_weight], 0 stands for the indeterminate value of [node_weight]
    that the source pushes for an empty or blank line. *)
Definition read_hypernode_weight (st : ReaderState) : ReaderState :=
  let r := getline (file st) (line st) in
  let w := extract weight_type (open_stream r.2) 0 in
  {| file := r.1; line := r.2;
     index_vector := index_vector st;
     edge_vector := edge_vector st;
     hyperedge_weights := hyperedge_weights st;
     hypernode_weights := hypernode_weights st ++ [w.2] |}.

(** [for (i = 0; i < n; ++i) body]. *)
Definition repeat_loop (n : Z) (body : ReaderState -> ReaderState)
  (st : ReaderState) : ReaderState :=
  Nat.iter (Z.to_nat n) body st.

(** What [parseHypergraphFile] leaves in its reference parameters. *)
Record Parsed := {
  num_hypernodes : Z;
  num_hyperedges : Z;
  final : ReaderState
}.

(** [parseHypergraphFile].  The two weight vectors are passed by pointer in
    the source; here they are the vectors pointed to. *)
Definition parseHypergraphFile (file0 : istream)
  (num_hypernodes0 num_hyperedges0 : Z)
  (index_vector0 edge_vector0 hyperedge_weights0 hypernode_weights0 : list Z)
  : option Parsed :=
  match parseHGRHeader file0 num_hyperedges0 num_hypernodes0 0 with
  | None => None
  | Some (file1, (num_hyperedges1, num_hypernodes1, hypergraph_type)) =>
      let has_hyperedge_weights :=
        (hypergraph_type =? 1) || (hypergraph_type =? 11) in
      let has_hypernode_weights :=
        (hypergraph_type =? 10) || (hypergraph_type =? 11) in
      let st0 :=
        {| file := file1; line := [];
           index_vector := index_vector0 ++ [Z.of_nat (length edge_vector0)];
           edge_vector := edge_vector0;
           hyperedge_weights := hyperedge_weights0;
           hypernode_weights := hypernode_weights0 |} in
      let st1 := repeat_loop num_hyperedges1 (read_hyperedge has_hyperedge_weights) st0 in
      let st2 :=
        if has_hypernode_weights
        then repeat_loop num_hypernodes1 read_hypernode_weight st1
        else st1 in
      Some {| num_hypernodes := num_hypernodes1;
              num_hyperedges := num_hyperedges1;
              final := st2 |}
  end.

End Reader.

End io.

(** ** Notions used to state the properties *)

(** [Σ f(x)] over a list. *)
Definition Zsum {A : Type} (f : A -> Z) (l : list A) : Z :=
  fold_right (fun x acc => f x + acc) 0 l.

(** What one community contributes to the counters of the pre-phase. *)
Definition own_nodes (c : CommunitySubhypergraph) : Z :=
  currentNumNodes (subhypergraph c) - num_hn_not_in_community c.
Definition own_pins (c : CommunitySubhypergraph) : Z :=
  currentNumPins (subhypergraph c) - num_pins_not_in_community c.
Definition disabled_edges (c : CommunitySubhypergraph) : Z :=
  Z.of_nat (initialNumEdges (subhypergraph c)) - currentNumEdges (subhypergraph c).

(** The counters of the hypergraph are values of their unsigned type. *)
Definition counters_wrapped (id_bits : Z) (hg : Hypergraph) : Prop :=
  wrap id_bits (_current_num_hypernodes hg) = _current_num_hypernodes hg
  /\ wrap id_bits (_current_num_hyperedges hg) = _current_num_hyperedges hg
  /\ wrap id_bits (_current_num_pins hg) = _current_num_pins hg.

(** *** Phase 2 as a set of stores

    A task of phase 2 performs the stores [contraction_index[v] = i] of its
    range; the workers of the pool interleave the stores of different tasks
    in an order that the code does not control. *)

(** The stores of [construct_contraction_index(r.1, r.2)], in program
    order. *)
Definition range_writes (history : list ContractionMemento) (r : nat * nat)
  : list (nat * Z) :=
  map (fun i => (memento_v (history !!! i), int_of_size_t (Z.of_nat i)))
      (seq r.1 (r.2 - r.1)).

(** All stores of phase 2, task after task. *)
Definition phase2_writes (pool : ThreadPool) (history : list ContractionMemento)
  : list (nat * Z) :=
  flat_map (range_writes history) (split_ranges (pool_size pool) (length history)).

(** The table after the stores of [ws] were performed in the order of the
    list. *)
Definition apply_writes (ws : list (nat * Z)) (contraction_index : list Z) : list Z :=
  fold_left (fun ci w => <[w.1 := w.2]> ci) ws contraction_index.

(** The hypernodes that the history absorbs. *)
Definition absorbed (history : list ContractionMemento) : list HypernodeID :=
  map memento_v history.

(** *** Ranges of hyperedges *)

(** The pins stored at the positions [a, b) of the incidence array. *)
Definition segment (v : list HypernodeID) (a b : nat) : list HypernodeID :=
  take (b - a) (drop a v).

Definition pin_enabled (hypernodes : list Hypernode) (pin : HypernodeID) : Prop :=
  hn_valid (hypernodes !!! pin) = true.
Definition pin_disabled (hypernodes : list Hypernode) (pin : HypernodeID) : Prop :=
  hn_valid (hypernodes !!! pin) = false.

#[global] Instance pin_enabled_dec hns pin : Decision (pin_enabled hns pin).
Proof. unfold pin_enabled. apply _. Defined.
#[global] Instance pin_disabled_dec hns pin : Decision (pin_disabled hns pin).
Proof. unfold pin_disabled. apply _. Defined.

(** The range of hyperedge [he] lies inside the incidence array: it starts
    at [firstEntry], its active prefix ends at [firstInvalidEntry], and it
    ends where the range of the next element of [_hyperedges] starts. *)
Definition edge_range_ok (hg : Hypergraph) (he : HyperedgeID) : Prop :=
  (S he < length (_hyperedges hg))%nat
  /\ (firstInvalidEntry (_hyperedges hg !!! he)
      <= firstEntry (_hyperedges hg !!! S he))%nat
  /\ (firstEntry (_hyperedges hg !!! S he) <= length (_incidence_array hg))%nat.

(** The part of the range of [he] that follows its active prefix. *)
Definition invalid_pins (hg : Hypergraph) (he : HyperedgeID) : list HypernodeID :=
  segment (_incidence_array hg)
    (firstInvalidEntry (_hyperedges hg !!! he))
    (firstEntry (_hyperedges hg !!! S he)).

(** Contraction indices strictly decrease / do not increase from front to
    back. *)
Definition strictly_decreasing (contraction_index : list Z) (l : list HypernodeID) : Prop :=
  StronglySorted (fun u v => contraction_index !!! v < contraction_index !!! u) l.
Definition non_increasing (contraction_index : list Z) (l : list HypernodeID) : Prop :=
  StronglySorted (fun u v => contraction_index !!! v <= contraction_index !!! u) l.

(** The whole range of hyperedge [he]: its active prefix followed by the
    pins that contractions removed from it. *)
Definition edge_range (hg : Hypergraph) (he : HyperedgeID) : list HypernodeID :=
  segment (_incidence_array hg)
    (firstEntry (_hyperedges hg !!! he))
    (firstEntry (_hyperedges hg !!! S he)).

(** Every hyperedge has its range inside the incidence array; the ranges
    follow each other in the order of the hyperedges. *)
Definition ranges_ok (hg : Hypergraph) : Prop :=
  forall he, (he < initialNumEdges hg)%nat -> edge_range_ok hg he.

(** What a step of phase 3 on hyperedge [k] leaves untouched. *)
Record step_frame (k : HyperedgeID) (hg hg' : Hypergraph) : Prop := {
  sf_hypernodes : _hypernodes hg' = _hypernodes hg;
  sf_num_edges : _num_hyperedges hg' = _num_hyperedges hg;
  sf_edges_length : length (_hyperedges hg') = length (_hyperedges hg);
  sf_other_edges : forall j, j <> k -> _hyperedges hg' !!! j = _hyperedges hg !!! j;
  sf_begin : he_begin (_hyperedges hg' !!! k) = he_begin (_hyperedges hg !!! k);
  sf_size : (he_size (_hyperedges hg' !!! k) <= he_size (_hyperedges hg !!! k))%nat;
  sf_length : length (_incidence_array hg') = length (_incidence_array hg);
  sf_before : take (firstEntry (_hyperedges hg !!! k)) (_incidence_array hg')
              = take (firstEntry (_hyperedges hg !!! k)) (_incidence_array hg);
  sf_after : drop (firstEntry (_hyperedges hg !!! S k)) (_incidence_array hg')
             = drop (firstEntry (_hyperedges hg !!! S k)) (_incidence_array hg)
}.

(** *** Well-formed hMetis files

    A file is described line by line.  A line is a sequence of numbers, each
    written in decimal behind some white space (none is needed before the
    first number), and possibly white space before the newline. *)

Fixpoint digits_of_uint (d : Decimal.uint) : list ascii :=
  match d with
  | Decimal.Nil => []
  | Decimal.D0 d => "0"%char :: digits_of_uint d
  | Decimal.D1 d => "1"%char :: digits_of_uint d
  | Decimal.D2 d => "2"%char :: digits_of_uint d
  | Decimal.D3 d => "3"%char :: digits_of_uint d
  | Decimal.D4 d => "4"%char :: digits_of_uint d
  | Decimal.D5 d => "5"%char :: digits_of_uint d
  | Decimal.D6 d => "6"%char :: digits_of_uint d
  | Decimal.D7 d => "7"%char :: digits_of_uint d
  | Decimal.D8 d => "8"%char :: digits_of_uint d
  | Decimal.D9 d => "9"%char :: digits_of_uint d
  end.

(** The decimal numeral of [n]. *)
Definition decimal (n : nat) : list ascii := digits_of_uint (Nat.to_uint n).

(** White space other than the newline. *)
Definition blank (c : ascii) : bool := io.isspace c && negb (Ascii.eqb c io.newline).

Record Line := {
  tokens : list (list ascii * nat);
  trailing : list ascii
}.

Definition numbers (l : Line) : list nat := map snd (tokens l).

Definition render_tokens (ts : list (list ascii * nat)) : list ascii :=
  flat_map (fun t => t.1 ++ decimal t.2) ts.

(** The characters of a line, without and with the closing newline. *)
Definition line_text (l : Line) : list ascii := render_tokens (tokens l) ++ trailing l.
Definition render_line (l : Line) : list ascii := line_text l ++ [io.newline].

(** The white space of a line is blank, and numbers are separated. *)
Definition separated (ts : list (list ascii * nat)) : Prop :=
  Forall (fun t => forallb blank t.1 = true /\ t.1 <> []) ts.

Definition line_ok (l : Line) : Prop :=
  forallb blank (trailing l) = true
  /\ match tokens l with
     | [] => True
     | t :: ts => forallb blank t.1 = true /\ separated ts
     end.

(** A comment line begins with '%' and holds no newline. *)
Definition comment_ok (c : list ascii) : Prop :=
  io.is_comment c = true /\ ~ In io.newline c.

Record HgrFile := {
  comments : list (list ascii);
  header : Line;
  hyperedge_lines : list Line;
  weight_lines : list Line
}.

Definition render_file (f : HgrFile) : list ascii :=
  flat_map (fun c => c ++ [io.newline]) (comments f)
  ++ render_line (header f)
  ++ flat_map render_line (hyperedge_lines f)
  ++ flat_map render_line (weight_lines f).

(** The format flag of the header; a header without flag has format 0. *)
Definition format_of (f : HgrFile) : nat :=
  match numbers (header f) with
  | [_; _; t] => t
  | _ => 0%nat
  end.

Definition has_hyperedge_weights (f : HgrFile) : bool :=
  (format_of f =? 1)%nat || (format_of f =? 11)%nat.
Definition has_hypernode_weights (f : HgrFile) : bool :=
  (format_of f =? 10)%nat || (format_of f =? 11)%nat.

(** The weight and the 1-based pins that a hyperedge line denotes. *)
Definition weight_of (f : HgrFile) (l : Line) : nat :=
  if has_hyperedge_weights f then hd 0%nat (numbers l) else 0%nat.
Definition pins_of (f : HgrFile) (l : Line) : list nat :=
  if has_hyperedge_weights f then tl (numbers l) else numbers l.

Section WellFormed.
Variable id_bits : Z.
Variable weight_type : io.num_type.

Definition is_id (n : nat) : Prop := Z.of_nat n <= io.max_value (io.id_type id_bits).
Definition is_weight (n : nat) : Prop := Z.of_nat n <= io.max_value weight_type.

(** The header gives the number of hyperedge lines, the number of
    hypernodes and, optionally, one of the formats 0, 1, 10, 11; a weighted
    hyperedge line starts with the weight; pins are numbered from 1; with
    hypernode weights there is one weight line for every hypernode. *)
Record hgr_ok (f : HgrFile) : Prop := {
  ok_comments : Forall comment_ok (comments f);
  ok_header_line : line_ok (header f);
  ok_header :
    exists m n, (numbers (header f) = [m; n]
                 \/ exists t, numbers (header f) = [m; n; t]
                              /\ (t = 0 \/ t = 1 \/ t = 10 \/ t = 11)%nat)
                /\ m = length (hyperedge_lines f)
                /\ is_id m /\ is_id n
                /\ (has_hypernode_weights f = true -> n = length (weight_lines f));
  ok_hyperedge_lines :
    Forall (fun l => line_ok l
                     /\ (has_hyperedge_weights f = true ->
                         numbers l <> [] /\ is_weight (weight_of f l))
                     /\ Forall (fun p => (1 <= p)%nat /\ is_id p) (pins_of f l))
           (hyperedge_lines f);
  ok_weight_lines :
    has_hypernode_weights f = true ->
    Forall (fun l => line_ok l /\ numbers l <> [] /\ is_weight (hd 0%nat (numbers l)))
           (weight_lines f)
}.

End WellFormed.

Definition hgr_num_hyperedges (f : HgrFile) : nat := length (hyperedge_lines f).
Definition hgr_num_hypernodes (f : HgrFile) : nat := nth 1 (numbers (header f)) 0%nat.

(** What the reader is to produce: the 0-based pins of all hyperedges one
    after the other, the positions at which the hyperedges start and end,
    and the weights that the format announces. *)
Definition expected_edge_vector (f : HgrFile) : list Z :=
  flat_map (fun l => map (fun p => Z.of_nat p - 1) (pins_of f l)) (hyperedge_lines f).

Fixpoint offsets (start : nat) (sizes : list nat) : list Z :=
  match sizes with
  | [] => [Z.of_nat start]
  | s :: sizes' => Z.of_nat start :: offsets (start + s) sizes'
  end.

Definition expected_index_vector (f : HgrFile) : list Z :=
  offsets 0 (map (fun l => length (pins_of f l)) (hyperedge_lines f)).

Definition expected_hyperedge_weights (f : HgrFile) : list Z :=
  if has_hyperedge_weights f
  then map (fun l => Z.of_nat (weight_of f l)) (hyperedge_lines f) else [].

Definition expected_hypernode_weights (f : HgrFile) : list Z :=
  if has_hypernode_weights f
  then map (fun l => Z.of_nat (hd 0%nat (numbers l))) (weight_lines f) else [].

(** *** The loops of the reader as relations

    [skip_run file line file' line'] holds when the loop
    [while (line[0] == '%') getline(file, line)], started with [file] and
    [line], ends with [file'] and [line'].  [pins_run s pin ev ev'] holds
    when the loop [while (s >> pin) { --pin; ev.push_back(pin); }] ends
    with the edge vector [ev']. *)
Inductive skip_run : io.istream -> list ascii -> io.istream -> list ascii -> Prop :=
| skip_done (file : io.istream) (line : list ascii) :
    io.is_comment line = false -> skip_run file line file line
| skip_more (file : io.istream) (line : list ascii)
    (file' : io.istream) (line' : list ascii) :
    io.is_comment line = true ->
    skip_run (io.getline file line).1 (io.getline file line).2 file' line' ->
    skip_run file line file' line'.

Inductive pins_run (id_bits : Z) : io.istream -> Z -> list Z -> list Z -> Prop :=
| pins_done (s : io.istream) (pin : Z) (ev : list Z) :
    io.stream_ok (io.extract (io.id_type id_bits) s pin).1 = false ->
    pins_run id_bits s pin ev ev
| pins_more (s : io.istream) (pin : Z) (ev ev' : list Z) :
    io.stream_ok (io.extract (io.id_type id_bits) s pin).1 = true ->
    pins_run id_bits (io.extract (io.id_type id_bits) s pin).1
      (wrap id_bits ((io.extract (io.id_type id_bits) s pin).2 - 1))
      (ev ++ [wrap id_bits ((io.extract (io.id_type id_bits) s pin).2 - 1)]) ev' ->
    pins_run id_bits s pin ev ev'.

(** *** The extraction *)

(** Every pin stored in the incidence array is a hypernode of the
    hypergraph. *)
Definition pins_in_range (hg : Hypergraph) : Prop :=
  Forall (fun p => (p < initialNumNodes hg)%nat) (_incidence_array hg).

(** The hyperedges listed as incident to an enabled hypernode of the
    community: those that the first loop of the extraction visits. *)
Definition incident_to_community (hg : Hypergraph) (c : Z) (he : nat) : Prop :=
  exists hn, In hn (nodes hg) /\ communityID hg hn = c /\ In he (incidentEdges hg hn).

(** The incidence lists of the enabled hypernodes name enabled hyperedges
    that hold the hypernode. *)
Definition incidence_consistent (hg : Hypergraph) : Prop :=
  forall hn he, In hn (nodes hg) -> In he (incidentEdges hg hn) ->
    In he (edges hg) /\ In hn (pins hg he).

(** The number of the hypernodes of [ps] that are not in community [c]. *)
Definition foreign_count (hg : Hypergraph) (c : Z) (ps : list nat) : Z :=
  Zsum (fun p => if communityID hg p =? c then 0 else 1) ps.

(** The weight of the pins of [ps] in communities below [c], and in [c]. *)
Definition weight_below (hg : Hypergraph) (c : Z) (ps : list nat) : Z :=
  Zsum (fun p => if communityID hg p <? c then nodeWeight hg p else 0) ps.
Definition weight_in (hg : Hypergraph) (c : Z) (ps : list nat) : Z :=
  Zsum (fun p => if communityID hg p =? c then nodeWeight hg p else 0) ps.

(** What holds between the turns of the first loop of the extraction:
    [visited_edges] lists the hyperedges whose pins were collected. *)
Record collect_inv (hg : Hypergraph) (c : Z) (visited_edges : list nat)
  (st : list bool * CommunitySubhypergraph) : Prop := {
  ci_length : length st.1 = (initialNumNodes hg + initialNumEdges hg)%nat;
  ci_ref : hg_ref st.2 = hg;
  ci_id : community_id st.2 = c;
  ci_sub : subhypergraph st.2 = empty_hypergraph;
  ci_he : subhypergraph_to_hypergraph_he st.2 = [];
  ci_nodes : forall p, (p < initialNumNodes hg)%nat ->
    (is_visited st.1 p = true <-> In p (subhypergraph_to_hypergraph_hn st.2));
  ci_nodup : List.NoDup (subhypergraph_to_hypergraph_hn st.2);
  ci_edges : forall he, (he < initialNumEdges hg)%nat ->
    (is_visited st.1 (initialNumNodes hg + he) = true <-> In he visited_edges);
  ci_incident : forall he, In he visited_edges -> incident_to_community hg c he;
  ci_pins : forall he p, In he visited_edges -> In p (pins hg he) ->
    In p (subhypergraph_to_hypergraph_hn st.2);
  ci_origin : forall p, In p (subhypergraph_to_hypergraph_hn st.2) ->
    exists he, In he visited_edges /\ In p (pins hg he);
  ci_once : Forall (fun he => (he < initialNumEdges hg)%nat) visited_edges ->
            List.NoDup visited_edges;
  ci_hn_counter : num_hn_not_in_community st.2
    = size_t_wrap (foreign_count hg c (subhypergraph_to_hypergraph_hn st.2));
  ci_pin_counter : num_pins_not_in_community st.2
    = size_t_wrap (Zsum (fun he => foreign_count hg c (pins hg he)) visited_edges)
}.

(** The range that the extraction of community [c] issues for hyperedge
    [he] (lines 177 and 185-195). *)
Definition community_hyperedge (hg : Hypergraph) (c : Z) (he : nat) : CommunityHyperedge :=
  {| original_he := he;
     incidence_array_start := size_t_wrap (weight_below hg c (pins hg he));
     incidence_array_end :=
       size_t_wrap (weight_below hg c (pins hg he) + weight_in hg c (pins hg he)) |}.

Section LocalEdges.
Variable hash_add : Z -> nat -> Z.
Variable kEdgeHashSeed : Z.
Variable hg : Hypergraph.
Variable m : gmap nat nat.

(** The copy of hyperedge [he] whose pins start at position [start] of the
    incidence array of the sub-hypergraph. *)
Definition local_edge (start : nat) (he : nat) : Hyperedge :=
  {| he_begin := start; he_size := length (pins hg he);
     he_weight := edgeWeight hg he;
     he_hash := fold_left hash_add (map (local_id m) (pins hg he)) kEdgeHashSeed;
     he_valid := true |}.

(** The copies of the hyperedges [copied], stored one behind the other from
    position [start] on, and their pins in the numbering [m]. *)
Fixpoint local_edges (start : nat) (copied : list nat) : list Hyperedge :=
  match copied with
  | [] => []
  | he :: copied' =>
      local_edge start he :: local_edges (start + length (pins hg he)) copied'
  end.

Definition local_pins (copied : list nat) : list nat :=
  flat_map (fun he => map (local_id m) (pins hg he)) copied.

End LocalEdges.

(** What holds between the turns of the loop over the hyperedges (lines
    164-197): [copied] lists the hyperedges that were copied, [cs0] is the
    community sub-hypergraph before the loop. *)
Record copy_inv (hash_add : Z -> nat -> Z) (kEdgeHashSeed : Z) (hg : Hypergraph)
  (c : Z) (m : gmap nat nat) (cs0 : CommunitySubhypergraph) (copied : list nat)
  (st : ExtractState) : Prop := {
  cp_num : ex_num_hyperedges st = length copied;
  cp_idx : ex_pin_index st = length (local_pins hg m copied);
  cp_inc : _incidence_array (subhypergraph (ex_cs st)) = local_pins hg m copied;
  cp_edges : _hyperedges (subhypergraph (ex_cs st))
             = local_edges hash_add kEdgeHashSeed hg m 0 copied;
  cp_num_edges : _num_hyperedges (subhypergraph (ex_cs st)) = length copied;
  cp_num_nodes : _num_hypernodes (subhypergraph (ex_cs st))
                 = _num_hypernodes (subhypergraph cs0);
  cp_hypernodes : _hypernodes (subhypergraph (ex_cs st)) = _hypernodes (subhypergraph cs0);
  cp_he : subhypergraph_to_hypergraph_he (ex_cs st) = map (community_hyperedge hg c) copied;
  cp_hn : subhypergraph_to_hypergraph_hn (ex_cs st) = subhypergraph_to_hypergraph_hn cs0;
  cp_ref : hg_ref (ex_cs st) = hg_ref cs0;
  cp_id : community_id (ex_cs st) = community_id cs0;
  cp_hn_counter : num_hn_not_in_community (ex_cs st) = num_hn_not_in_community cs0;
  cp_pin_counter : num_pins_not_in_community (ex_cs st) = num_pins_not_in_community cs0
}.

(** The sum of the sizes that a [SparseMap] holds for the communities
    below [c], and the size that it holds for [c]. *)
Definition sizes_below (c : Z) (m : list (Z * Z)) : Z :=
  Zsum (fun e : Z * Z => if e.1 <? c then e.2 else 0) m.
Definition sizes_at (c : Z) (m : list (Z * Z)) : Z :=
  Zsum (fun e : Z * Z => if e.1 =? c then e.2 else 0) m.

(** The collected hypernodes in the order in which they are numbered. *)
Definition numbered_hypernodes (hg : Hypergraph) (c : Z) (order : bool) : list nat :=
  let mapping := subhypergraph_to_hypergraph_hn (collect_community hg c).2 in
  if order then std_sort Nat.ltb mapping else mapping.

(** The hyperedges that the second loop copies. *)
Definition copied_hyperedges (hg : Hypergraph) (c : Z) : list nat :=
  filter (fun he => is_visited (collect_community hg c).1 (initialNumNodes hg + he) = true)
         (edges hg).

(** *** The merge *)

(** What the merge leaves as it is, and what it changes in one direction
    only: the sizes of the vectors, the initial counts, the community
    labels and the start of every pin range stay; a hyperedge does not
    grow, and one that is disabled stays disabled. *)
Record merge_frame (hg hg' : Hypergraph) : Prop := {
  mf_num_hypernodes : _num_hypernodes hg' = _num_hypernodes hg;
  mf_num_hyperedges : _num_hyperedges hg' = _num_hyperedges hg;
  mf_num_pins : _num_pins hg' = _num_pins hg;
  mf_communities : _communities hg' = _communities hg;
  mf_hypernodes_length : length (_hypernodes hg') = length (_hypernodes hg);
  mf_hyperedges_length : length (_hyperedges hg') = length (_hyperedges hg);
  mf_incidence_length : length (_incidence_array hg') = length (_incidence_array hg);
  mf_begin : forall j, he_begin (_hyperedges hg' !!! j) = he_begin (_hyperedges hg !!! j);
  mf_size : forall j, (he_size (_hyperedges hg' !!! j) <= he_size (_hyperedges hg !!! j))%nat;
  mf_valid : forall j, he_valid (_hyperedges hg' !!! j) = true ->
                       he_valid (_hyperedges hg !!! j) = true
}.

(** The pins that [write_pin] stores for the positions [l] of the
    sub-hypergraph of [community]. *)
Definition own_pins_at (community : CommunitySubhypergraph) (l : list nat) : list nat :=
  map (fun p => subhypergraph_to_hypergraph_hn community !!! p)
      (filter (fun p : nat =>
                 _communities (subhypergraph community) !!! p = community_id community)
         (map (fun i => _incidence_array (subhypergraph community) !!! i) l)).

(** The hypernode that line 296 builds for the local hypernode [hn]. *)
Definition merged_hypernode (community : CommunitySubhypergraph) (hn : nat) : Hypernode :=
  {| hn_incident_nets :=
       map (fun he => original_he (subhypergraph_to_hypergraph_he community !!! he))
           (hn_incident_nets (_hypernodes (subhypergraph community) !!! hn));
     hn_weight := hn_weight (_hypernodes (subhypergraph community) !!! hn);
     hn_valid := hn_valid (_hypernodes (subhypergraph community) !!! hn) |}.

(** The local hypernode [hn] carries the label of the community. *)
Definition owned (community : CommunitySubhypergraph) (hn : nat) : Prop :=
  _communities (subhypergraph community) !!! hn = community_id community.

(** *** Lines that are not lines of numbers *)

(** What stops the loop over the pins of a line: the end of the line, or a
    character that starts no number. *)
Definition not_a_number (s : list ascii) : Prop :=
  match io.skipws s with
  | [] => True
  | x :: _ => io.digit_value x = None /\ x <> "+"%char /\ x <> "-"%char
  end.

(** [s] does not begin with a digit: a numeral in front of [s] ends where
    [s] starts. *)
Definition no_digit_first (s : list ascii) : Prop :=
  match s with
  | c :: _ => io.digit_value c = None
  | [] => True
  end.

(** The reader state [st] of a call that was given the vectors [iv], [ev],
    [hw], [nw], beside the state [st0] of the call on the same stream with
    empty vectors: the new entries stand behind the old ones, and those of
    the index vector are moved by the old size of the edge vector.  Of the
    weights only their number is compared: a weight that is read from an
    empty or blank line is indeterminate in the source. *)
Definition appended_to (iv ev hw nw : list Z) (st0 st : io.ReaderState) : Prop :=
  io.file st = io.file st0 /\ io.line st = io.line st0
  /\ io.index_vector st
     = iv ++ map (Z.add (Z.of_nat (length ev))) (io.index_vector st0)
  /\ io.edge_vector st = ev ++ io.edge_vector st0
  /\ (exists ws, io.hyperedge_weights st = hw ++ ws
                 /\ length ws = length (io.hyperedge_weights st0))
  /\ (exists ws, io.hypernode_weights st = nw ++ ws
                 /\ length ws = length (io.hypernode_weights st0)).

(** What one turn of the loop over the hyperedges appends to the edge
    vector. *)
Definition new_pins (id_bits : Z) (weight_type : io.num_type) (hw : bool)
  (st : io.ReaderState) : list Z :=
  let r := io.getline (io.file st) (io.line st) in
  let w := if hw then io.extract weight_type (io.open_stream r.2) 0
           else (io.open_stream r.2, 0) in
  io.read_pins id_bits (length r.2) w.1 0 [].

(** What holds of the index vector between the turns of the loop over the
    hyperedges: [entries] are the entries that the call has appended so
    far. *)
Definition entries_ok (first : Z) (entries : list Z) (st : io.ReaderState) : Prop :=
  hd_error entries = Some first
  /\ List.last entries 0 = Z.of_nat (length (io.edge_vector st))
  /\ StronglySorted Z.le entries.

(** ** Example inputs *)

(** An instance of the parameters of the kernel: 32-bit identifiers, and a
    stand-in for the hash, which no property below depends on. *)
Definition example_hash_add (h : Z) (x : nat) : Z := h + Z.of_nat x.
Definition example_seed : Z := 0.

Definition mk_hypernode (nets : list nat) (w : Z) : Hypernode :=
  {| hn_incident_nets := nets; hn_weight := w; hn_valid := true |}.
Definition mk_hyperedge (b s : nat) (w : Z) : Hyperedge :=
  {| he_begin := b; he_size := s; he_weight := w; he_hash := example_seed;
     he_valid := true |}.

(** The scenario of the specification: hypernodes 0..3 of weight 1,
    communities A = 0 with the hypernodes 0, 1 and B = 1 with 2, 3, and the
    hyperedges e0 = {0, 1, 2} and e1 = {2, 3}. *)
Definition scenario_hg : Hypergraph :=
  {| _num_hypernodes := 4; _num_hyperedges := 2; _num_pins := 5;
     _current_num_hypernodes := 4; _current_num_hyperedges := 2;
     _current_num_pins := 5;
     _hypernodes := [mk_hypernode [0%nat] 1; mk_hypernode [0%nat] 1;
                     mk_hypernode [0%nat; 1%nat] 1; mk_hypernode [1%nat] 1];
     _hyperedges := [mk_hyperedge 0 3 1; mk_hyperedge 3 2 1; mk_hyperedge 5 0 0];
     _incidence_array := [0; 1; 2; 2; 3]%nat;
     _communities := [0; 0; 1; 1] |}.

Definition example_extract (hg : Hypergraph) (c : Z) : CommunitySubhypergraph :=
  extractCommunityInducedSectionHypergraph example_hash_add example_seed hg c false.

Definition example_merge (threads : nat) (hg : Hypergraph)
  (cs : list CommunitySubhypergraph) (history : list ContractionMemento) : Hypergraph :=
  mergeCommunityInducedSectionHypergraphs example_hash_add example_seed 32
    {| pool_size := threads |} hg cs history.

Definition scenario_communities : list CommunitySubhypergraph :=
  [example_extract scenario_hg 0; example_extract scenario_hg 1].

(** A history of three contractions on the scenario, and an order of the
    stores of phase 2 in which the second worker runs ahead of the first. *)
Definition example_history : list ContractionMemento :=
  [ {| memento_v := 1%nat |}; {| memento_v := 3%nat |}; {| memento_v := 0%nat |} ].
Definition example_schedule : list (nat * Z) := [(3%nat, 1); (1%nat, 0); (0%nat, 2)].

(** A hypergraph as phase 1 leaves it when hypernode 1 was contracted: the
    only hyperedge still lists the pins 0, 1, 2, 3 in its active prefix. *)
Definition compaction_hg : Hypergraph :=
  {| _num_hypernodes := 4; _num_hyperedges := 1; _num_pins := 4;
     _current_num_hypernodes := 3; _current_num_hyperedges := 1;
     _current_num_pins := 3;
     _hypernodes := [mk_hypernode [0%nat] 2;
                     {| hn_incident_nets := [0%nat]; hn_weight := 1; hn_valid := false |};
                     mk_hypernode [0%nat] 1; mk_hypernode [0%nat] 1];
     _hyperedges := [mk_hyperedge 0 4 1; mk_hyperedge 4 0 0];
     _incidence_array := [0; 1; 2; 3]%nat;
     _communities := [0; 0; 0; 0] |}.
Definition compaction_history : list ContractionMemento := [ {| memento_v := 1%nat |} ].

(** The same hyperedge when first hypernode 2 and then hypernode 1 were
    contracted. *)
Definition contracted_hg : Hypergraph :=
  {| _num_hypernodes := 4; _num_hyperedges := 1; _num_pins := 4;
     _current_num_hypernodes := 2; _current_num_hyperedges := 1;
     _current_num_pins := 2;
     _hypernodes := [mk_hypernode [0%nat] 3;
                     {| hn_incident_nets := [0%nat]; hn_weight := 1; hn_valid := false |};
                     {| hn_incident_nets := [0%nat]; hn_weight := 1; hn_valid := false |};
                     mk_hypernode [0%nat] 1];
     _hyperedges := [mk_hyperedge 0 4 1; mk_hyperedge 4 0 0];
     _incidence_array := [0; 1; 2; 3]%nat;
     _communities := [0; 0; 0; 0] |}.
Definition contracted_history : list ContractionMemento :=
  [ {| memento_v := 2%nat |}; {| memento_v := 1%nat |} ].

(** A hypergraph in which the hypernodes 0 and 1 were contracted before the
    communities were formed: the hyperedge keeps them behind its active
    prefix, and no community history mentions them. *)
Definition stale_hg : Hypergraph :=
  {| _num_hypernodes := 3; _num_hyperedges := 1; _num_pins := 3;
     _current_num_hypernodes := 1; _current_num_hyperedges := 1;
     _current_num_pins := 1;
     _hypernodes := [{| hn_incident_nets := []; hn_weight := 1; hn_valid := false |};
                     {| hn_incident_nets := []; hn_weight := 1; hn_valid := false |};
                     mk_hypernode [0%nat] 3];
     _hyperedges := [mk_hyperedge 0 1 1; mk_hyperedge 3 0 0];
     _incidence_array := [2; 0; 1]%nat;
     _communities := [0; 0; 0] |}.

Definition example_phase3 (threads : nat) (hg : Hypergraph)
  (history : list ContractionMemento) : Hypergraph :=
  phase3 example_hash_add example_seed {| pool_size := threads |}
    (phase2 {| pool_size := threads |} hg history) hg.

(** Hypernode 0, of weight 2, forms community 0; the hypernodes 1, 2, 3, of
    weight 1, form community 1; e0 = {0, 2} and e1 = {1, 3}. *)
Definition weighted_hg : Hypergraph :=
  {| _num_hypernodes := 4; _num_hyperedges := 2; _num_pins := 4;
     _current_num_hypernodes := 4; _current_num_hyperedges := 2;
     _current_num_pins := 4;
     _hypernodes := [mk_hypernode [0%nat] 2; mk_hypernode [1%nat] 1;
                     mk_hypernode [0%nat] 1; mk_hypernode [1%nat] 1];
     _hyperedges := [mk_hyperedge 0 2 1; mk_hyperedge 2 2 1; mk_hyperedge 4 0 0];
     _incidence_array := [0; 2; 1; 3]%nat;
     _communities := [0; 1; 1; 1] |}.

(** Community 0 = {0, 1} with e0 = {0, 1} of weight 5; community 1 =
    {2, 3, 4} with e1 = {2, 3, 4} of weight 1 and e2 = {2, 4} of weight 2. *)
Definition parallel_hg : Hypergraph :=
  {| _num_hypernodes := 5; _num_hyperedges := 3; _num_pins := 7;
     _current_num_hypernodes := 5; _current_num_hyperedges := 3;
     _current_num_pins := 7;
     _hypernodes := [mk_hypernode [0%nat] 1; mk_hypernode [0%nat] 1;
                     mk_hypernode [1%nat; 2%nat] 1; mk_hypernode [1%nat] 1;
                     mk_hypernode [1%nat; 2%nat] 1];
     _hyperedges := [mk_hyperedge 0 2 5; mk_hyperedge 2 3 1; mk_hyperedge 5 2 2;
                     mk_hyperedge 7 0 0];
     _incidence_array := [0; 1; 2; 3; 4; 2; 4]%nat;
     _communities := [0; 0; 1; 1; 1] |}.

(** The sub-hypergraph of community 1 of [parallel_hg] after its coarsening
    contracted the local hypernode 1 (hypernode 3) into the local hypernode 0
    (hypernode 2): the local hyperedge 1 (e2) became parallel to the local
    hyperedge 0 (e1) and was disabled, and the local hyperedge 0 took over
    its weight, 1 + 2 = 3. *)
Definition parallel_coarsened_sub : Hypergraph :=
  {| _num_hypernodes := 3; _num_hyperedges := 2; _num_pins := 5;
     _current_num_hypernodes := 2; _current_num_hyperedges := 1;
     _current_num_pins := 2;
     _hypernodes := [mk_hypernode [0%nat; 1%nat] 2;
                     {| hn_incident_nets := [0%nat]; hn_weight := 1; hn_valid := false |};
                     mk_hypernode [0%nat; 1%nat] 1];
     _hyperedges := [mk_hyperedge 0 2 3;
                     {| he_begin := 3; he_size := 2; he_weight := 2;
                        he_hash := example_seed; he_valid := false |};
                     mk_hyperedge 5 0 0];
     _incidence_array := [0; 2; 1; 0; 2]%nat;
     _communities := [1; 1; 1] |}.

Definition parallel_coarsened : CommunitySubhypergraph :=
  set_subhypergraph parallel_coarsened_sub (example_extract parallel_hg 1).

Definition parallel_communities : list CommunitySubhypergraph :=
  [ example_extract parallel_hg 0; parallel_coarsened ].

Definition parallel_history : list ContractionMemento := [ {| memento_v := 3%nat |} ].

(** A file of format 1 with a comment line, two weighted hyperedges and
    four hypernodes:

      % a comment
      2 4 1
      7 1 2 3
      3   3 4
*)
Definition chars (s : string) : list ascii := list_ascii_of_string s.

Definition example_file : HgrFile :=
  {| comments := [chars "% a comment"];
     header := {| tokens := [([], 2%nat); (chars " ", 4%nat); (chars " ", 1%nat)];
                  trailing := [] |};
     hyperedge_lines :=
       [ {| tokens := [([], 7%nat); (chars " ", 1%nat); (chars " ", 2%nat);
                       (chars " ", 3%nat)];
            trailing := [] |};
         {| tokens := [([], 3%nat); (chars "   ", 3%nat); (chars " ", 4%nat)];
            trailing := chars " " |} ];
     weight_lines := [] |}.

(** A file in which a comment line stands between the two hyperedge
    lines. *)
Definition commented_body : list ascii :=
  chars "2 3" ++ [io.newline] ++ chars "1 2" ++ [io.newline]
  ++ chars "% not a hyperedge" ++ [io.newline] ++ chars "2 3" ++ [io.newline].

Definition example_reader_state : io.ReaderState :=
  {| io.file := io.open_stream (chars "% inner" ++ io.newline :: chars "3 4");
     io.line := chars "1 2";
     io.index_vector := [0; 2];
     io.edge_vector := [0; 1];
     io.hyperedge_weights := [5];
     io.hypernode_weights := [] |}.

(** A hyperedge line with the pins 1 and 2, one in which the first pin is
    written as 0, and a reader that is about to read its first hyperedge
    from [content]. *)
Definition two_pins_line : Line :=
  {| tokens := [([], 1%nat); (chars " ", 2%nat)]; trailing := [] |}.
Definition zero_pin_line : Line :=
  {| tokens := [([], 0%nat); (chars " ", 2%nat)]; trailing := [] |}.
Definition reader_at (content : list ascii) : io.ReaderState :=
  {| io.file := io.open_stream content; io.line := [];
     io.index_vector := [0]; io.edge_vector := [];
     io.hyperedge_weights := []; io.hypernode_weights := [] |}.

(** A file with one hyperedge {1, 2} on two hypernodes, and what
    [parseHypergraphFile] returns for it when the caller passes in an edge
    vector that already holds the pins 5 and 6. *)
Definition small_file : list ascii :=
  chars "1 2" ++ [io.newline] ++ chars "1 2" ++ [io.newline].
Definition small_parsed : io.Parsed :=
  {| io.num_hypernodes := 2; io.num_hyperedges := 1;
     io.final :=
       {| io.file := {| io.buf := []; io.eofbit := false; io.failbit := false |};
          io.line := chars "1 2";
          io.index_vector := [7; 2; 4];
          io.edge_vector := [5; 6; 0; 1];
          io.hyperedge_weights := []; io.hypernode_weights := [] |} |}.

(** * Properties *)

(** ** Pre-phase of the merge *)

Section Prephase.
Variable id_bits : Z.

Lemma wrap_add_l (a b : Z) : wrap id_bits (wrap id_bits a + b) = wrap id_bits (a + b).
Proof. unfold wrap. apply Zplus_mod_idemp_l. Qed.

Lemma wrap_sub_l (a b : Z) : wrap id_bits (wrap id_bits a - b) = wrap id_bits (a - b).
Proof. unfold wrap. apply Zminus_mod_idemp_l. Qed.

Lemma wrap_small (a : Z) : 0 <= a < 2 ^ id_bits -> wrap id_bits a = a.
Proof. intros H. unfold wrap. apply Z.mod_small. exact H. Qed.

(** The counters during the loop, up to wrap-around: the loop adds the
    contributions one community after the other. *)
Lemma prephase_fold (cs : list CommunitySubhypergraph) (hg : Hypergraph) :
  let hg' := fold_left (prephase_step id_bits) cs hg in
  wrap id_bits (_current_num_hypernodes hg')
    = wrap id_bits (_current_num_hypernodes hg + Zsum own_nodes cs)
  /\ wrap id_bits (_current_num_pins hg')
    = wrap id_bits (_current_num_pins hg + Zsum own_pins cs)
  /\ wrap id_bits (_current_num_hyperedges hg')
    = wrap id_bits (_current_num_hyperedges hg - Zsum disabled_edges cs).
Proof.
  revert hg. induction cs as [|c cs IH]; intros hg; simpl.
  - rewrite Z.add_0_r, Z.add_0_r, Z.sub_0_r. auto.
  - specialize (IH (prephase_step id_bits hg c)). simpl in IH.
    destruct IH as (Hn & Hp & He).
    rewrite Hn, Hp, He. unfold prephase_step; simpl.
    rewrite !wrap_add_l, wrap_sub_l.
    fold (own_nodes c) (own_pins c) (disabled_edges c).
    repeat split; f_equal; lia.
Qed.

(** A counter that is stored by the loop is a value of its type. *)
Lemma prephase_fold_wrapped (cs : list CommunitySubhypergraph) (hg : Hypergraph) :
  cs <> [] ->
  let hg' := fold_left (prephase_step id_bits) cs hg in
  wrap id_bits (_current_num_hypernodes hg') = _current_num_hypernodes hg'
  /\ wrap id_bits (_current_num_pins hg') = _current_num_pins hg'
  /\ wrap id_bits (_current_num_hyperedges hg') = _current_num_hyperedges hg'.
Proof.
  revert hg. induction cs as [|c cs IH]; intros hg Hne; [congruence|].
  destruct cs as [|c' cs].
  - simpl. unfold wrap. rewrite !Zmod_mod. auto.
  - apply (IH (prephase_step id_bits hg c)). discriminate.
Qed.

(** C8.  After the pre-phase the current node count is the sum over the
    communities of [currentNumNodes - num_hn_not_in_community], the current
    pin count is the sum of [currentNumPins - num_pins_not_in_community],
    and the current edge count is its previous value minus the number of
    edges that the communities disabled.  The counters are unsigned machine
    integers: the previous edge count is a value of that type and the three
    results are representable in it. *)
Theorem prephase_counts (hg : Hypergraph) (cs : list CommunitySubhypergraph) :
  0 <= _current_num_hyperedges hg < 2 ^ id_bits ->
  0 <= Zsum own_nodes cs < 2 ^ id_bits ->
  0 <= Zsum own_pins cs < 2 ^ id_bits ->
  0 <= _current_num_hyperedges hg - Zsum disabled_edges cs < 2 ^ id_bits ->
  _current_num_hypernodes (prephase id_bits hg cs) = Zsum own_nodes cs
  /\ _current_num_pins (prephase id_bits hg cs) = Zsum own_pins cs
  /\ _current_num_hyperedges (prephase id_bits hg cs)
     = _current_num_hyperedges hg - Zsum disabled_edges cs.
Proof.
  intros He Hn Hp Hd. unfold prephase.
  set (hg0 := set_current_counts 0 (_current_num_hyperedges hg) 0 hg).
  destruct (prephase_fold cs hg0) as (Fn & Fp & Fe).
  destruct cs as [|c cs].
  - simpl. rewrite Z.sub_0_r. auto.
  - destruct (prephase_fold_wrapped (c :: cs) hg0) as (Wn & Wp & We); [discriminate|].
    rewrite Wn in Fn. rewrite Wp in Fp. rewrite We in Fe.
    rewrite Fn, Fp, Fe. subst hg0. simpl _current_num_hypernodes.
    simpl _current_num_pins. simpl _current_num_hyperedges.
    rewrite !Z.add_0_l. rewrite !wrap_small by assumption. auto.
Qed.

End Prephase.

Lemma prephase_counts_witness :
  _current_num_hypernodes (prephase 32 scenario_hg scenario_communities) = 4
  /\ _current_num_pins (prephase 32 scenario_hg scenario_communities) = 5
  /\ _current_num_hyperedges (prephase 32 scenario_hg scenario_communities) = 2.
Proof.
  apply (prephase_counts 32 scenario_hg scenario_communities); vm_compute; split; congruence.
Defined.

(** ** Phase 2: the contraction index *)

Section Phase2.

Lemma apply_writes_length (ws : list (nat * Z)) (ci : list Z) :
  length (apply_writes ws ci) = length ci.
Proof.
  revert ci. induction ws as [|w ws IH]; intros ci; simpl; [reflexivity|].
  unfold apply_writes in IH. rewrite IH. apply length_insert.
Qed.

(** A cell that no store addresses keeps its value. *)
Lemma apply_writes_frame (ws : list (nat * Z)) (ci : list Z) (k : nat) :
  ~ In k (map fst ws) -> apply_writes ws ci !! k = ci !! k.
Proof.
  revert ci. induction ws as [|w ws IH]; intros ci Hk; simpl; [reflexivity|].
  simpl in Hk. unfold apply_writes in IH. rewrite IH by tauto.
  apply list_lookup_insert_ne. tauto.
Qed.

(** When no cell is addressed twice, a store survives all the others. *)
Lemma apply_writes_lookup (ws : list (nat * Z)) (ci : list Z) (k : nat) (x : Z) :
  List.NoDup (map fst ws) -> In (k, x) ws -> (k < length ci)%nat ->
  apply_writes ws ci !! k = Some x.
Proof.
  revert ci. induction ws as [|w ws IH]; intros ci Hnd Hin Hk; simpl in *; [tauto|].
  inversion Hnd as [|? ? Hnotin Hnd']; subst.
  destruct Hin as [-> | Hin].
  - simpl in Hnotin. fold (apply_writes ws (<[k:=x]> ci)).
    rewrite apply_writes_frame by exact Hnotin.
    apply list_lookup_insert_eq. exact Hk.
  - apply IH; [exact Hnd'|exact Hin|]. rewrite length_insert. exact Hk.
Qed.

Lemma construct_contraction_index_writes (history : list ContractionMemento)
  (ci : list Z) (s e : nat) :
  construct_contraction_index history ci s e
  = apply_writes (range_writes history (s, e)) ci.
Proof.
  unfold construct_contraction_index, range_writes, apply_writes. simpl.
  generalize (seq s (e - s)). intros l. revert ci.
  induction l as [|i l IH]; intros ci; simpl; [reflexivity|]. apply IH.
Qed.

(** The sequential run of phase 2 performs the stores task after task. *)
Lemma phase2_writes_run (pool : ThreadPool) (hg : Hypergraph)
  (history : list ContractionMemento) :
  phase2 pool hg history
  = apply_writes (phase2_writes pool history)
      (replicate (initialNumNodes hg) (-1)).
Proof.
  unfold phase2, phase2_writes.
  generalize (replicate (initialNumNodes hg) (-1)).
  generalize (split_ranges (pool_size pool) (length history)). intros rs.
  induction rs as [|r rs IH]; intros ci; simpl; [reflexivity|].
  rewrite IH. unfold apply_writes at 2. rewrite fold_left_app.
  destruct r as [s e]. simpl. rewrite construct_contraction_index_writes.
  reflexivity.
Qed.

(** Consecutive ranges with monotone boundaries [b] tile an interval. *)
Lemma tiling (b : nat -> nat) (s len : nat) :
  (forall i, (s <= i < s + len)%nat -> (b i <= b (S i))%nat) ->
  flat_map (fun i => seq (b i) (b (S i) - b i)) (seq s len)
  = seq (b s) (b (s + len)%nat - b s).
Proof.
  induction len as [|len IH]; intros Hmono.
  - simpl. rewrite Nat.add_0_r, Nat.sub_diag. reflexivity.
  - assert (Hle : (b s <= b (s + len)%nat)%nat).
    { clear IH. induction len as [|len IH].
      - rewrite Nat.add_0_r. lia.
      - etransitivity; [apply IH; intros; apply Hmono; lia|].
        replace (s + S len)%nat with (S (s + len)) by lia. apply Hmono. lia. }
    rewrite seq_S, flat_map_app, IH by (intros; apply Hmono; lia).
    simpl. rewrite app_nil_r.
    replace (s + S len)%nat with (S (s + len)) by lia.
    pose proof (Hmono (s + len)%nat ltac:(lia)) as Hstep.
    replace (b (S (s + len)) - b s)%nat
      with ((b (s + len)%nat - b s) + (b (S (s + len)) - b (s + len)%nat))%nat by lia.
    rewrite seq_app. f_equal. f_equal. lia.
Qed.

(** The ranges of [split_ranges] tile [0, total): every position is handed
    to exactly one task, whatever the size of the pool. *)
Lemma split_ranges_tile (num_threads total : nat) :
  (0 < num_threads)%nat ->
  flat_map (fun r : nat * nat => seq r.1 (r.2 - r.1)) (split_ranges num_threads total)
  = seq 0 total.
Proof.
  intros Hpos. unfold split_ranges.
  set (step := (total / num_threads)%nat).
  destruct ((1 <=? step)%nat && negb (num_threads =? 1)%nat) eqn:Hpar.
  - set (b := fun i => if (i <? num_threads)%nat then (i * step)%nat else total).
    rewrite flat_map_concat_map, map_map, <- flat_map_concat_map.
    transitivity (flat_map (fun i => seq (b i) (b (S i) - b i)) (seq 0 num_threads)).
    + rewrite !flat_map_concat_map. f_equal. apply map_ext_in.
      intros i Hi. apply in_seq in Hi. simpl. unfold b.
      destruct (Nat.ltb_spec i num_threads); [|lia].
      destruct (Nat.eqb_spec i (num_threads - 1));
        destruct (Nat.ltb_spec (S i) num_threads); try lia;
        replace ((i + 1) * step)%nat with (S i * step)%nat by lia; reflexivity.
    + assert (Hfit : (num_threads * step <= total)%nat).
      { subst step. apply Nat.Div0.mul_div_le. }
      rewrite tiling.
      * unfold b. simpl. destruct (Nat.ltb_spec 0 num_threads); [|lia].
        destruct (Nat.ltb_spec num_threads num_threads); [lia|].
        simpl. f_equal. lia.
      * intros i Hi. unfold b.
        destruct (Nat.ltb_spec i num_threads); [|lia].
        destruct (Nat.ltb_spec (S i) num_threads); [lia|].
        assert (i = num_threads - 1)%nat as -> by lia. nia.
  - simpl. rewrite app_nil_r. f_equal. lia.
Qed.

(** With at least one worker, the stores of phase 2 are exactly one store
    per position of the history. *)
Lemma phase2_writes_all (pool : ThreadPool) (history : list ContractionMemento) :
  (0 < pool_size pool)%nat ->
  phase2_writes pool history
  = map (fun i => (memento_v (history !!! i), int_of_size_t (Z.of_nat i)))
        (seq 0 (length history)).
Proof.
  intros Hpos. rewrite <- (split_ranges_tile (pool_size pool) (length history) Hpos).
  unfold phase2_writes, range_writes.
  induction (split_ranges (pool_size pool) (length history)) as [|r rs IH];
    simpl; [reflexivity|].
  rewrite map_app, IH. reflexivity.
Qed.

Lemma absorbed_by_position (history : list ContractionMemento) :
  map (fun i => memento_v (history !!! i)) (seq 0 (length history)) = absorbed history.
Proof.
  unfold absorbed. apply list_eq. intros i.
  rewrite !list_lookup_fmap.
  destruct (history !! i) as [m|] eqn:Hm; simpl.
  - rewrite lookup_seq_lt by (eapply lookup_lt_Some; eassumption). simpl.
    rewrite (list_lookup_total_correct _ _ _ Hm). reflexivity.
  - rewrite lookup_seq_ge by (apply lookup_ge_None; exact Hm). reflexivity.
Qed.

Lemma int_of_size_t_small (x : Z) : 0 <= x < 2 ^ 31 -> int_of_size_t x = x.
Proof. intros H. unfold int_of_size_t. rewrite Z.mod_small; lia. Qed.

(** The table after the stores of phase 2 were performed in any order. *)
Lemma phase2_stores_any_order (pool : ThreadPool) (n : nat)
  (history : list ContractionMemento) (ws : list (nat * Z)) :
  (0 < pool_size pool)%nat ->
  List.NoDup (absorbed history) ->
  Forall (fun hn => (hn < n)%nat) (absorbed history) ->
  Z.of_nat (length history) <= 2 ^ 31 ->
  Permutation ws (phase2_writes pool history) ->
  (forall i m, history !! i = Some m ->
     apply_writes ws (replicate n (-1)) !! memento_v m = Some (Z.of_nat i))
  /\ (forall hn, (hn < n)%nat -> ~ In hn (absorbed history) ->
       apply_writes ws (replicate n (-1)) !! hn = Some (-1)).
Proof.
  intros Hpos Hnd Hrange Hint Hws.
  set (g := fun i => (memento_v (history !!! i), int_of_size_t (Z.of_nat i))).
  assert (Hall : phase2_writes pool history = map g (seq 0 (length history)))
    by (apply phase2_writes_all; exact Hpos).
  assert (Hkeys : map fst (phase2_writes pool history) = absorbed history).
  { rewrite Hall, map_map. simpl. apply absorbed_by_position. }
  assert (Hk : Permutation (map fst ws) (absorbed history)).
  { rewrite <- Hkeys. apply Permutation_map. exact Hws. }
  split.
  - intros i m Hm. apply apply_writes_lookup.
    + eapply Permutation_NoDup; [symmetry; exact Hk|exact Hnd].
    + eapply Permutation_in; [symmetry; exact Hws|].
      rewrite Hall. apply in_map_iff. exists i.
      pose proof (lookup_lt_Some _ _ _ Hm) as Hlt. split.
      * unfold g. rewrite (list_lookup_total_correct _ _ _ Hm).
        rewrite int_of_size_t_small by lia. reflexivity.
      * apply in_seq. lia.
    + rewrite length_replicate.
      rewrite List.Forall_forall in Hrange. apply Hrange.
      unfold absorbed. apply in_map_iff. exists m. split; [reflexivity|].
      apply list_elem_of_In. eapply list_elem_of_lookup_2. exact Hm.
  - intros hn Hlt Hnot. rewrite apply_writes_frame.
    + apply lookup_replicate. auto.
    + intros Hin. apply Hnot. eapply Permutation_in; [exact Hk|exact Hin].
Qed.

(** The sequential run of phase 2 stores the position of every memento. *)
Lemma phase2_positions (pool : ThreadPool) (hg : Hypergraph)
  (history : list ContractionMemento) :
  (0 < pool_size pool)%nat ->
  List.NoDup (absorbed history) ->
  Forall (fun hn => (hn < initialNumNodes hg)%nat) (absorbed history) ->
  Z.of_nat (length history) <= 2 ^ 31 ->
  forall i m, history !! i = Some m ->
    phase2 pool hg history !! memento_v m = Some (Z.of_nat i).
Proof.
  intros Hpos Hnd Hrange Hint. rewrite phase2_writes_run.
  apply (phase2_stores_any_order pool (initialNumNodes hg) history
           (phase2_writes pool history) Hpos Hnd Hrange Hint (Permutation_refl _)).
Qed.

(** C6.  When no hypernode is absorbed twice, every absorbed hypernode is a
    hypernode of the hypergraph and the positions of the history fit an
    [int], then, for every size of the pool and every order in which the
    workers perform the stores of phase 2, the table maps the hypernode
    absorbed at position [i] to [i] and every other hypernode to [-1]; the
    table is the one of the sequential run.  Absorbed hypernodes and
    positions of the history are thus in bijection. *)
Theorem contraction_index_bijection (pool : ThreadPool) (hg : Hypergraph)
  (history : list ContractionMemento) (sched : list (nat * Z)) :
  (0 < pool_size pool)%nat ->
  List.NoDup (absorbed history) ->
  Forall (fun hn => (hn < initialNumNodes hg)%nat) (absorbed history) ->
  Z.of_nat (length history) <= 2 ^ 31 ->
  Permutation sched (phase2_writes pool history) ->
  let contraction_index := apply_writes sched (replicate (initialNumNodes hg) (-1)) in
  (forall i m, history !! i = Some m ->
     contraction_index !! memento_v m = Some (Z.of_nat i))
  /\ (forall hn, (hn < initialNumNodes hg)%nat -> ~ In hn (absorbed history) ->
       contraction_index !! hn = Some (-1))
  /\ contraction_index = phase2 pool hg history.
Proof.
  intros Hpos Hnd Hrange Hint Hperm.
  set (n := initialNumNodes hg).
  destruct (phase2_stores_any_order pool n history sched
              Hpos Hnd Hrange Hint Hperm) as [Ha Hb].
  destruct (phase2_stores_any_order pool n history (phase2_writes pool history)
              Hpos Hnd Hrange Hint (Permutation_refl _)) as [Ha' Hb'].
  split; [exact Ha|]. split; [exact Hb|].
  rewrite phase2_writes_run. fold n. apply list_eq. intros hn.
  destruct (Nat.lt_ge_cases hn n) as [Hlt|Hge].
  - destruct (in_dec Nat.eq_dec hn (absorbed history)) as [Hin|Hnot].
    + unfold absorbed in Hin. apply in_map_iff in Hin. destruct Hin as (m & <- & Hm).
      apply list_elem_of_In, list_elem_of_lookup_1 in Hm. destruct Hm as [i Hi].
      rewrite (Ha i m Hi), (Ha' i m Hi). reflexivity.
    + rewrite (Hb hn Hlt Hnot), (Hb' hn Hlt Hnot). reflexivity.
  - rewrite !lookup_ge_None_2; [reflexivity| |];
      rewrite apply_writes_length, length_replicate; exact Hge.
Qed.

End Phase2.

Lemma contraction_index_bijection_witness :
  let contraction_index :=
    apply_writes example_schedule (replicate (initialNumNodes scenario_hg) (-1)) in
  (forall i m, example_history !! i = Some m ->
     contraction_index !! memento_v m = Some (Z.of_nat i))
  /\ (forall hn, (hn < initialNumNodes scenario_hg)%nat ->
       ~ In hn (absorbed example_history) ->
       contraction_index !! hn = Some (-1))
  /\ contraction_index = phase2 {| pool_size := 2 |} scenario_hg example_history.
Proof.
  apply (contraction_index_bijection {| pool_size := 2 |} scenario_hg
           example_history example_schedule).
  - simpl. lia.
  - repeat constructor; simpl; lia.
  - repeat constructor.
  - simpl. lia.
  - vm_compute. apply perm_swap.
Defined.

(** ** Phase 3: compaction and order of the removed pins *)

Section Compaction.
Variable hash_add : Z -> nat -> Z.
Variable hypernodes : list Hypernode.

Lemma segment_middle (pre mid post : list nat) (a b : nat) :
  a = length pre -> b = (length pre + length mid)%nat ->
  segment (pre ++ mid ++ post) a b = mid.
Proof.
  intros -> ->. unfold segment. rewrite drop_app_length.
  replace (length pre + length mid - length pre)%nat with (length mid) by lia.
  apply take_app_length.
Qed.

Lemma segment_split (v : list nat) (a b : nat) :
  (a <= b <= length v)%nat -> v = take a v ++ segment v a b ++ drop b v.
Proof.
  intros H. unfold segment.
  rewrite <- (take_drop a v) at 1. f_equal.
  rewrite <- (take_drop (b - a) (drop a v)) at 1. f_equal.
  rewrite drop_drop. f_equal. lia.
Qed.

Lemma segment_length (v : list nat) (a b : nat) :
  (a <= b <= length v)%nat -> length (segment v a b) = (b - a)%nat.
Proof. intros H. unfold segment. rewrite length_take, length_drop. lia. Qed.

Lemma snoc_case (l : list nat) : l = [] \/ exists y l', l = l' ++ [y].
Proof.
  destruct l as [|x l]; [left; reflexivity|right].
  destruct (exists_last (l := x :: l)) as (l' & y & H); [discriminate|].
  exists y, l'. exact H.
Qed.

(** Swapping the first and the last pin of the unprocessed part. *)
Lemma swap_ends (pre mid post : list nat) (x y : nat) :
  swap (pre ++ (x :: mid ++ [y]) ++ post) (length pre)
       (length pre + length (x :: mid ++ [y]) - 1)
  = pre ++ (y :: mid ++ [x]) ++ post.
Proof.
  unfold swap. simpl. rewrite length_app. simpl.
  replace (length pre + S (length mid + 1) - 1)%nat
    with (length pre + S (length mid))%nat by lia.
  rewrite (list_lookup_total_middle pre _ x) by reflexivity.
  assert (Hy : (pre ++ x :: (mid ++ [y]) ++ post) !!! (length pre + S (length mid))%nat = y).
  { rewrite lookup_total_app_r by lia.
    replace (length pre + S (length mid) - length pre)%nat with (S (length mid)) by lia.
    simpl. rewrite <- app_assoc. simpl.
    apply list_lookup_total_middle. reflexivity. }
  rewrite Hy.
  replace (length pre) with (length pre + 0)%nat at 2 by lia.
  rewrite insert_app_r. simpl. rewrite insert_app_r. simpl.
  rewrite <- !app_assoc. simpl.
  replace (length mid) with (length mid + 0)%nat by lia.
  rewrite insert_app_r. reflexivity.
Qed.

Lemma swap_same (v : list nat) (i : nat) : swap v i i = v.
Proof.
  unfold swap. rewrite list_insert_insert_eq.
  destruct (v !! i) as [x|] eqn:Hx.
  - rewrite (list_lookup_total_correct _ _ _ Hx). apply list_insert_id. exact Hx.
  - apply list_insert_ge. apply lookup_ge_None. exact Hx.
Qed.

(** The loop of lines 349-360 on an array [pre ++ mid ++ post] whose
    unprocessed part is [mid]: it stops with the enabled pins of [mid] in
    front ([kept]), followed by the disabled ones ([removed]); the size of
    the edge has shrunk by the number of removed pins, and the hash has
    accumulated the kept pins in the order in which they are stored. *)
Lemma compact_pins_spec (fuel : nat) :
  forall (pre mid post : list nat) (e : Hyperedge),
    (firstEntry e <= length pre)%nat ->
    firstInvalidEntry e = (length pre + length mid)%nat ->
    (length mid <= fuel)%nat ->
    exists kept removed e',
      compact_pins hash_add fuel hypernodes (pre ++ mid ++ post) e (length pre)
        = (pre ++ kept ++ removed ++ post, e')
      /\ Permutation (kept ++ removed) mid
      /\ Forall (pin_enabled hypernodes) kept
      /\ Forall (pin_disabled hypernodes) removed
      /\ he_begin e' = he_begin e
      /\ he_size e' = (he_size e - length removed)%nat
      /\ he_weight e' = he_weight e
      /\ he_valid e' = he_valid e
      /\ he_hash e' = fold_left hash_add kept (he_hash e).
Proof.
  induction fuel as [|fuel IH]; intros pre mid post e Hfirst Hfie Hfuel.
  - destruct mid; [|simpl in Hfuel; lia].
    exists [], [], e. simpl. rewrite Nat.sub_0_r. repeat split; constructor.
  - simpl. destruct mid as [|x mid].
    + simpl in Hfie. rewrite Hfie, Nat.add_0_r.
      rewrite Nat.ltb_irrefl.
      exists [], [], e. simpl. rewrite Nat.sub_0_r. repeat split; constructor.
    + assert (Hlt : (length pre <? firstInvalidEntry e)%nat = true).
      { apply Nat.ltb_lt. rewrite Hfie. simpl. lia. }
      rewrite Hlt.
      rewrite (list_lookup_total_middle pre (mid ++ post) x) by reflexivity.
      unfold hn_isDisabled.
      destruct (hn_valid (hypernodes !!! x)) eqn:Hx; simpl negb; cbv iota.
      * (* the pin stays *)
        specialize (IH (pre ++ [x]) mid post
                       (setHash (hash_add (he_hash e) x) e)).
        rewrite length_app in IH. simpl in IH.
        replace (length pre + 1)%nat with (S (length pre)) in IH by lia.
        destruct IH as (kept & removed & e' & Hrun & Hperm & Hk & Hr & Hb & Hs & Hw & Hv & Hh).
        { unfold firstEntry in *. simpl in *. lia. }
        { unfold firstInvalidEntry in *. simpl in *. lia. }
        { simpl in Hfuel. lia. }
        exists (x :: kept), removed, e'.
        rewrite <- app_assoc in Hrun. cbn [app] in Hrun. cbn [app]. rewrite Hrun.
        rewrite <- app_assoc. cbn [app].
        repeat split; auto.
      * (* the pin is removed *)
        destruct (snoc_case mid) as [-> | (y & mid' & ->)].
        -- (* it is already the last pin of the active prefix *)
           assert (firstInvalidEntry e - 1 = length pre)%nat as ->.
           { clear - Hfie. rewrite Hfie. cbn [length]. lia. }
           rewrite swap_same.
           specialize (IH pre [] (x :: post) (decrementSize e)).
           destruct IH as (kept & removed & e' & Hrun & Hperm & Hk & Hr & Hb & Hs & Hw & Hv & Hh).
           { exact Hfirst. }
           { unfold firstInvalidEntry, firstEntry in *. simpl in *. lia. }
           { simpl. lia. }
           apply Permutation_nil_r in Hperm.
           apply app_eq_nil in Hperm. destruct Hperm as [-> ->].
           simpl in Hrun. simpl. rewrite Hrun.
           exists [], [x], e'. simpl.
           repeat split; auto; try constructor; auto.
           unfold firstInvalidEntry in Hfie. simpl in *. lia.
        -- (* it is exchanged with the last pin of the active prefix *)
           rewrite Hfie.
           change (x :: (mid' ++ [y]) ++ post) with ((x :: mid' ++ [y]) ++ post).
           rewrite swap_ends.
           change ((y :: mid' ++ [x]) ++ post) with ((y :: mid') ++ [x] ++ post)
             || (simpl; rewrite <- app_assoc; simpl).
           specialize (IH pre (y :: mid') (x :: post) (decrementSize e)).
           destruct IH as (kept & removed & e' & Hrun & Hperm & Hk & Hr & Hb & Hs & Hw & Hv & Hh).
           { exact Hfirst. }
           { unfold firstInvalidEntry, firstEntry in *. simpl in *.
             rewrite length_app in Hfie. simpl in Hfie. lia. }
           { simpl in *. rewrite length_app in Hfuel. simpl in Hfuel. lia. }
           simpl in Hrun. rewrite Hrun.
           exists kept, (removed ++ [x]), e'.
           rewrite <- !app_assoc. simpl.
           repeat split; auto.
           ++ rewrite app_assoc, Hperm.
              transitivity (x :: y :: mid').
              ** symmetry. apply (Permutation_cons_append (y :: mid') x).
              ** constructor. apply Permutation_cons_append.
           ++ apply Forall_app. split; [exact Hr|]. constructor; [exact Hx|constructor].
           ++ rewrite length_app. simpl.
              unfold firstInvalidEntry in Hfie. simpl in *.
              rewrite length_app in Hfie. simpl in Hfie. lia.
Qed.

End Compaction.

(** *** std::sort *)

Section SortFacts.
Context {A : Type} (comp : A -> A -> bool).

Lemma sort_insert_perm (x : A) (l : list A) : Permutation (sort_insert comp x l) (x :: l).
Proof.
  induction l as [|y l IH]; simpl; [reflexivity|].
  destruct (comp y x); [|reflexivity].
  rewrite IH. apply perm_swap.
Qed.

Lemma std_sort_perm (l : list A) : Permutation (std_sort comp l) l.
Proof.
  induction l as [|x l IH]; simpl; [reflexivity|].
  rewrite sort_insert_perm. constructor. exact IH.
Qed.

(** For a strict weak order [comp], no element of the result compares
    before one that precedes it. *)
Hypothesis comp_asym : forall a b, comp a b = true -> comp b a = false.
Hypothesis comp_trans : forall a b c,
  comp b a = false -> comp c b = false -> comp c a = false.

Lemma sort_insert_sorted (x : A) (l : list A) :
  StronglySorted (fun a b => comp b a = false) l ->
  StronglySorted (fun a b => comp b a = false) (sort_insert comp x l).
Proof.
  induction l as [|y l IH]; intros Hs; simpl.
  - repeat constructor.
  - apply StronglySorted_inv in Hs. destruct Hs as [Hs Hy].
    destruct (comp y x) eqn:Hyx.
    + constructor; [apply IH; exact Hs|].
      eapply Permutation_Forall; [symmetry; apply sort_insert_perm|].
      constructor; [apply comp_asym; exact Hyx|exact Hy].
    + constructor; [constructor; assumption|].
      constructor; [exact Hyx|].
      eapply Forall_impl; [exact Hy|]. simpl. intros z Hz.
      eapply comp_trans; eassumption.
Qed.

Lemma std_sort_sorted (l : list A) :
  StronglySorted (fun a b => comp b a = false) (std_sort comp l).
Proof.
  induction l as [|x l IH]; simpl; [constructor|].
  apply sort_insert_sorted. exact IH.
Qed.

End SortFacts.

Lemma sort_range_middle {A : Type} (comp : A -> A -> bool) (pre mid post : list A)
  (s e : nat) :
  s = length pre -> e = (length pre + length mid)%nat ->
  sort_range comp (pre ++ mid ++ post) s e = pre ++ std_sort comp mid ++ post.
Proof.
  intros -> ->. unfold sort_range. rewrite take_app_length. f_equal.
  rewrite drop_app_length.
  replace (length pre + length mid - length pre)%nat with (length mid) by lia.
  rewrite take_app_length. f_equal.
  rewrite app_assoc. rewrite <- length_app. apply drop_app_length.
Qed.

Lemma StronglySorted_weaken {A : Type} (R S : A -> A -> Prop) (l : list A) :
  (forall a b, R a b -> S a b) -> StronglySorted R l -> StronglySorted S l.
Proof.
  intros HRS Hs. induction Hs as [|a l Hs IH Ha]; constructor; [exact IH|].
  eapply Forall_impl; [exact Ha|]. intros b. apply HRS.
Qed.

(** The sort of phase 3 leaves the contraction indices non-increasing. *)
Lemma sort_non_increasing (ci : list Z) (l : list nat) :
  non_increasing ci (std_sort (later_contracted ci) l).
Proof.
  unfold non_increasing.
  eapply StronglySorted_weaken; [|apply std_sort_sorted].
  - unfold later_contracted. intros u v H. simpl in H.
    apply Z.ltb_ge in H. exact H.
  - unfold later_contracted. intros a b H. apply Z.ltb_lt in H. apply Z.ltb_ge. lia.
  - unfold later_contracted. intros a b c H1 H2.
    apply Z.ltb_ge in H1, H2. apply Z.ltb_ge. lia.
Qed.

(** Pins with pairwise different contraction indices are then in strictly
    decreasing order. *)
Lemma non_increasing_strict (ci : list Z) (l : list nat) :
  non_increasing ci l -> List.NoDup (map (fun u => ci !!! u) l) ->
  strictly_decreasing ci l.
Proof.
  unfold non_increasing, strictly_decreasing.
  induction l as [|u l IH]; intros Hs Hnd; [constructor|].
  apply StronglySorted_inv in Hs. destruct Hs as [Hs Hu].
  simpl in Hnd. inversion Hnd as [|? ? Hnotin Hnd']; subst.
  constructor; [apply IH; assumption|].
  rewrite List.Forall_forall in *. intros v Hv.
  specialize (Hu v Hv).
  assert (ci !!! v <> ci !!! u).
  { intros Heq. apply Hnotin. rewrite <- Heq. apply in_map_iff. eauto. }
  lia.
Qed.

(** *** One hyperedge of phase 3 *)

Section EdgeStep.
Variable hash_add : Z -> nat -> Z.
Variable kEdgeHashSeed : Z.

Lemma pins_segment (hg : Hypergraph) (he : nat) :
  pins hg he
  = segment (_incidence_array hg) (firstEntry (_hyperedges hg !!! he))
      (firstInvalidEntry (_hyperedges hg !!! he)).
Proof.
  unfold pins, segment, firstInvalidEntry, firstEntry. f_equal. lia.
Qed.

(** The body of the loop of [create_contraction_hierarchy] rewrites the
    range of [he] only: the enabled pins of the active prefix come first,
    then the sorted sequence of the removed pins together with the pins
    that were stored behind the active prefix before. *)
Lemma create_contraction_hierarchy_he_effect (ci : list Z) (hg : Hypergraph) (he : nat) :
  edge_range_ok hg he ->
  exists kept removed e',
    Permutation (kept ++ removed) (pins hg he)
    /\ Forall (pin_enabled (_hypernodes hg)) kept
    /\ Forall (pin_disabled (_hypernodes hg)) removed
    /\ he_begin e' = he_begin (_hyperedges hg !!! he)
    /\ he_size e' = length kept
    /\ he_weight e' = he_weight (_hyperedges hg !!! he)
    /\ he_valid e' = he_valid (_hyperedges hg !!! he)
    /\ he_hash e' = fold_left hash_add kept kEdgeHashSeed
    /\ create_contraction_hierarchy_he hash_add kEdgeHashSeed ci hg he
       = set_incidence_array
           (take (firstEntry (_hyperedges hg !!! he)) (_incidence_array hg)
            ++ kept
            ++ std_sort (later_contracted ci) (removed ++ invalid_pins hg he)
            ++ drop (firstEntry (_hyperedges hg !!! S he)) (_incidence_array hg))
           (set_hyperedges (<[he := e']> (_hyperedges hg)) hg).
Proof.
  intros (Hlen & Hfie & Hnxt).
  rewrite pins_segment. unfold invalid_pins, create_contraction_hierarchy_he.
  set (e := _hyperedges hg !!! he) in *.
  set (inc := _incidence_array hg) in *.
  set (nxt := firstEntry (_hyperedges hg !!! S he)) in *.
  set (e2 := setHash kEdgeHashSeed (if he_isDisabled e then he_enable e else e)).
  assert (He2 : he_begin e2 = he_begin e /\ he_size e2 = he_size e
                /\ he_weight e2 = he_weight e /\ he_hash e2 = kEdgeHashSeed).
  { subst e2. destruct (he_isDisabled e); simpl; auto. }
  destruct He2 as (Hb2 & Hs2 & Hw2 & Hh2).
  set (first := firstEntry e) in *. set (fie := firstInvalidEntry e) in *.
  assert (Hff : (first <= fie)%nat) by (subst first fie; unfold firstInvalidEntry, firstEntry; lia).
  set (pre := take first inc). set (mid := segment inc first fie).
  set (post := drop fie inc).
  assert (Hsplit : inc = pre ++ mid ++ post) by (apply segment_split; lia).
  assert (Hpre : length pre = first) by (subst pre; rewrite length_take; lia).
  assert (Hmid : length mid = (fie - first)%nat) by (apply segment_length; lia).
  destruct (compact_pins_spec hash_add (_hypernodes hg) (he_size e2) pre mid post e2)
    as (kept & removed & e3 & Hrun & Hperm & Hk & Hr & Hb & Hs & Hw & Hv & Hh).
  { unfold firstEntry. rewrite Hb2, Hpre. reflexivity. }
  { unfold firstInvalidEntry. rewrite Hb2, Hs2, Hpre, Hmid.
    subst first fie. unfold firstInvalidEntry, firstEntry. lia. }
  { rewrite Hs2, Hmid. subst first fie. unfold firstInvalidEntry, firstEntry. lia. }
  assert (Hcount : (length kept + length removed = he_size e)%nat).
  { apply Permutation_length in Hperm. rewrite length_app in Hperm.
    rewrite Hperm, Hmid. subst first fie. unfold firstInvalidEntry, firstEntry. lia. }
  rewrite <- Hsplit, Hpre in Hrun.
  replace (firstEntry e2) with first by (unfold firstEntry; rewrite Hb2; reflexivity).
  rewrite Hrun.
  set (e4 := if he_isDisabled e then he_disable e3 else e3).
  exists kept, removed, e4.
  assert (He4 : he_begin e4 = he_begin e /\ he_size e4 = length kept
                /\ he_weight e4 = he_weight e /\ he_valid e4 = he_valid e
                /\ he_hash e4 = fold_left hash_add kept kEdgeHashSeed).
  { assert (Hv3 : he_valid e3 = he_valid e2) by exact Hv.
    subst e4 e2. unfold he_isDisabled in *.
    destruct (he_valid e) eqn:Hve; simpl in *;
      rewrite ?Hb, ?Hs, ?Hw, ?Hh, ?Hv3; repeat split; auto; lia. }
  destruct He4 as (Hb4 & Hs4 & Hw4 & Hv4 & Hh4).
  repeat (split; [assumption|]).
  rewrite list_lookup_total_insert_ne by lia. fold nxt.
  f_equal.
  assert (Hpost : post = segment inc fie nxt ++ drop nxt inc).
  { subst post. unfold segment.
    rewrite <- (take_drop (nxt - fie) (drop fie inc)) at 1. f_equal.
    rewrite drop_drop. f_equal. lia. }
  rewrite Hpost.
  replace (pre ++ kept ++ removed ++ segment inc fie nxt ++ drop nxt inc)
    with ((pre ++ kept) ++ (removed ++ segment inc fie nxt) ++ drop nxt inc)
    by (rewrite <- !app_assoc; reflexivity).
  rewrite sort_range_middle.
  - rewrite <- !app_assoc. reflexivity.
  - unfold firstInvalidEntry. rewrite Hb4, Hs4, length_app, Hpre. reflexivity.
  - rewrite !length_app, Hpre, segment_length by lia.
    subst first fie. unfold firstInvalidEntry, firstEntry in *. lia.
Qed.

End EdgeStep.

Section EdgeStepFrame.
Variable hash_add : Z -> nat -> Z.
Variable kEdgeHashSeed : Z.
Variable ci : list Z.

Abbreviation step := (create_contraction_hierarchy_he hash_add kEdgeHashSeed ci).

Lemma step_frame_holds (hg : Hypergraph) (k : nat) :
  edge_range_ok hg k -> step_frame k hg (step hg k).
Proof.
  intros Hok.
  destruct (create_contraction_hierarchy_he_effect hash_add kEdgeHashSeed ci hg k Hok)
    as (kept & removed & e' & Hperm & _ & _ & Hb & Hs & _ & _ & _ & Hrun).
  destruct Hok as (Hlen & Hfie & Hnxt).
  rewrite Hrun. clear Hrun.
  assert (Hcount : (length kept + length removed = he_size (_hyperedges hg !!! k))%nat).
  { apply Permutation_length in Hperm. rewrite length_app in Hperm.
    rewrite Hperm. unfold pins. rewrite length_take, length_drop.
    unfold firstInvalidEntry, firstEntry in *. lia. }
  assert (Hinv : length (invalid_pins hg k)
                 = (firstEntry (_hyperedges hg !!! S k)
                    - firstInvalidEntry (_hyperedges hg !!! k))%nat).
  { unfold invalid_pins. apply segment_length. lia. }
  set (first := firstEntry (_hyperedges hg !!! k)) in *.
  set (nxt := firstEntry (_hyperedges hg !!! S k)) in *.
  set (inc := _incidence_array hg) in *.
  assert (Hsorted : length (std_sort (later_contracted ci) (removed ++ invalid_pins hg k))
                    = (length removed + length (invalid_pins hg k))%nat).
  { rewrite (Permutation_length (std_sort_perm _ _)). apply length_app. }
  assert (Hfirst : (first <= nxt)%nat)
    by (subst first nxt; unfold firstInvalidEntry, firstEntry in *; lia).
  assert (Hpre : length (take first inc) = first) by (rewrite length_take; lia).
  constructor; simpl.
  - reflexivity.
  - reflexivity.
  - apply length_insert.
  - intros j Hj. apply list_lookup_total_insert_ne. lia.
  - rewrite list_lookup_total_insert_eq by lia. exact Hb.
  - rewrite list_lookup_total_insert_eq by lia. lia.
  - rewrite !length_app, Hpre, Hsorted, Hinv, length_drop.
    unfold firstInvalidEntry, firstEntry in *. fold inc. lia.
  - fold first inc. apply take_app_length'. symmetry. exact Hpre.
  - fold nxt inc.
    rewrite !app_assoc. apply drop_app_length'.
    rewrite !length_app, Hpre, Hsorted, Hinv.
    unfold firstInvalidEntry, firstEntry in *. lia.
Qed.

End EdgeStepFrame.

(** *** All hyperedges of phase 3 *)

Section Phase3.
Variable hash_add : Z -> nat -> Z.
Variable kEdgeHashSeed : Z.
Variable ci : list Z.

Abbreviation step3 := (create_contraction_hierarchy_he hash_add kEdgeHashSeed ci).

Lemma pins_of_range (hg : Hypergraph) (he : nat) :
  edge_range_ok hg he ->
  pins hg he = take (he_size (_hyperedges hg !!! he)) (edge_range hg he).
Proof.
  intros (_ & Hfie & _). unfold pins, edge_range, segment.
  rewrite take_take. f_equal.
  unfold firstInvalidEntry, firstEntry in *. lia.
Qed.

Lemma invalid_pins_of_range (hg : Hypergraph) (he : nat) :
  edge_range_ok hg he ->
  invalid_pins hg he = drop (he_size (_hyperedges hg !!! he)) (edge_range hg he).
Proof.
  intros (_ & Hfie & _). unfold invalid_pins, edge_range, segment.
  rewrite skipn_firstn_comm, drop_drop. unfold firstInvalidEntry, firstEntry in *.
  f_equal. lia.
Qed.

(** The step on [he] itself, in terms of the range of [he]. *)
Lemma step_on_edge (hg : Hypergraph) (he : nat) :
  edge_range_ok hg he ->
  exists kept removed,
    Permutation (kept ++ removed) (pins hg he)
    /\ Forall (pin_enabled (_hypernodes hg)) kept
    /\ Forall (pin_disabled (_hypernodes hg)) removed
    /\ he_size (_hyperedges (step3 hg he) !!! he) = length kept
    /\ he_weight (_hyperedges (step3 hg he) !!! he) = he_weight (_hyperedges hg !!! he)
    /\ he_valid (_hyperedges (step3 hg he) !!! he) = he_valid (_hyperedges hg !!! he)
    /\ he_hash (_hyperedges (step3 hg he) !!! he) = fold_left hash_add kept kEdgeHashSeed
    /\ edge_range (step3 hg he) he
       = kept ++ std_sort (later_contracted ci) (removed ++ invalid_pins hg he).
Proof.
  intros Hok.
  destruct (create_contraction_hierarchy_he_effect hash_add kEdgeHashSeed ci hg he Hok)
    as (kept & removed & e' & Hperm & Hk & Hr & Hb & Hs & Hw & Hv & Hh & Hrun).
  exists kept, removed.
  assert (Hcount : (length kept + length removed = he_size (_hyperedges hg !!! he))%nat).
  { pose proof (Permutation_length Hperm) as Hl. rewrite length_app in Hl.
    rewrite Hl. destruct Hok as (_ & Hfie & Hnxt).
    unfold pins. rewrite length_take, length_drop.
    unfold firstInvalidEntry, firstEntry in *. lia. }
  assert (Hinv : length (invalid_pins hg he)
                 = (firstEntry (_hyperedges hg !!! S he)
                    - firstInvalidEntry (_hyperedges hg !!! he))%nat).
  { destruct Hok as (_ & Hfie & Hnxt). unfold invalid_pins. apply segment_length. lia. }
  destruct Hok as (Hlen & Hfie & Hnxt).
  unfold edge_range. rewrite Hrun. simpl.
  rewrite list_lookup_total_insert_eq by lia.
  rewrite list_lookup_total_insert_ne by lia.
  repeat (split; [assumption|]).
  change (firstEntry e') with (he_begin e'). rewrite Hb.
  set (first := he_begin (_hyperedges hg !!! he)) in *.
  set (sorted := std_sort (later_contracted ci) (removed ++ invalid_pins hg he)).
  assert (Hsorted : length sorted = (length removed + length (invalid_pins hg he))%nat).
  { subst sorted. rewrite (Permutation_length (std_sort_perm _ _)). apply length_app. }
  assert (Hpre : length (take (firstEntry (_hyperedges hg !!! he)) (_incidence_array hg))
                 = first).
  { rewrite length_take. unfold firstInvalidEntry, firstEntry in *. subst first. lia. }
  rewrite (app_assoc kept). apply segment_middle.
  - symmetry. exact Hpre.
  - rewrite Hpre, length_app, Hsorted, Hinv.
    unfold firstInvalidEntry, firstEntry in *. subst first. lia.
Qed.

(** Positions of the ranges grow with the hyperedge. *)
Lemma firstEntry_mono (hg : Hypergraph) (j j' : nat) :
  ranges_ok hg -> (j <= j' <= initialNumEdges hg)%nat ->
  (firstEntry (_hyperedges hg !!! j) <= firstEntry (_hyperedges hg !!! j'))%nat.
Proof.
  intros Hok [Hjj Hn]. induction Hjj as [|j' Hjj IH]; [lia|].
  etransitivity; [apply IH; lia|].
  destruct (Hok j' ltac:(lia)) as (_ & Hfie & _).
  unfold firstInvalidEntry, firstEntry in *. lia.
Qed.

Lemma step_ranges_ok (hg : Hypergraph) (k : nat) :
  ranges_ok hg -> (k < initialNumEdges hg)%nat -> ranges_ok (step3 hg k).
Proof.
  intros Hok Hk.
  pose proof (step_frame_holds hash_add kEdgeHashSeed ci hg k (Hok k Hk)) as F.
  intros he Hhe. unfold initialNumEdges in Hhe. rewrite (sf_num_edges _ _ _ F) in Hhe.
  destruct (Hok he Hhe) as (Hlen & Hfie & Hnxt).
  assert (Hbegin : forall j, he_begin (_hyperedges (step3 hg k) !!! j)
                             = he_begin (_hyperedges hg !!! j)).
  { intros j. destruct (decide (j = k)) as [->|Hj].
    - apply (sf_begin _ _ _ F).
    - rewrite (sf_other_edges _ _ _ F) by exact Hj. reflexivity. }
  assert (Hsize : forall j, (he_size (_hyperedges (step3 hg k) !!! j)
                             <= he_size (_hyperedges hg !!! j))%nat).
  { intros j. destruct (decide (j = k)) as [->|Hj].
    - apply (sf_size _ _ _ F).
    - rewrite (sf_other_edges _ _ _ F) by exact Hj. reflexivity. }
  unfold edge_range_ok, firstInvalidEntry, firstEntry in *.
  rewrite (sf_edges_length _ _ _ F), (sf_length _ _ _ F), !Hbegin.
  specialize (Hsize he). lia.
Qed.

(** A step on another hyperedge leaves the hyperedge and its range as they
    are. *)
Lemma step_other_edge (hg : Hypergraph) (k he : nat) :
  ranges_ok hg -> (k < initialNumEdges hg)%nat -> (he < initialNumEdges hg)%nat ->
  he <> k ->
  _hyperedges (step3 hg k) !!! he = _hyperedges hg !!! he
  /\ edge_range (step3 hg k) he = edge_range hg he.
Proof.
  intros Hok Hk Hhe Hne.
  pose proof (step_frame_holds hash_add kEdgeHashSeed ci hg k (Hok k Hk)) as F.
  split; [apply (sf_other_edges _ _ _ F); exact Hne|].
  assert (Hbegin : forall j, firstEntry (_hyperedges (step3 hg k) !!! j)
                             = firstEntry (_hyperedges hg !!! j)).
  { intros j. unfold firstEntry. destruct (decide (j = k)) as [->|Hj].
    - apply (sf_begin _ _ _ F).
    - rewrite (sf_other_edges _ _ _ F) by exact Hj. reflexivity. }
  unfold edge_range. rewrite !Hbegin.
  set (a := firstEntry (_hyperedges hg !!! he)).
  set (b := firstEntry (_hyperedges hg !!! S he)).
  assert (Hab : (a <= b)%nat) by (apply firstEntry_mono; [exact Hok|lia]).
  destruct (Nat.lt_ge_cases he k) as [Hlt|Hge].
  - (* the range of [he] lies before the range of [k] *)
    assert (Hb : (b <= firstEntry (_hyperedges hg !!! k))%nat)
      by (apply firstEntry_mono; [exact Hok|lia]).
    unfold segment. rewrite !(take_drop_commute _ (b - a) a).
    replace (a + (b - a))%nat with b by lia.
    f_equal. clearbody a b.
    rewrite <- (Nat.min_l b (firstEntry (_hyperedges hg !!! k))) by lia.
    rewrite <- !take_take. rewrite (sf_before _ _ _ F). reflexivity.
  - (* the range of [he] lies behind the range of [k] *)
    assert (Ha : (firstEntry (_hyperedges hg !!! S k) <= a)%nat)
      by (apply firstEntry_mono; [exact Hok|lia]).
    unfold segment. f_equal.
    replace a with (firstEntry (_hyperedges hg !!! S k)
                    + (a - firstEntry (_hyperedges hg !!! S k)))%nat by lia.
    rewrite <- !drop_drop. rewrite (sf_after _ _ _ F). reflexivity.
Qed.

Lemma fold_other_edges (he : nat) (ks : list nat) :
  forall hg : Hypergraph,
    ranges_ok hg ->
    Forall (fun k => (k < initialNumEdges hg)%nat) ks ->
    (he < initialNumEdges hg)%nat -> ~ In he ks ->
    let hg' := fold_left step3 ks hg in
    ranges_ok hg'
    /\ _hypernodes hg' = _hypernodes hg
    /\ initialNumEdges hg' = initialNumEdges hg
    /\ _hyperedges hg' !!! he = _hyperedges hg !!! he
    /\ edge_range hg' he = edge_range hg he.
Proof.
  induction ks as [|k ks IH]; intros hg Hok Hks Hhe Hnot; simpl.
  - auto.
  - inversion Hks as [|? ? Hk Hks']; subst. simpl in Hnot.
    pose proof (step_frame_holds hash_add kEdgeHashSeed ci hg k (Hok k Hk)) as F.
    assert (Hn : initialNumEdges (step3 hg k) = initialNumEdges hg)
      by apply (sf_num_edges _ _ _ F).
    destruct (step_other_edge hg k he Hok Hk Hhe ltac:(intros ->; tauto)) as [He Hr].
    destruct (IH (step3 hg k)) as (Hok' & Hn' & Hne' & He' & Hr').
    + apply step_ranges_ok; assumption.
    + rewrite Hn. exact Hks'.
    + rewrite Hn. exact Hhe.
    + tauto.
    + split; [exact Hok'|].
      split; [rewrite Hn'; apply (sf_hypernodes _ _ _ F)|].
      split; [rewrite Hne'; exact Hn|].
      split; [rewrite He'; exact He|].
      rewrite Hr'. exact Hr.
Qed.

Lemma fold_flat_map {A B C : Type} (f : A -> C -> A) (g : B -> list C)
  (rs : list B) (a : A) :
  fold_left (fun a r => fold_left f (g r) a) rs a = fold_left f (flat_map g rs) a.
Proof.
  revert a. induction rs as [|r rs IH]; intros a; simpl; [reflexivity|].
  rewrite fold_left_app. apply IH.
Qed.

(** With at least one worker, phase 3 processes every hyperedge once. *)
Lemma phase3_as_fold (pool : ThreadPool) (hg : Hypergraph) :
  (0 < pool_size pool)%nat ->
  phase3 hash_add kEdgeHashSeed pool ci hg
  = fold_left step3 (seq 0 (initialNumEdges hg)) hg.
Proof.
  intros Hpos. unfold phase3, create_contraction_hierarchy.
  rewrite (fold_flat_map step3 (fun r : nat * nat => seq r.1 (r.2 - r.1))).
  rewrite split_ranges_tile by exact Hpos. reflexivity.
Qed.

(** Phase 3 on one hyperedge of a hypergraph whose ranges are in order: the
    active prefix holds the enabled pins of the old active prefix, the rest
    of the range is the sorted sequence of the removed pins and of the pins
    that were behind the active prefix. *)
Lemma phase3_edge (pool : ThreadPool) (hg : Hypergraph) (he : nat) :
  ranges_ok hg -> (0 < pool_size pool)%nat -> (he < initialNumEdges hg)%nat ->
  let hg' := phase3 hash_add kEdgeHashSeed pool ci hg in
  exists kept removed,
    Permutation (kept ++ removed) (pins hg he)
    /\ Forall (pin_enabled (_hypernodes hg)) kept
    /\ Forall (pin_disabled (_hypernodes hg)) removed
    /\ pins hg' he = kept
    /\ invalid_pins hg' he
       = std_sort (later_contracted ci) (removed ++ invalid_pins hg he)
    /\ he_weight (_hyperedges hg' !!! he) = he_weight (_hyperedges hg !!! he)
    /\ he_valid (_hyperedges hg' !!! he) = he_valid (_hyperedges hg !!! he)
    /\ he_hash (_hyperedges hg' !!! he) = fold_left hash_add kept kEdgeHashSeed.
Proof.
  intros Hok Hpos Hhe. simpl. rewrite phase3_as_fold by exact Hpos.
  set (n := initialNumEdges hg) in *.
  assert (Hseq : seq 0 n = seq 0 he ++ he :: seq (S he) (n - S he)).
  { replace n with (he + S (n - S he))%nat at 1 by lia.
    rewrite seq_app. simpl. reflexivity. }
  rewrite Hseq, fold_left_app. simpl.
  set (hga := fold_left step3 (seq 0 he) hg).
  destruct (fold_other_edges he (seq 0 he) hg) as (Hoka & Hna & Hnea & Hea & Hra).
  { exact Hok. }
  { apply List.Forall_forall. intros k Hk. apply in_seq in Hk. fold n. lia. }
  { exact Hhe. }
  { intros Hin. apply in_seq in Hin. lia. }
  fold hga in Hoka, Hna, Hnea, Hea, Hra.
  assert (Hhea : (he < initialNumEdges hga)%nat) by (rewrite Hnea; exact Hhe).
  pose proof (Hoka he Hhea) as Hokhe.
  destruct (step_on_edge hga he Hokhe)
    as (kept & removed & Hperm & Hk & Hr & Hs & Hw & Hv & Hh & Hrange).
  set (hgb := step3 hga he) in *.
  assert (Hnb : initialNumEdges hgb = initialNumEdges hga)
    by apply (sf_num_edges _ _ _ (step_frame_holds hash_add kEdgeHashSeed ci hga he Hokhe)).
  destruct (fold_other_edges he (seq (S he) (n - S he)) hgb) as (Hokc & Hnc & Hnec & Hec & Hrc).
  { apply step_ranges_ok; assumption. }
  { apply List.Forall_forall. intros k Hin. apply in_seq in Hin.
    rewrite Hnb, Hnea. fold n. lia. }
  { rewrite Hnb. exact Hhea. }
  { intros Hin. apply in_seq in Hin. lia. }
  set (hgc := fold_left step3 (seq (S he) (n - S he)) hgb) in *.
  assert (Hpins_a : pins hga he = pins hg he).
  { rewrite !pins_of_range by auto. rewrite Hea, Hra. reflexivity. }
  assert (Hinv_a : invalid_pins hga he = invalid_pins hg he).
  { rewrite !invalid_pins_of_range by auto. rewrite Hea, Hra. reflexivity. }
  assert (Hokc_he : edge_range_ok hgc he).
  { apply Hokc. rewrite Hnec, Hnb. exact Hhea. }
  exists kept, removed.
  rewrite <- Hpins_a, <- Hinv_a, <- Hna, <- Hea.
  split; [exact Hperm|]. split; [exact Hk|]. split; [exact Hr|].
  rewrite pins_of_range, invalid_pins_of_range by exact Hokc_he.
  rewrite Hec, Hrc, Hrange, Hs, Hw, Hv, Hh.
  rewrite take_app_length, drop_app_length. auto.
Qed.

End Phase3.

Section Phase3Claims.
Variable hash_add : Z -> nat -> Z.
Variable kEdgeHashSeed : Z.

Lemma filter_all (P : nat -> Prop) `{!forall x, Decision (P x)} (l : list nat) :
  Forall P l -> filter P l = l.
Proof.
  induction 1 as [|x l Hx _ IH]; [reflexivity|].
  rewrite filter_cons_True by exact Hx. rewrite IH. reflexivity.
Qed.

Lemma filter_none (P : nat -> Prop) `{!forall x, Decision (P x)} (l : list nat) :
  Forall (fun x => ~ P x) l -> filter P l = [].
Proof.
  induction 1 as [|x l Hx _ IH]; [reflexivity|].
  rewrite filter_cons_False by exact Hx. exact IH.
Qed.

Lemma NoDup_map_on {A B : Type} (f : A -> B) (l : list A) :
  (forall x y, In x l -> In y l -> f x = f y -> x = y) ->
  List.NoDup l -> List.NoDup (map f l).
Proof.
  induction l as [|a l IH]; intros Hinj Hnd; simpl; [constructor|].
  inversion Hnd as [|? ? Hnotin Hnd']; subst. constructor.
  - intros Hin. apply in_map_iff in Hin. destruct Hin as (b & Hfb & Hb).
    apply Hnotin. rewrite (Hinj a b); simpl; auto.
  - apply IH; [|exact Hnd']. intros x y Hx Hy. apply Hinj; simpl; auto.
Qed.

Lemma disabled_not_enabled (hns : list Hypernode) (pin : nat) :
  pin_disabled hns pin <-> ~ pin_enabled hns pin.
Proof.
  unfold pin_disabled, pin_enabled. destruct (hn_valid (hns !!! pin)); split; congruence.
Qed.

(** C4, as the code has it.  After phase 3, the active prefix of every
    hyperedge holds exactly the previously active pins whose hypernodes are
    enabled, each as often as before, and the previously active pins whose
    hypernodes are disabled have moved behind the active prefix.  The order
    of the pins that remain is not part of the statement: the pin that is
    swapped in from the back overtakes the pins in between. *)
Theorem compaction_keeps_enabled_pins (pool : ThreadPool) (ci : list Z)
  (hg : Hypergraph) (he : nat) :
  ranges_ok hg -> (0 < pool_size pool)%nat -> (he < initialNumEdges hg)%nat ->
  let hg' := phase3 hash_add kEdgeHashSeed pool ci hg in
  Permutation (pins hg' he) (filter (pin_enabled (_hypernodes hg)) (pins hg he))
  /\ Permutation (invalid_pins hg' he)
       (filter (pin_disabled (_hypernodes hg)) (pins hg he) ++ invalid_pins hg he).
Proof.
  intros Hok Hpos Hhe hg'.
  destruct (phase3_edge hash_add kEdgeHashSeed ci pool hg he Hok Hpos Hhe)
    as (kept & removed & Hperm & Hk & Hr & Hpins & Hinv & _).
  fold hg' in Hpins, Hinv. rewrite Hpins, Hinv.
  assert (Hr' : Forall (fun x => ~ pin_enabled (_hypernodes hg) x) removed).
  { eapply Forall_impl; [exact Hr|]. intros x. apply disabled_not_enabled. }
  assert (Hk' : Forall (fun x => ~ pin_disabled (_hypernodes hg) x) kept).
  { eapply Forall_impl; [exact Hk|]. intros x Hx Hd.
    apply disabled_not_enabled in Hd. contradiction. }
  split.
  - rewrite <- Hperm, filter_app.
    rewrite (filter_all _ kept Hk), (filter_none _ removed Hr'), app_nil_r.
    reflexivity.
  - rewrite std_sort_perm. rewrite <- Hperm, filter_app.
    rewrite (filter_none _ kept Hk'), (filter_all _ removed Hr). reflexivity.
Qed.

(** After phase 3 the contraction indices of the pins behind the active
    prefix never increase from front to back. *)
Lemma suffix_non_increasing (pool : ThreadPool) (ci : list Z)
  (hg : Hypergraph) (he : nat) :
  ranges_ok hg -> (0 < pool_size pool)%nat -> (he < initialNumEdges hg)%nat ->
  non_increasing ci (invalid_pins (phase3 hash_add kEdgeHashSeed pool ci hg) he).
Proof.
  intros Hok Hpos Hhe.
  destruct (phase3_edge hash_add kEdgeHashSeed ci pool hg he Hok Hpos Hhe)
    as (kept & removed & _ & _ & _ & _ & Hinv & _).
  rewrite Hinv. apply sort_non_increasing.
Qed.

(** C5, as the code has it.  Let no hypernode be absorbed twice, let the
    pins of the range of [he] be pairwise distinct, and let the history
    absorb every disabled pin of the active prefix and every pin stored
    behind the active prefix.  Then, after phase 3, the contraction indices
    of the pins behind the active prefix strictly decrease from front to
    back. *)
Theorem suffix_strictly_decreasing (pool : ThreadPool) (hg : Hypergraph)
  (history : list ContractionMemento) (he : nat) :
  ranges_ok hg -> (0 < pool_size pool)%nat -> (he < initialNumEdges hg)%nat ->
  List.NoDup (absorbed history) ->
  Forall (fun hn => (hn < initialNumNodes hg)%nat) (absorbed history) ->
  Z.of_nat (length history) <= 2 ^ 31 ->
  List.NoDup (edge_range hg he) ->
  (forall pin, In pin (pins hg he) -> pin_disabled (_hypernodes hg) pin ->
               In pin (absorbed history)) ->
  (forall pin, In pin (invalid_pins hg he) -> In pin (absorbed history)) ->
  let contraction_index := phase2 pool hg history in
  strictly_decreasing contraction_index
    (invalid_pins (phase3 hash_add kEdgeHashSeed pool contraction_index hg) he).
Proof.
  intros Hok Hpos Hhe Hnd Hrange Hint Hdistinct Hactive Hbehind ci.
  apply non_increasing_strict; [apply suffix_non_increasing; assumption|].
  destruct (phase3_edge hash_add kEdgeHashSeed ci pool hg he Hok Hpos Hhe)
    as (kept & removed & Hperm & Hk & Hr & _ & Hinv & _).
  rewrite Hinv.
  assert (Hrange_split : edge_range hg he = pins hg he ++ invalid_pins hg he).
  { rewrite pins_of_range, invalid_pins_of_range by (apply Hok; exact Hhe).
    symmetry. apply take_drop. }
  assert (Hnd' : List.NoDup (removed ++ invalid_pins hg he)).
  { rewrite Hrange_split in Hdistinct.
    rewrite <- Hperm, <- app_assoc in Hdistinct.
    eapply NoDup_app_remove_l. exact Hdistinct. }
  assert (Hin : forall pin, In pin (removed ++ invalid_pins hg he) ->
                            In pin (absorbed history)).
  { intros pin Hp. apply in_app_or in Hp. destruct Hp as [Hp|Hp].
    - apply Hactive.
      + eapply Permutation_in; [exact Hperm|]. apply in_or_app. right. exact Hp.
      + rewrite List.Forall_forall in Hr. apply Hr. exact Hp.
    - apply Hbehind. exact Hp. }
  pose proof (phase2_positions pool hg history Hpos Hnd Hrange Hint) as Hpos_of.
  fold ci in Hpos_of.
  eapply Permutation_NoDup.
  { apply Permutation_map. symmetry. apply std_sort_perm. }
  apply NoDup_map_on; [|exact Hnd'].
  intros x y Hx Hy Hxy.
  apply Hin in Hx. apply Hin in Hy.
  unfold absorbed in Hx, Hy.
  apply in_map_iff in Hx. destruct Hx as (mx & <- & Hmx).
  apply in_map_iff in Hy. destruct Hy as (my & <- & Hmy).
  apply list_elem_of_In, list_elem_of_lookup_1 in Hmx. destruct Hmx as [i Hi].
  apply list_elem_of_In, list_elem_of_lookup_1 in Hmy. destruct Hmy as [j Hj].
  pose proof (Hpos_of i mx Hi) as Hci. pose proof (Hpos_of j my Hj) as Hcj.
  rewrite !(list_lookup_total_correct _ _ _ Hci) in Hxy.
  rewrite !(list_lookup_total_correct _ _ _ Hcj) in Hxy.
  assert (i = j) by lia. subst j. congruence.
Qed.

End Phase3Claims.

Lemma compaction_hg_ranges_ok : ranges_ok compaction_hg.
Proof.
  intros he Hhe. unfold initialNumEdges in Hhe. simpl in Hhe.
  assert (he = 0)%nat as -> by lia. repeat split; vm_compute; lia.
Qed.

Lemma contracted_hg_ranges_ok : ranges_ok contracted_hg.
Proof.
  intros he Hhe. unfold initialNumEdges in Hhe. simpl in Hhe.
  assert (he = 0)%nat as -> by lia. repeat split; vm_compute; lia.
Qed.

Lemma compaction_keeps_enabled_pins_witness :
  Permutation (pins (example_phase3 1 compaction_hg compaction_history) 0)
    (filter (pin_enabled (_hypernodes compaction_hg)) (pins compaction_hg 0))
  /\ Permutation (invalid_pins (example_phase3 1 compaction_hg compaction_history) 0)
       (filter (pin_disabled (_hypernodes compaction_hg)) (pins compaction_hg 0)
        ++ invalid_pins compaction_hg 0).
Proof.
  apply (compaction_keeps_enabled_pins example_hash_add example_seed
           {| pool_size := 1 |} (phase2 {| pool_size := 1 |} compaction_hg compaction_history)
           compaction_hg 0).
  - exact compaction_hg_ranges_ok.
  - simpl. lia.
  - vm_compute. lia.
Defined.

(** C4 as the claim states it fails: the pins 0, 2, 3 remain, but pin 3,
    swapped into the place of the disabled pin 1, now precedes pin 2. *)
Lemma compaction_is_not_stable :
  pins (example_phase3 1 compaction_hg compaction_history) 0 = [0; 3; 2]%nat
  /\ filter (pin_enabled (_hypernodes compaction_hg)) (pins compaction_hg 0)
     = [0; 2; 3]%nat
  /\ pins (example_phase3 1 compaction_hg compaction_history) 0
     <> filter (pin_enabled (_hypernodes compaction_hg)) (pins compaction_hg 0).
Proof.
  split; [vm_compute; reflexivity|]. split; [vm_compute; reflexivity|].
  vm_compute. discriminate.
Qed.

Lemma suffix_strictly_decreasing_witness :
  strictly_decreasing (phase2 {| pool_size := 2 |} contracted_hg contracted_history)
    (invalid_pins
       (phase3 example_hash_add example_seed {| pool_size := 2 |}
          (phase2 {| pool_size := 2 |} contracted_hg contracted_history)
          contracted_hg) 0).
Proof.
  apply (suffix_strictly_decreasing example_hash_add example_seed
           {| pool_size := 2 |} contracted_hg contracted_history 0).
  - exact contracted_hg_ranges_ok.
  - simpl. lia.
  - vm_compute. lia.
  - repeat constructor; simpl; lia.
  - repeat constructor.
  - simpl. lia.
  - repeat constructor; simpl; lia.
  - intros pin Hin Hdis. vm_compute in Hin. vm_compute.
    destruct Hin as [<-|[<-|[<-|[<-|[]]]]]; vm_compute in Hdis; try discriminate; auto.
  - intros pin Hin. vm_compute in Hin. destruct Hin.
Defined.

(** C5 as the claim states it fails: the history is empty, so no hypernode
    appears twice in it, yet the two pins behind the active prefix both have
    the contraction index -1. *)
Lemma suffix_not_strictly_decreasing :
  List.NoDup (absorbed [])
  /\ ~ strictly_decreasing (phase2 {| pool_size := 1 |} stale_hg [])
         (invalid_pins (example_merge 1 stale_hg [] []) 0).
Proof.
  split; [constructor|].
  assert (Hinv : invalid_pins (example_merge 1 stale_hg [] []) 0 = [0; 1]%nat)
    by (vm_compute; reflexivity).
  rewrite Hinv. unfold strictly_decreasing. intros H.
  apply StronglySorted_inv in H. destruct H as [_ H].
  apply Forall_inv in H. vm_compute in H. discriminate.
Qed.

(** ** A community without hypernodes *)

Section EmptyCommunity.
Variable hash_add : Z -> nat -> Z.
Variable kEdgeHashSeed : Z.
Variable id_bits : Z.

(** No hypernode of the hypergraph carries the label [community]. *)
Lemma collect_empty_community (hg : Hypergraph) (community : Z) :
  (forall hn, (hn < initialNumNodes hg)%nat -> communityID hg hn <> community) ->
  (collect_community hg community).2 = new_CommunitySubhypergraph hg community.
Proof.
  intros Hnone. unfold collect_community.
  assert (Hnodes : Forall (fun hn => (hn < initialNumNodes hg)%nat) (nodes hg)).
  { apply List.Forall_forall. intros hn Hin. unfold nodes in Hin.
    apply list_elem_of_In, list_elem_of_filter in Hin. destruct Hin as [_ Hin].
    apply list_elem_of_In, in_seq in Hin. unfold initialNumNodes. lia. }
  generalize (replicate (initialNumNodes hg + initialNumEdges hg) false).
  induction Hnodes as [|hn l Hhn _ IH]; intros visited; simpl; [reflexivity|].
  unfold visit_node at 2.
  destruct (Z.eqb_spec (communityID hg hn) community) as [Heq|_].
  - exfalso. exact (Hnone hn Hhn Heq).
  - apply IH.
Qed.

Lemma extract_empty_community (hg : Hypergraph) (community : Z) (order : bool) :
  (forall hn, (hn < initialNumNodes hg)%nat -> communityID hg hn <> community) ->
  extractCommunityInducedSectionHypergraph hash_add kEdgeHashSeed hg community order
  = new_CommunitySubhypergraph hg community.
Proof.
  intros Hnone. unfold extractCommunityInducedSectionHypergraph.
  pose proof (collect_empty_community hg community Hnone) as Hc.
  destruct (collect_community hg community) as [visited cs0]. simpl in Hc. subst cs0.
  destruct order; reflexivity.
Qed.

Lemma prephase_step_wrapped (hg : Hypergraph) (c : CommunitySubhypergraph) :
  counters_wrapped id_bits (prephase_step id_bits hg c).
Proof. unfold counters_wrapped, prephase_step, wrap. simpl. rewrite !Zmod_mod. auto. Qed.

Lemma prephase_step_empty (hg hg0 : Hypergraph) (community : Z) :
  counters_wrapped id_bits hg ->
  prephase_step id_bits hg (new_CommunitySubhypergraph hg0 community) = hg.
Proof.
  intros (Hn & He & Hp). unfold prephase_step. simpl.
  rewrite !Z.sub_0_r, !Z.add_0_r, Hn, He, Hp. destruct hg; reflexivity.
Qed.

Lemma prephase_fold_empty (hg0 : Hypergraph) (community : Z)
  (before after : list CommunitySubhypergraph) (hg : Hypergraph) :
  counters_wrapped id_bits hg ->
  fold_left (prephase_step id_bits)
    (before ++ new_CommunitySubhypergraph hg0 community :: after) hg
  = fold_left (prephase_step id_bits) (before ++ after) hg.
Proof.
  intros Hw. rewrite !fold_left_app. simpl. f_equal.
  apply prephase_step_empty.
  destruct before as [|c before] using rev_ind; [exact Hw|].
  rewrite fold_left_app. simpl. apply prephase_step_wrapped.
Qed.

Lemma write_back_empty (hg hg0 : Hypergraph) (community : Z) :
  write_back_community hg (new_CommunitySubhypergraph hg0 community) = hg.
Proof. reflexivity. Qed.

(** C7.  For a community without hypernodes the extraction returns the
    [CommunitySubhypergraph] as its constructor made it: the sub-hypergraph
    is the default-constructed, empty hypergraph, both mappings are empty
    and both boundary counters are zero.  The merge does for this community
    nothing: with or without it in the list of communities the result is
    the same. *)
Theorem empty_community_is_neutral (hg0 : Hypergraph) (community : Z) (order : bool) :
  (forall hn, (hn < initialNumNodes hg0)%nat -> communityID hg0 hn <> community) ->
  let cs := extractCommunityInducedSectionHypergraph hash_add kEdgeHashSeed
              hg0 community order in
  cs = new_CommunitySubhypergraph hg0 community
  /\ subhypergraph cs = empty_hypergraph
  /\ _hypernodes (subhypergraph cs) = []
  /\ _hyperedges (subhypergraph cs) = []
  /\ _incidence_array (subhypergraph cs) = []
  /\ forall pool hg before after history,
       0 <= _current_num_hyperedges hg < 2 ^ id_bits ->
       mergeCommunityInducedSectionHypergraphs hash_add kEdgeHashSeed id_bits
         pool hg (before ++ cs :: after) history
       = mergeCommunityInducedSectionHypergraphs hash_add kEdgeHashSeed id_bits
           pool hg (before ++ after) history.
Proof.
  intros Hnone cs.
  assert (Hcs : cs = new_CommunitySubhypergraph hg0 community)
    by (apply extract_empty_community; exact Hnone).
  rewrite Hcs. repeat (split; [reflexivity|]).
  intros pool hg before after history Hedges.
  unfold mergeCommunityInducedSectionHypergraphs.
  assert (Hpre : prephase id_bits hg (before ++ new_CommunitySubhypergraph hg0 community :: after)
                 = prephase id_bits hg (before ++ after)).
  { unfold prephase. apply prephase_fold_empty.
    unfold counters_wrapped, wrap. simpl.
    rewrite Zmod_0_l.
    rewrite (Z.mod_small _ _ Hedges). auto. }
  rewrite Hpre.
  assert (Hph1 : forall h,
    phase1 h (before ++ new_CommunitySubhypergraph hg0 community :: after)
    = phase1 h (before ++ after)).
  { intros h. unfold phase1. rewrite !fold_left_app. simpl.
    rewrite write_back_empty. reflexivity. }
  rewrite Hph1. reflexivity.
Qed.

End EmptyCommunity.


Lemma empty_community_is_neutral_witness :
  let cs := extractCommunityInducedSectionHypergraph example_hash_add example_seed
              scenario_hg 2 false in
  cs = new_CommunitySubhypergraph scenario_hg 2
  /\ subhypergraph cs = empty_hypergraph
  /\ _hypernodes (subhypergraph cs) = []
  /\ _hyperedges (subhypergraph cs) = []
  /\ _incidence_array (subhypergraph cs) = []
  /\ forall pool hg before after history,
       0 <= _current_num_hyperedges hg < 2 ^ 32 ->
       mergeCommunityInducedSectionHypergraphs example_hash_add example_seed 32
         pool hg (before ++ cs :: after) history
       = mergeCommunityInducedSectionHypergraphs example_hash_add example_seed 32
           pool hg (before ++ after) history.
Proof.
  apply (empty_community_is_neutral example_hash_add example_seed 32 scenario_hg 2 false).
  intros hn Hhn. unfold initialNumNodes in Hhn. simpl in Hhn.
  do 4 (destruct hn as [|hn]; [vm_compute; discriminate|]). lia.
Defined.

(** ** Phase 1: the weight of a hyperedge *)

(** The guard of the weight update reads the original hyperedge with the
    local index [he]: when that hyperedge is at least as heavy as the
    coarsened one, the original hyperedge [original_he] keeps its weight,
    whatever it is. *)
Lemma update_weight_guard (sub : Hypergraph) (he original_he : nat)
  (hes : list Hyperedge) :
  he_weight (_hyperedges sub !!! he) <= he_weight (hes !!! he) ->
  update_weight sub he original_he hes = hes.
Proof.
  intros H. unfold update_weight.
  destruct (Z.ltb_spec (he_weight (hes !!! he)) (he_weight (_hyperedges sub !!! he)));
    [lia|reflexivity].
Qed.

(** C1 fails on the code.  In [parallel_hg] the local hyperedge 0 of
    community 1 stands for the original hyperedge e1.  Its coarsened weight
    is 3, the weight of e1 is 1, and 1 < 3; yet the merge leaves the weight
    of e1 at 1, because the guard compares with the weight 5 of e0, the
    hyperedge whose original index is the local index 0. *)
Theorem weight_update_reads_wrong_edge :
  let community := parallel_coarsened in
  let merged := example_merge 1 parallel_hg parallel_communities parallel_history in
  original_he (subhypergraph_to_hypergraph_he community !!! 0%nat) = 1%nat
  /\ he_weight (_hyperedges (subhypergraph community) !!! 0%nat) = 3
  /\ he_weight (_hyperedges parallel_hg !!! 1%nat) = 1
  /\ he_weight (_hyperedges parallel_hg !!! 0%nat) = 5
  /\ he_weight (_hyperedges merged !!! 1%nat) = 1.
Proof. vm_compute. repeat split; reflexivity. Qed.

(** ** Extraction: the ranges of the communities *)

(** C2 fails on the code.  In [weighted_hg] the hyperedge e0 has two active
    pins, one of each community, but the ranges issued for e0 are [0, 2) for
    community 0 and [2, 3) for community 1: their union is [0, 3), not
    [0, 2).  The length of a range is the sum of the weights of the
    community's pins, and hypernode 0 has weight 2. *)
Theorem ranges_follow_node_weights :
  he_size (_hyperedges weighted_hg !!! 0%nat) = 2%nat
  /\ subhypergraph_to_hypergraph_he (example_extract weighted_hg 0)
     = [ {| original_he := 0; incidence_array_start := 0; incidence_array_end := 2 |} ]
  /\ subhypergraph_to_hypergraph_he (example_extract weighted_hg 1)
     = [ {| original_he := 0; incidence_array_start := 2; incidence_array_end := 3 |};
         {| original_he := 1; incidence_array_start := 0; incidence_array_end := 2 |} ].
Proof. vm_compute. repeat split; reflexivity. Qed.

(** ** Extraction followed by merge *)

(** C3 fails on the code.  Every community of [weighted_hg] is extracted,
    nothing is contracted, and the merge runs with an empty history.  The
    task of community 1 writes its pin of e0 to the position 2 of the range
    of e0, which is the first position of e1: afterwards e1 holds the pins
    2 and 3 instead of 1 and 3.  The outcome does not depend on the order
    in which the two tasks run. *)
Theorem round_trip_loses_pin :
  let c0 := example_extract weighted_hg 0 in
  let c1 := example_extract weighted_hg 1 in
  pins weighted_hg 1 = [1; 3]%nat
  /\ pins (example_merge 2 weighted_hg [c0; c1] []) 1 = [2; 3]%nat
  /\ pins (example_merge 2 weighted_hg [c1; c0] []) 1 = [2; 3]%nat
  /\ pins (example_merge 1 weighted_hg [c0; c1] []) 1 = [2; 3]%nat.
Proof. vm_compute. repeat split; reflexivity. Qed.

(** ** The file reader *)

Section Numerals.

Lemma digit_not_space (c : ascii) (k : Z) :
  io.digit_value c = Some k -> io.isspace c = false.
Proof.
  unfold io.digit_value, io.isspace. intros H.
  destruct (48 <=? Z.of_N (N_of_ascii c)) eqn:Hlo; [|discriminate].
  destruct (Z.of_N (N_of_ascii c) <=? 57) eqn:Hhi; [|discriminate].
  apply Z.leb_le in Hlo, Hhi.
  apply orb_false_intro.
  - apply N.eqb_neq. lia.
  - apply andb_false_intro2. apply N.leb_gt. lia.
Qed.

Lemma blank_space (c : ascii) : blank c = true -> io.isspace c = true.
Proof. unfold blank. intros H. apply andb_true_iff in H. tauto. Qed.

Lemma blank_not_digit (c : ascii) : blank c = true -> io.digit_value c = None.
Proof.
  intros H. apply blank_space in H.
  destruct (io.digit_value c) as [k|] eqn:Hd; [|reflexivity].
  apply digit_not_space in Hd. congruence.
Qed.

Lemma blank_not_newline (c : ascii) : blank c = true -> c <> io.newline.
Proof.
  unfold blank. intros H Heq. apply andb_true_iff in H. destruct H as [_ H].
  subst c. discriminate.
Qed.

(** The characters of a numeral are digits. *)
Lemma digits_of_uint_digits (d : Decimal.uint) :
  Forall (fun c => exists k, io.digit_value c = Some k) (digits_of_uint d).
Proof.
  induction d; simpl; constructor; try exact IHd; eexists; reflexivity.
Qed.

(** Reading the digits of a numeral accumulates its value. *)
Lemma read_digits_uint (d : Decimal.uint) :
  forall (rest : list ascii) (count acc : nat),
    match rest with c :: _ => io.digit_value c = None | [] => True end ->
    io.read_digits (digits_of_uint d ++ rest) count (Z.of_nat acc)
    = ((count + length (digits_of_uint d))%nat,
       Z.of_nat (Nat.of_uint_acc d acc), rest).
Proof.
  induction d; intros rest count acc Hrest;
    try (simpl digits_of_uint; cbn [app io.read_digits Nat.of_uint_acc];
         match goal with
         | |- context [io.digit_value ?c] =>
             let v := eval vm_compute in (io.digit_value c) in
             change (io.digit_value c) with v; cbv iota
         end;
         match goal with
         | |- io.read_digits _ _ ?z = (_, Z.of_nat (Nat.of_uint_acc _ ?a), _) =>
             replace z with (Z.of_nat a) by (rewrite Nat.tail_mul_spec; lia)
         end;
         rewrite IHd by exact Hrest; f_equal; f_equal; simpl; lia).
  simpl. destruct rest as [|c rest]; simpl.
  - rewrite Nat.add_0_r. reflexivity.
  - rewrite Hrest, Nat.add_0_r. reflexivity.
Qed.

Lemma to_uint_not_nil (n : nat) : Nat.to_uint n <> Decimal.Nil.
Proof.
  rewrite <- (DecimalNat.Unsigned.of_to n) at 1.
  rewrite DecimalNat.Unsigned.to_of. apply DecimalFacts.unorm_nonnil.
Qed.

(** A numeral has a first character, which is a digit. *)
Lemma decimal_first (n : nat) :
  exists c ds k, decimal n = c :: ds /\ io.digit_value c = Some k.
Proof.
  unfold decimal. pose proof (to_uint_not_nil n) as Hn.
  pose proof (digits_of_uint_digits (Nat.to_uint n)) as Hd.
  destruct (Nat.to_uint n); try congruence; simpl in *;
    inversion Hd as [|? ? [k Hk] _]; subst; eauto.
Qed.

Lemma read_digits_decimal (n : nat) (rest : list ascii) :
  match rest with c :: _ => io.digit_value c = None | [] => True end ->
  exists count,
    io.read_digits (decimal n ++ rest) 0 0 = (S count, Z.of_nat n, rest).
Proof.
  intros Hrest. unfold decimal.
  change 0 with (Z.of_nat 0) at 1.
  rewrite (read_digits_uint (Nat.to_uint n) rest 0 0 Hrest).
  change (Nat.of_uint_acc (Nat.to_uint n) 0) with (Nat.of_uint (Nat.to_uint n)).
  rewrite DecimalNat.Unsigned.of_to.
  destruct (decimal_first n) as (c & ds & k & Hc & _). unfold decimal in Hc.
  rewrite Hc. simpl. eauto.
Qed.

Lemma skipws_blank (sep rest : list ascii) :
  forallb blank sep = true ->
  match rest with c :: _ => io.isspace c = false | [] => True end ->
  io.skipws (sep ++ rest) = rest.
Proof.
  induction sep as [|c sep IH]; intros Hsep Hrest; simpl.
  - destruct rest as [|c rest]; [reflexivity|]. simpl. rewrite Hrest. reflexivity.
  - simpl in Hsep. apply andb_true_iff in Hsep. destruct Hsep as [Hc Hsep].
    rewrite (blank_space c Hc). apply IH; assumption.
Qed.

(** [stream >> value] on a stream that holds white space, a numeral that
    fits the type, and something that does not continue the numeral. *)
Lemma extract_number (ty : io.num_type) (sep rest : list ascii) (n : nat) (old : Z) :
  forallb blank sep = true ->
  match rest with c :: _ => io.digit_value c = None | [] => True end ->
  Z.of_nat n <= io.max_value ty ->
  io.extract ty {| io.buf := sep ++ decimal n ++ rest;
                   io.eofbit := false; io.failbit := false |} old
  = ({| io.buf := rest; io.eofbit := io.at_end rest; io.failbit := false |},
     Z.of_nat n).
Proof.
  intros Hsep Hrest Hfit. unfold io.extract. simpl io.good. cbv iota.
  destruct (decimal_first n) as (c & ds & k & Hc & Hk).
  simpl io.buf. rewrite skipws_blank; [|exact Hsep|].
  2:{ rewrite Hc. simpl. eapply digit_not_space. exact Hk. }
  destruct (read_digits_decimal n rest Hrest) as [count Hread].
  rewrite Hc in *. cbn [app].
  assert (Hminus : Ascii.eqb c "-" = false).
  { destruct (Ascii.eqb_spec c "-"%char) as [->|]; [discriminate|reflexivity]. }
  assert (Hplus : Ascii.eqb c "+" = false).
  { destruct (Ascii.eqb_spec c "+"%char) as [->|]; [discriminate|reflexivity]. }
  rewrite Hminus, Hplus. simpl orb. cbv iota.
  cbn [app] in Hread. rewrite Hread.
  destruct (Z.ltb_spec (io.max_value ty) (Z.of_nat n)); [lia|reflexivity].
Qed.

End Numerals.

Section Lines.
Variable id_bits : Z.
Variable weight_type : io.num_type.

Lemma until_newline_line (a b : list ascii) :
  ~ In io.newline a -> io.until_newline (a ++ io.newline :: b) = (a, Some b).
Proof.
  induction a as [|c a IH]; intros Hnot; simpl.
  - reflexivity.
  - destruct (Ascii.eqb_spec c io.newline) as [->|Hc].
    + exfalso. apply Hnot. left. reflexivity.
    + rewrite IH; [reflexivity|]. intros Hin. apply Hnot. right. exact Hin.
Qed.

(** [getline] on a good stream that holds a complete line. *)
Lemma getline_line (a b old : list ascii) :
  ~ In io.newline a ->
  io.getline (io.open_stream (a ++ io.newline :: b)) old = (io.open_stream b, a).
Proof.
  intros Hnot. unfold io.getline, io.open_stream. simpl.
  rewrite until_newline_line by exact Hnot. reflexivity.
Qed.

Lemma blanks_no_newline (s : list ascii) :
  forallb blank s = true -> ~ In io.newline s.
Proof.
  intros Hs Hin. rewrite forallb_forall in Hs.
  apply (blank_not_newline _ (Hs _ Hin)). reflexivity.
Qed.

Lemma decimal_no_newline (n : nat) : ~ In io.newline (decimal n).
Proof.
  unfold decimal. intros Hin.
  pose proof (digits_of_uint_digits (Nat.to_uint n)) as Hd.
  rewrite List.Forall_forall in Hd. destruct (Hd _ Hin) as [k Hk]. discriminate.
Qed.

Lemma tokens_no_newline (ts : list (list ascii * nat)) :
  Forall (fun t => forallb blank t.1 = true) ts ->
  ~ In io.newline (render_tokens ts).
Proof.
  induction 1 as [|t ts Ht _ IH]; simpl; [tauto|].
  intros Hin. apply in_app_or in Hin. destruct Hin as [Hin|Hin]; [|tauto].
  apply in_app_or in Hin. destruct Hin as [Hin|Hin].
  - exact (blanks_no_newline _ Ht Hin).
  - exact (decimal_no_newline _ Hin).
Qed.

Lemma separated_blank (ts : list (list ascii * nat)) :
  separated ts -> Forall (fun t => forallb blank t.1 = true) ts.
Proof.
  unfold separated. intros H. eapply Forall_impl; [exact H|]. simpl. tauto.
Qed.

Lemma line_ok_blank (l : Line) :
  line_ok l -> Forall (fun t => forallb blank t.1 = true) (tokens l).
Proof.
  intros [_ H]. destruct (tokens l) as [|t ts]; [constructor|].
  destruct H as [Ht Hts]. constructor; [exact Ht|apply separated_blank; exact Hts].
Qed.

Lemma line_text_no_newline (l : Line) : line_ok l -> ~ In io.newline (line_text l).
Proof.
  intros Hok Hin. unfold line_text in Hin. apply in_app_or in Hin.
  destruct Hin as [Hin|Hin].
  - exact (tokens_no_newline _ (line_ok_blank l Hok) Hin).
  - destruct Hok as [Htr _]. exact (blanks_no_newline _ Htr Hin).
Qed.

(** What follows a number on a line does not continue the number. *)
Lemma after_number (ts : list (list ascii * nat)) (trail : list ascii) :
  separated ts -> forallb blank trail = true ->
  match render_tokens ts ++ trail with
  | c :: _ => io.digit_value c = None
  | [] => True
  end.
Proof.
  intros Hts Htr. destruct ts as [|t ts]; simpl.
  - destruct trail as [|c trail]; [exact I|]. simpl in Htr.
    apply andb_true_iff in Htr. apply blank_not_digit. tauto.
  - inversion Hts as [|? ? [Hblank Hne] _]; subst.
    destruct (t.1) as [|c sep]; [congruence|]. simpl.
    simpl in Hblank. apply andb_true_iff in Hblank. apply blank_not_digit. tauto.
Qed.

Lemma at_end_separated (ts : list (list ascii * nat)) (trail : list ascii) :
  separated ts -> io.at_end (render_tokens ts ++ trail) = true -> ts = [].
Proof.
  intros Hts Hend. destruct ts as [|t ts]; [reflexivity|].
  inversion Hts as [|? ? [_ Hne] _]; subst. simpl in Hend.
  destruct (t.1); [congruence|discriminate].
Qed.

(** The loop [while (line_stream >> pin)] reads the numbers that are left
    on the line and stores each of them, decremented by one. *)
Lemma read_pins_numbers (ts : list (list ascii * nat)) :
  forall (trail : list ascii) (fuel : nat) (eof : bool) (pin : Z) (ev : list Z),
    match ts with
    | [] => True
    | t :: ts' => forallb blank t.1 = true /\ separated ts' /\ eof = false
    end ->
    forallb blank trail = true ->
    Forall (fun t => (1 <= t.2)%nat /\ is_id id_bits t.2) ts ->
    (length ts <= fuel)%nat ->
    io.read_pins id_bits fuel
      {| io.buf := render_tokens ts ++ trail; io.eofbit := eof; io.failbit := false |}
      pin ev
    = ev ++ map (fun t => Z.of_nat t.2 - 1) ts.
Proof.
  induction ts as [|t ts IH]; intros trail fuel eof pin ev Hshape Htr Hpins Hfuel.
  - simpl. rewrite app_nil_r.
    assert (Hfail : io.stream_ok
              (io.extract (io.id_type id_bits)
                 {| io.buf := trail; io.eofbit := eof; io.failbit := false |} pin).1
            = false).
    { unfold io.extract, io.good. simpl. destruct eof; simpl; [reflexivity|].
      replace trail with (trail ++ []) by apply app_nil_r.
      rewrite skipws_blank by (exact Htr || exact I). reflexivity. }
    destruct fuel; simpl; rewrite Hfail; reflexivity.
  - destruct Hshape as (Hblank & Hsep & ->).
    inversion Hpins as [|? ? [Hpos Hid] Hpins']; subst.
    destruct fuel as [|fuel]; [simpl in Hfuel; lia|].
    cbn [io.read_pins]. simpl render_tokens. rewrite <- !app_assoc.
    rewrite extract_number;
      [|exact Hblank|apply after_number; assumption|exact Hid].
    simpl io.stream_ok. cbv iota. simpl fst. simpl snd.
    assert (Hwrap : wrap id_bits (Z.of_nat t.2 - 1) = Z.of_nat t.2 - 1).
    { unfold wrap. apply Z.mod_small. unfold is_id, io.max_value in Hid.
      simpl in Hid. lia. }
    rewrite Hwrap.
    rewrite IH.
    + rewrite <- app_assoc. reflexivity.
    + destruct ts as [|t' ts']; [exact I|].
      inversion Hsep as [|? ? [Hb' _] Hsep']; subst.
      split; [exact Hb'|]. split; [exact Hsep'|].
      destruct (io.at_end (render_tokens (t' :: ts') ++ trail)) eqn:Hend;
        [|reflexivity].
      apply at_end_separated in Hend; [discriminate|exact Hsep].
    + exact Htr.
    + exact Hpins'.
    + simpl in Hfuel. lia.
Qed.

Lemma tokens_length (ts : list (list ascii * nat)) :
  (length ts <= length (render_tokens ts))%nat.
Proof.
  induction ts as [|t ts IH]; simpl; [lia|].
  rewrite !length_app. destruct (decimal_first t.2) as (c & ds & k & Hc & _).
  rewrite Hc. simpl. lia.
Qed.

(** One turn of the loop over the hyperedges, on a stream that holds a
    well-formed hyperedge line. *)
Lemma read_hyperedge_line (f : HgrFile) (l : Line) (rest : list ascii)
  (st : io.ReaderState) :
  io.file st = io.open_stream (render_line l ++ rest) ->
  line_ok l ->
  (has_hyperedge_weights f = true ->
   numbers l <> [] /\ is_weight weight_type (weight_of f l)) ->
  Forall (fun p => (1 <= p)%nat /\ is_id id_bits p) (pins_of f l) ->
  let ev := io.edge_vector st ++ map (fun p => Z.of_nat p - 1) (pins_of f l) in
  io.read_hyperedge id_bits weight_type (has_hyperedge_weights f) st
  = {| io.file := io.open_stream rest;
       io.line := line_text l;
       io.index_vector := io.index_vector st ++ [Z.of_nat (length ev)];
       io.edge_vector := ev;
       io.hyperedge_weights :=
         if has_hyperedge_weights f
         then io.hyperedge_weights st ++ [Z.of_nat (weight_of f l)]
         else io.hyperedge_weights st;
       io.hypernode_weights := io.hypernode_weights st |}.
Proof.
  intros Hfile Hok Hweight Hpins ev.
  unfold io.read_hyperedge. rewrite Hfile.
  unfold render_line. rewrite <- app_assoc. simpl app.
  rewrite getline_line by (apply line_text_no_newline; exact Hok).
  simpl fst. simpl snd.
  unfold pins_of, weight_of in *. subst ev.
  destruct Hok as [Htrail Hshape].
  destruct (has_hyperedge_weights f) eqn:Hhw.
  - destruct (Hweight eq_refl) as [Hne Hw]. unfold numbers in *.
    destruct (tokens l) as [|t ts] eqn:Htok; [simpl in Hne; congruence|].
    destruct Hshape as [Hblank Hsep]. simpl in Hw, Hpins.
    unfold line_text, io.open_stream. rewrite Htok. simpl render_tokens.
    rewrite <- !app_assoc.
    rewrite extract_number;
      [|exact Hblank|apply after_number; assumption|exact Hw].
    simpl fst. simpl snd.
    rewrite (read_pins_numbers ts).
    + simpl. rewrite !map_map. reflexivity.
    + destruct ts as [|t' ts']; [exact I|].
      inversion Hsep as [|? ? [Hb' _] Hsep']; subst.
      split; [exact Hb'|]. split; [exact Hsep'|].
      destruct (io.at_end (render_tokens (t' :: ts') ++ trailing l)) eqn:Hend;
        [|reflexivity].
      apply at_end_separated in Hend; [discriminate|exact Hsep].
    + exact Htrail.
    + apply Forall_map in Hpins. exact Hpins.
    + rewrite !length_app. simpl.
      pose proof (tokens_length ts). lia.
  - unfold line_text, io.open_stream. cbn [fst snd].
    rewrite (read_pins_numbers (tokens l)).
    + unfold numbers. rewrite !map_map. reflexivity.
    + destruct (tokens l) as [|t ts]; [exact I|]. tauto.
    + exact Htrail.
    + unfold numbers in Hpins. apply Forall_map in Hpins. exact Hpins.
    + rewrite length_app. pose proof (tokens_length (tokens l)). lia.
Qed.

End Lines.

Section Loops.
Variable id_bits : Z.
Variable weight_type : io.num_type.

(** The loop over the hyperedges, on a stream that holds the hyperedge
    lines of a well-formed file. *)
Lemma read_hyperedges_lines (f : HgrFile) (lines : list Line) :
  forall (rest : list ascii) (st : io.ReaderState),
    io.file st = io.open_stream (flat_map render_line lines ++ rest) ->
    Forall (fun l => line_ok l
                     /\ (has_hyperedge_weights f = true ->
                         numbers l <> [] /\ is_weight weight_type (weight_of f l))
                     /\ Forall (fun p => (1 <= p)%nat /\ is_id id_bits p) (pins_of f l))
           lines ->
    let st' := Nat.iter (length lines)
                 (io.read_hyperedge id_bits weight_type (has_hyperedge_weights f)) st in
    io.file st' = io.open_stream rest
    /\ io.edge_vector st'
       = io.edge_vector st
         ++ flat_map (fun l => map (fun p => Z.of_nat p - 1) (pins_of f l)) lines
    /\ io.index_vector st'
       = io.index_vector st
         ++ tl (offsets (length (io.edge_vector st))
                  (map (fun l => length (pins_of f l)) lines))
    /\ io.hyperedge_weights st'
       = io.hyperedge_weights st
         ++ (if has_hyperedge_weights f
             then map (fun l => Z.of_nat (weight_of f l)) lines else [])
    /\ io.hypernode_weights st' = io.hypernode_weights st.
Proof.
  induction lines as [|l lines IH]; intros rest st Hfile Hlines.
  - simpl. rewrite !app_nil_r. destruct (has_hyperedge_weights f);
      rewrite ?app_nil_r; auto.
  - inversion Hlines as [|? ? (Hok & Hw & Hp) Hlines']; subst.
    cbn [length]. rewrite Nat.iter_succ_r.
    simpl flat_map in Hfile. rewrite <- app_assoc in Hfile.
    pose proof (read_hyperedge_line id_bits weight_type f l _ st Hfile Hok Hw Hp) as Hstep.
    cbv zeta in Hstep. rewrite Hstep. clear Hstep.
    match goal with
    | |- context [Nat.iter _ _ ?s] => set (st1 := s)
    end.
    destruct (IH rest st1) as (Hf & He & Hi & Hhw & Hnw); [reflexivity|exact Hlines'|].
    cbv zeta. rewrite Hf, He, Hi, Hhw, Hnw. subst st1. cbn [io.edge_vector
      io.index_vector io.hyperedge_weights io.hypernode_weights].
    split; [reflexivity|]. split; [simpl; rewrite <- app_assoc; reflexivity|].
    split.
    + simpl map. cbn [offsets tl]. rewrite <- app_assoc. f_equal.
      rewrite length_app, length_map.
      destruct (map (fun l0 => length (pins_of f l0)) lines); reflexivity.
    + split; [|reflexivity].
      destruct (has_hyperedge_weights f); [|reflexivity].
      rewrite <- app_assoc. reflexivity.
Qed.

(** One turn of the loop over the hypernode weights. *)
Lemma read_hypernode_weight_line (l : Line) (rest : list ascii) (st : io.ReaderState) :
  io.file st = io.open_stream (render_line l ++ rest) ->
  line_ok l -> numbers l <> [] -> is_weight weight_type (hd 0%nat (numbers l)) ->
  io.read_hypernode_weight weight_type st
  = {| io.file := io.open_stream rest;
       io.line := line_text l;
       io.index_vector := io.index_vector st;
       io.edge_vector := io.edge_vector st;
       io.hyperedge_weights := io.hyperedge_weights st;
       io.hypernode_weights :=
         io.hypernode_weights st ++ [Z.of_nat (hd 0%nat (numbers l))] |}.
Proof.
  intros Hfile Hok Hne Hw. unfold io.read_hypernode_weight. rewrite Hfile.
  unfold render_line. rewrite <- app_assoc. simpl app.
  rewrite getline_line by (apply line_text_no_newline; exact Hok).
  simpl fst. simpl snd. destruct Hok as [Htrail Hshape].
  unfold numbers in *. destruct (tokens l) as [|t ts] eqn:Htok; [simpl in Hne; congruence|].
  destruct Hshape as [Hblank Hsep]. simpl in Hw.
  unfold line_text, io.open_stream. rewrite Htok. simpl render_tokens.
  rewrite <- !app_assoc.
  rewrite extract_number;
    [|exact Hblank|apply after_number; assumption|exact Hw].
  reflexivity.
Qed.

Lemma read_hypernode_weights_lines (lines : list Line) :
  forall (rest : list ascii) (st : io.ReaderState),
    io.file st = io.open_stream (flat_map render_line lines ++ rest) ->
    Forall (fun l => line_ok l /\ numbers l <> []
                     /\ is_weight weight_type (hd 0%nat (numbers l))) lines ->
    let st' := Nat.iter (length lines) (io.read_hypernode_weight weight_type) st in
    io.file st' = io.open_stream rest
    /\ io.edge_vector st' = io.edge_vector st
    /\ io.index_vector st' = io.index_vector st
    /\ io.hyperedge_weights st' = io.hyperedge_weights st
    /\ io.hypernode_weights st'
       = io.hypernode_weights st ++ map (fun l => Z.of_nat (hd 0%nat (numbers l))) lines.
Proof.
  induction lines as [|l lines IH]; intros rest st Hfile Hlines.
  - simpl. rewrite app_nil_r. auto.
  - inversion Hlines as [|? ? (Hok & Hne & Hw) Hlines']; subst.
    cbn [length]. rewrite Nat.iter_succ_r.
    simpl flat_map in Hfile. rewrite <- app_assoc in Hfile.
    rewrite (read_hypernode_weight_line l _ st Hfile Hok Hne Hw).
    match goal with
    | |- context [Nat.iter _ _ ?s] => set (st1 := s)
    end.
    destruct (IH rest st1) as (Hf & He & Hi & Hhw & Hnw); [reflexivity|exact Hlines'|].
    cbv zeta. rewrite Hf, He, Hi, Hhw, Hnw. subst st1. simpl.
    rewrite <- app_assoc. auto.
Qed.

End Loops.

Section Header.
Variable id_bits : Z.
Variable weight_type : io.num_type.

Lemma comment_lines_length (cs : list (list ascii)) (rest : list ascii) :
  (length cs <= length (flat_map (fun c => c ++ [io.newline]) cs ++ rest))%nat.
Proof.
  induction cs as [|c cs IH]; simpl; [lia|].
  rewrite <- !app_assoc, !length_app in *. simpl. lia.
Qed.

(** The loop of [parseHGRHeader] reads on until a line does not begin with
    '%'. *)
Lemma skip_comments_lines (cs : list (list ascii)) :
  forall (c h rest : list ascii) (fuel : nat),
    Forall comment_ok (c :: cs) ->
    io.is_comment h = false -> ~ In io.newline h ->
    (length cs < fuel)%nat ->
    io.skip_comments fuel
      (io.open_stream (flat_map (fun c => c ++ [io.newline]) cs ++ h ++ io.newline :: rest))
      c
    = Some (io.open_stream rest, h).
Proof.
  induction cs as [|c' cs IH]; intros c h rest fuel Hcs Hh Hnl Hfuel;
    inversion Hcs as [|? ? [Hc _] Hcs']; subst;
    (destruct fuel as [|fuel]; [lia|]); cbn [io.skip_comments]; rewrite Hc;
    simpl io.good; cbv iota.
  - simpl flat_map. simpl app. rewrite getline_line by exact Hnl.
    simpl. destruct fuel; simpl; rewrite Hh; reflexivity.
  - simpl flat_map. rewrite <- !app_assoc. simpl app.
    inversion Hcs' as [|? ? [_ Hnl'] _]; subst.
    rewrite getline_line by exact Hnl'. simpl fst. simpl snd.
    apply IH; [exact Hcs'|exact Hh|exact Hnl|simpl in Hfuel; lia].
Qed.

(** [parseHGRHeader] skips the leading comment lines and reads the header
    from the first line that does not begin with '%'; the stream is left
    behind that line. *)
Lemma parseHGRHeader_comments (cs : list (list ascii)) (h rest : list ascii)
  (m0 n0 t0 : Z) :
  Forall comment_ok cs ->
  io.is_comment h = false -> ~ In io.newline h ->
  io.parseHGRHeader id_bits
    (io.open_stream (flat_map (fun c => c ++ [io.newline]) cs ++ h ++ io.newline :: rest))
    m0 n0 t0
  = Some (io.open_stream rest, io.read_header id_bits h m0 n0 t0).
Proof.
  intros Hcs Hh Hnl. unfold io.parseHGRHeader. simpl io.stream_ok. cbv iota.
  destruct cs as [|c cs].
  - simpl flat_map. simpl app. rewrite getline_line by exact Hnl.
    simpl fst. simpl snd. cbn [io.skip_comments]. rewrite Hh. reflexivity.
  - simpl flat_map. rewrite <- !app_assoc. simpl app.
    inversion Hcs as [|? ? [_ Hnl'] _]; subst.
    rewrite getline_line by exact Hnl'. simpl fst. simpl snd.
    rewrite skip_comments_lines; [reflexivity|exact Hcs|exact Hh|exact Hnl|].
    simpl io.buf. pose proof (comment_lines_length cs (h ++ io.newline :: rest)). lia.
Qed.

(** A line of numbers does not begin with '%'. *)
Lemma line_not_comment (l : Line) : line_ok l -> io.is_comment (line_text l) = false.
Proof.
  intros [Htrail Hshape]. unfold line_text.
  assert (Hb : forall c, blank c = true -> Ascii.eqb c "%" = false).
  { intros c Hc. destruct (Ascii.eqb_spec c "%"%char) as [->|]; [discriminate|reflexivity]. }
  destruct (tokens l) as [|t ts]; simpl.
  - destruct (trailing l) as [|c tr]; [reflexivity|]. simpl in *.
    apply andb_true_iff in Htrail. apply Hb. tauto.
  - destruct Hshape as [Hblank _]. destruct (t.1) as [|c sep]; simpl.
    + destruct (decimal_first t.2) as (c & ds & k & Hc & Hk). rewrite Hc. simpl.
      destruct (Ascii.eqb_spec c "%"%char) as [->|]; [discriminate|reflexivity].
    + simpl in Hblank. apply andb_true_iff in Hblank. apply Hb. tauto.
Qed.

Lemma render_tokens_cons (t : list ascii * nat) (ts : list (list ascii * nat))
  (trail : list ascii) :
  render_tokens (t :: ts) ++ trail = t.1 ++ decimal t.2 ++ render_tokens ts ++ trail.
Proof. simpl. rewrite <- !app_assoc. reflexivity. Qed.

Lemma at_end_token (t : list ascii * nat) (ts : list (list ascii * nat))
  (trail : list ascii) :
  t.1 <> [] -> io.at_end (render_tokens (t :: ts) ++ trail) = false.
Proof. intros Hne. simpl. destruct (t.1); [congruence|reflexivity]. Qed.

(** The three extractions of line 23 on a header line. *)
Lemma read_header_numbers (h : Line) (m n : nat) (m0 n0 t0 : Z) :
  line_ok h -> is_id id_bits m -> is_id id_bits n ->
  (numbers h = [m; n] ->
   io.read_header id_bits (line_text h) m0 n0 t0 = (Z.of_nat m, Z.of_nat n, t0))
  /\ (forall t, numbers h = [m; n; t] -> Z.of_nat t <= io.max_value io.int_type ->
      io.read_header id_bits (line_text h) m0 n0 t0
      = (Z.of_nat m, Z.of_nat n, Z.of_nat t)).
Proof.
  intros [Htrail Hshape] Hm Hn. unfold numbers, io.read_header, line_text.
  split.
  - intros Hnum.
    destruct (tokens h) as [|t1 [|t2 [|t3 ts]]]; simpl in Hnum; try congruence.
    injection Hnum as <- <-. destruct Hshape as [Hb1 Hsep].
    inversion Hsep as [|? ? [Hb2 Hne2] _]; subst.
    unfold io.open_stream. rewrite render_tokens_cons.
    rewrite extract_number;
      [|exact Hb1|apply after_number; assumption|exact Hm].
    cbn [fst snd].
    rewrite at_end_token by exact Hne2. rewrite render_tokens_cons.
    rewrite extract_number;
      [|exact Hb2|apply (after_number []); [constructor|exact Htrail]|exact Hn].
    cbn [fst snd]. f_equal.
    unfold io.extract, io.good. rewrite app_nil_l. simpl.
    destruct (io.at_end (trailing h)); simpl; [reflexivity|].
    replace (trailing h) with (trailing h ++ []) by apply app_nil_r.
    rewrite skipws_blank by (exact Htrail || exact I). reflexivity.
  - intros t Hnum Ht.
    destruct (tokens h) as [|t1 [|t2 [|t3 [|t4 ts]]]]; simpl in Hnum; try congruence.
    injection Hnum as <- <- <-. destruct Hshape as [Hb1 Hsep].
    inversion Hsep as [|? ? [Hb2 Hne2] Hsep']; subst.
    inversion Hsep' as [|? ? [Hb3 Hne3] _]; subst.
    unfold io.open_stream. rewrite render_tokens_cons.
    rewrite extract_number;
      [|exact Hb1|apply after_number; assumption|exact Hm].
    cbn [fst snd].
    rewrite at_end_token by exact Hne2. rewrite render_tokens_cons.
    rewrite extract_number;
      [|exact Hb2|apply after_number; assumption|exact Hn].
    cbn [fst snd].
    rewrite at_end_token by exact Hne3. rewrite render_tokens_cons.
    rewrite extract_number;
      [|exact Hb3|apply (after_number []); [constructor|exact Htrail]|exact Ht].
    reflexivity.
Qed.

End Header.

Section Reader.
Variable id_bits : Z.
Variable weight_type : io.num_type.

Lemma offsets_head (start : nat) (sizes : list nat) :
  offsets start sizes !! 0%nat = Some (Z.of_nat start).
Proof. destruct sizes; reflexivity. Qed.

Lemma offsets_length (start : nat) (sizes : list nat) :
  length (offsets start sizes) = S (length sizes).
Proof.
  revert start. induction sizes as [|s sizes IH]; intros start; simpl; [reflexivity|].
  rewrite IH. reflexivity.
Qed.

Lemma offsets_tail (start : nat) (sizes : list nat) :
  Z.of_nat start :: tl (offsets start sizes) = offsets start sizes.
Proof. destruct sizes; reflexivity. Qed.

(** Consecutive entries of the index vector delimit the pins of a
    hyperedge. *)
Lemma offsets_segments (g : Line -> list Z) (lines : list Line) :
  forall (pre : list Z) (i : nat) (l : Line),
    lines !! i = Some l ->
    exists a b : nat,
      offsets (length pre) (map (fun l => length (g l)) lines) !! i = Some (Z.of_nat a)
      /\ offsets (length pre) (map (fun l => length (g l)) lines) !! S i
         = Some (Z.of_nat b)
      /\ take (b - a) (drop a (pre ++ flat_map g lines)) = g l.
Proof.
  induction lines as [|l0 lines IH]; intros pre i l Hl; [discriminate|].
  destruct i as [|i]; simpl in Hl.
  - injection Hl as <-. exists (length pre), (length pre + length (g l0))%nat.
    simpl. rewrite offsets_head. repeat split.
    rewrite drop_app_length.
    replace (length pre + length (g l0) - length pre)%nat with (length (g l0)) by lia.
    apply take_app_length.
  - destruct (IH (pre ++ g l0) i l Hl) as (a & b & Ha & Hb & Hseg).
    exists a, b. simpl. rewrite length_app in Ha, Hb.
    rewrite <- app_assoc in Hseg. auto.
Qed.

Lemma format_flags (f : HgrFile) :
  ((Z.of_nat (format_of f) =? 1) || (Z.of_nat (format_of f) =? 11)
   = has_hyperedge_weights f)
  /\ ((Z.of_nat (format_of f) =? 10) || (Z.of_nat (format_of f) =? 11)
      = has_hypernode_weights f).
Proof.
  unfold has_hyperedge_weights, has_hypernode_weights.
  generalize (format_of f). intros t.
  split; f_equal;
    match goal with
    | |- (Z.of_nat ?t =? ?k) = (?t =? ?n)%nat =>
        destruct (Z.eqb_spec (Z.of_nat t) k); destruct (Nat.eqb_spec t n);
        try reflexivity; lia
    end.
Qed.

(** C9.  On a well-formed file [parseHypergraphFile] returns the numbers of
    hypernodes and hyperedges of the header, stores every pin decremented
    by one, reads a weight in front of the pins of a hyperedge exactly when
    the format is 1 or 11 and the weights of the hypernodes exactly when it
    is 10 or 11, and leaves an index vector of [num_hyperedges + 1] entries
    of which two consecutive ones delimit the pins of a hyperedge in the
    edge vector. *)
Theorem parseHypergraphFile_well_formed (f : HgrFile) (n0 m0 : Z) :
  hgr_ok id_bits weight_type f ->
  exists p,
    io.parseHypergraphFile id_bits weight_type (io.open_stream (render_file f))
      n0 m0 [] [] [] [] = Some p
    /\ io.num_hyperedges p = Z.of_nat (hgr_num_hyperedges f)
    /\ io.num_hypernodes p = Z.of_nat (hgr_num_hypernodes f)
    /\ io.edge_vector (io.final p) = expected_edge_vector f
    /\ io.index_vector (io.final p) = expected_index_vector f
    /\ io.hyperedge_weights (io.final p) = expected_hyperedge_weights f
    /\ io.hypernode_weights (io.final p) = expected_hypernode_weights f
    /\ length (io.index_vector (io.final p)) = S (hgr_num_hyperedges f)
    /\ forall i l, hyperedge_lines f !! i = Some l ->
         exists a b : nat,
           io.index_vector (io.final p) !! i = Some (Z.of_nat a)
           /\ io.index_vector (io.final p) !! S i = Some (Z.of_nat b)
           /\ take (b - a) (drop a (io.edge_vector (io.final p)))
              = map (fun pin => Z.of_nat pin - 1) (pins_of f l).
Proof.
  intros [Hcs Hhl (m & n & Hnum & Hm & Him & Hin & Hnw) Hel Hwl].
  assert (Hhead : io.read_header id_bits (line_text (header f)) m0 n0 0
                  = (Z.of_nat m, Z.of_nat n, Z.of_nat (format_of f))
                  /\ hgr_num_hypernodes f = n).
  { destruct (read_header_numbers id_bits (header f) m n m0 n0 0 Hhl Him Hin)
      as [H2 H3].
    unfold format_of, hgr_num_hypernodes.
    destruct Hnum as [Hnum|(t & Hnum & Ht)].
    - rewrite (H2 Hnum), Hnum. auto.
    - rewrite (H3 t Hnum) by (unfold io.max_value; simpl; lia). rewrite Hnum. auto. }
  destruct Hhead as [Hhead Hn].
  unfold io.parseHypergraphFile, render_file.
  unfold render_line at 1. rewrite <- !app_assoc. simpl app.
  rewrite parseHGRHeader_comments;
    [|exact Hcs|apply line_not_comment; exact Hhl|apply line_text_no_newline; exact Hhl].
  rewrite Hhead.
  destruct (format_flags f) as [Fe Fn]. rewrite Fe, Fn.
  unfold io.repeat_loop. rewrite !Nat2Z.id. rewrite Hm.
  set (st0 := {| io.file := _; io.line := []; io.index_vector := _;
                 io.edge_vector := []; io.hyperedge_weights := [];
                 io.hypernode_weights := [] |}).
  destruct (read_hyperedges_lines id_bits weight_type f (hyperedge_lines f)
              (flat_map render_line (weight_lines f)) st0 eq_refl Hel)
    as (Hf1 & He1 & Hi1 & Hw1 & Hn1).
  set (st1 := Nat.iter (length (hyperedge_lines f)) _ st0) in *.
  assert (Hidx : io.index_vector st1 = expected_index_vector f).
  { rewrite Hi1. subst st0. simpl. apply offsets_tail. }
  assert (Hev : io.edge_vector st1 = expected_edge_vector f) by exact He1.
  assert (Hhw : io.hyperedge_weights st1 = expected_hyperedge_weights f) by exact Hw1.
  assert (Hfinal : exists st2,
    (if has_hypernode_weights f
     then Nat.iter n (io.read_hypernode_weight weight_type) st1
     else st1) = st2
    /\ io.edge_vector st2 = expected_edge_vector f
    /\ io.index_vector st2 = expected_index_vector f
    /\ io.hyperedge_weights st2 = expected_hyperedge_weights f
    /\ io.hypernode_weights st2 = expected_hypernode_weights f).
  { unfold expected_hypernode_weights.
    destruct (has_hypernode_weights f) eqn:Hflag.
    - rewrite (Hnw eq_refl).
      destruct (read_hypernode_weights_lines weight_type (weight_lines f) [] st1)
        as (_ & He2 & Hi2 & Hw2 & Hn2).
      + rewrite app_nil_r. exact Hf1.
      + apply Hwl. reflexivity.
      + eexists. split; [reflexivity|].
        rewrite He2, Hi2, Hw2, Hn2, Hn1. subst st0. simpl. auto.
    - exists st1. rewrite Hn1. subst st0. simpl. auto. }
  destruct Hfinal as (st2 & Hst2 & He2 & Hi2 & Hw2 & Hn2).
  eexists. split; [reflexivity|]. cbn [io.num_hyperedges io.num_hypernodes io.final].
  rewrite Hst2, He2, Hi2, Hw2, Hn2, Hn.
  repeat (split; [reflexivity|]).
  split.
  - unfold expected_index_vector. rewrite offsets_length, length_map. reflexivity.
  - intros i l Hl.
    destruct (offsets_segments (fun l => map (fun pin => Z.of_nat pin - 1) (pins_of f l))
                (hyperedge_lines f) [] i l Hl) as (a & b & Ha & Hb & Hseg).
    exists a, b. unfold expected_index_vector, expected_edge_vector.
    simpl in Ha, Hb, Hseg.
    assert (Hsizes : map (fun l0 => length (map (fun pin => Z.of_nat pin - 1) (pins_of f l0)))
                       (hyperedge_lines f)
                     = map (fun l0 => length (pins_of f l0)) (hyperedge_lines f)).
    { apply map_ext. intros l0. apply length_map. }
    rewrite Hsizes in Ha, Hb. auto.
Qed.

End Reader.

Section Comments.
Variable id_bits : Z.
Variable weight_type : io.num_type.

(** An extraction that meets '%' finds no digit: the value becomes 0 and
    the stream fails. *)
Lemma extract_comment (ty : io.num_type) (c : list ascii) (old : Z) :
  io.is_comment c = true ->
  exists s, io.extract ty (io.open_stream c) old = (s, 0) /\ io.stream_ok s = false.
Proof.
  intros Hc. destruct c as [|x c]; [discriminate|]. simpl in Hc.
  apply Ascii.eqb_eq in Hc. subst x.
  unfold io.extract, io.open_stream. simpl. eexists. split; reflexivity.
Qed.

Lemma read_pins_failed (fuel : nat) (s : io.istream) (pin : Z) (ev : list Z) :
  io.stream_ok s = false -> io.read_pins id_bits fuel s pin ev = ev.
Proof.
  intros Hs. unfold io.stream_ok in Hs. apply negb_false_iff in Hs.
  assert (Hfail : io.stream_ok (io.extract (io.id_type id_bits) s pin).1 = false).
  { unfold io.extract, io.good. rewrite Hs, andb_false_r. reflexivity. }
  destruct fuel; simpl; rewrite Hfail; reflexivity.
Qed.

Lemma read_pins_comment (fuel : nat) (c : list ascii) (pin : Z) (ev : list Z) :
  io.is_comment c = true ->
  io.read_pins id_bits fuel (io.open_stream c) pin ev = ev.
Proof.
  intros Hc. destruct (extract_comment (io.id_type id_bits) c pin Hc) as (s & Hs & Hfail).
  destruct fuel; simpl; rewrite Hs; simpl; rewrite Hfail; reflexivity.
Qed.

(** C10.  [parseHGRHeader] skips the leading lines that begin with '%' and
    reads the header from the first line that does not, whatever that line
    holds; the stream is left behind that line.  When the line holds the
    two counts, they are returned and the format flag keeps its value;
    when it holds the counts and a flag, all three are returned.  Behind
    the header a line that begins with '%' is not skipped: the loop over
    the hyperedges takes it for a hyperedge without pins (of weight 0 when
    the format has weights), and the loop over the hypernode weights takes
    it for the weight 0. *)
Theorem comments_only_before_header (cs : list (list ascii)) (h : Line)
  (rest c rest' : list ascii) (m n : nat) (m0 n0 t0 : Z) (hw : bool)
  (st : io.ReaderState) :
  Forall comment_ok cs ->
  line_ok h -> is_id id_bits m -> is_id id_bits n ->
  comment_ok c ->
  io.file st = io.open_stream (c ++ io.newline :: rest') ->
  let skipped := flat_map (fun c => c ++ [io.newline]) cs in
  (forall line behind,
     io.is_comment line = false -> ~ In io.newline line ->
     io.parseHGRHeader id_bits
       (io.open_stream (skipped ++ line ++ io.newline :: behind)) m0 n0 t0
     = Some (io.open_stream behind, io.read_header id_bits line m0 n0 t0))
  /\ (numbers h = [m; n] ->
      io.parseHGRHeader id_bits
        (io.open_stream (skipped ++ render_line h ++ rest)) m0 n0 t0
      = Some (io.open_stream rest, (Z.of_nat m, Z.of_nat n, t0)))
  /\ (forall t, numbers h = [m; n; t] -> Z.of_nat t <= io.max_value io.int_type ->
      io.parseHGRHeader id_bits
        (io.open_stream (skipped ++ render_line h ++ rest)) m0 n0 t0
      = Some (io.open_stream rest, (Z.of_nat m, Z.of_nat n, Z.of_nat t)))
  /\ io.read_hyperedge id_bits weight_type hw st
     = {| io.file := io.open_stream rest';
          io.line := c;
          io.index_vector :=
            io.index_vector st ++ [Z.of_nat (length (io.edge_vector st))];
          io.edge_vector := io.edge_vector st;
          io.hyperedge_weights :=
            if hw then io.hyperedge_weights st ++ [0] else io.hyperedge_weights st;
          io.hypernode_weights := io.hypernode_weights st |}
  /\ io.read_hypernode_weight weight_type st
     = {| io.file := io.open_stream rest';
          io.line := c;
          io.index_vector := io.index_vector st;
          io.edge_vector := io.edge_vector st;
          io.hyperedge_weights := io.hyperedge_weights st;
          io.hypernode_weights := io.hypernode_weights st ++ [0] |}.
Proof.
  intros Hcs Hh Hm Hn [Hc Hcnl] Hfile skipped.
  assert (Hskip : forall line behind,
            io.is_comment line = false -> ~ In io.newline line ->
            io.parseHGRHeader id_bits
              (io.open_stream (skipped ++ line ++ io.newline :: behind)) m0 n0 t0
            = Some (io.open_stream behind, io.read_header id_bits line m0 n0 t0)).
  { intros line behind Hline Hnl. apply parseHGRHeader_comments; assumption. }
  assert (Hline : io.parseHGRHeader id_bits
                    (io.open_stream (skipped ++ render_line h ++ rest)) m0 n0 t0
                  = Some (io.open_stream rest,
                          io.read_header id_bits (line_text h) m0 n0 t0)).
  { unfold render_line. rewrite <- app_assoc. simpl app.
    apply Hskip; [apply line_not_comment|apply line_text_no_newline]; exact Hh. }
  destruct (read_header_numbers id_bits h m n m0 n0 t0 Hh Hm Hn) as [H2 H3].
  split; [exact Hskip|].
  split; [intros Hnum; rewrite Hline, (H2 Hnum); reflexivity|].
  split; [intros t Hnum Ht; rewrite Hline, (H3 t Hnum Ht); reflexivity|].
  destruct (extract_comment weight_type c 0 Hc) as (s & Hs & Hfail).
  split.
  - unfold io.read_hyperedge. rewrite Hfile, getline_line by exact Hcnl.
    cbn [fst snd]. destruct hw.
    + rewrite Hs. cbn [fst snd]. rewrite read_pins_failed by exact Hfail. reflexivity.
    + cbn [fst snd]. rewrite read_pins_comment by exact Hc. reflexivity.
  - unfold io.read_hypernode_weight. rewrite Hfile, getline_line by exact Hcnl.
    cbn [fst snd]. rewrite Hs. reflexivity.
Qed.

End Comments.

(** *** The fuel of the loops *)

Section Fuel.
Variable id_bits : Z.

Lemma until_newline_length (s : list ascii) :
  match (io.until_newline s).2 with
  | Some rest => (length rest < length s)%nat
  | None => True
  end.
Proof.
  induction s as [|c s IH]; simpl; [exact I|].
  destruct (Ascii.eqb c io.newline); simpl; [lia|].
  destruct (io.until_newline s).2; [lia|exact I].
Qed.

(** [getline] on a good stream takes characters from the stream, or finds
    it empty and leaves an empty line. *)
Lemma getline_consumes (file : io.istream) (line : list ascii) :
  io.good file = true ->
  (length (io.buf (io.getline file line).1) < length (io.buf file))%nat
  \/ (io.getline file line).2 = [].
Proof.
  intros Hgood. unfold io.getline. rewrite Hgood.
  pose proof (until_newline_length (io.buf file)) as Hlen.
  destruct (io.until_newline (io.buf file)) as [l [rest|]] eqn:Hu; simpl in *.
  - left. exact Hlen.
  - destruct (io.buf file) as [|c s] eqn:Hbuf.
    + right. simpl in Hu. injection Hu as <-. reflexivity.
    + left. simpl. lia.
Qed.

(** Once the stream is not good, a comment line is never left. *)
Lemma skip_run_stuck (file file' : io.istream) (line line' : list ascii) :
  skip_run file line file' line' ->
  io.good file = false -> io.is_comment line = true -> False.
Proof.
  induction 1 as [file line Hdone|file line file' line' Hc _ IH]; intros Hbad Hcomment.
  - congruence.
  - apply IH.
    + unfold io.getline. rewrite Hbad. unfold io.good. simpl.
      apply andb_false_r.
    + unfold io.getline. rewrite Hbad. exact Hcomment.
Qed.

Lemma skip_comments_sound (fuel : nat) :
  forall file line r,
    io.skip_comments fuel file line = Some r -> skip_run file line r.1 r.2.
Proof.
  induction fuel as [|fuel IH]; intros file line r Hr; simpl in Hr;
    destruct (io.is_comment line) eqn:Hc;
    try (injection Hr as <-; apply skip_done; exact Hc);
    destruct (io.good file); try discriminate.
  apply skip_more; [exact Hc|]. apply IH. exact Hr.
Qed.

Lemma skip_comments_complete (file file' : io.istream) (line line' : list ascii) :
  skip_run file line file' line' ->
  forall fuel,
    (length (io.buf file) < fuel)%nat \/ io.is_comment line = false ->
    io.skip_comments fuel file line = Some (file', line').
Proof.
  induction 1 as [file line Hdone|file line file' line' Hc Hrun IH]; intros fuel Hfuel.
  - destruct fuel; simpl; rewrite Hdone; reflexivity.
  - destruct Hfuel as [Hfuel|Hno]; [|congruence].
    destruct (io.good file) eqn:Hgood.
    + destruct fuel as [|fuel]; [lia|]. simpl. rewrite Hc, Hgood.
      apply IH. destruct (getline_consumes file line Hgood) as [Hlt|Hnil].
      * left. lia.
      * right. rewrite Hnil. reflexivity.
    + exfalso. eapply skip_run_stuck; [|exact Hgood|exact Hc].
      eapply skip_more; eassumption.
Qed.

(** The fuel that [parseHGRHeader] supplies decides nothing: the result of
    [skip_comments] is the outcome of the loop when the loop ends, and
    [None] only when it does not end. *)
Lemma skip_comments_adequate (file : io.istream) (line : list ascii) :
  (forall r, io.skip_comments (S (length (io.buf file))) file line = Some r
             <-> skip_run file line r.1 r.2)
  /\ (io.skip_comments (S (length (io.buf file))) file line = None
      <-> ~ exists file' line', skip_run file line file' line').
Proof.
  assert (Hiff : forall r,
    io.skip_comments (S (length (io.buf file))) file line = Some r
    <-> skip_run file line r.1 r.2).
  { intros [file' line']. split.
    - apply skip_comments_sound.
    - intros Hrun. apply (skip_comments_complete _ _ _ _ Hrun). left. lia. }
  split; [exact Hiff|]. split.
  - intros Hnone (file' & line' & Hrun).
    apply (Hiff (file', line')) in Hrun. congruence.
  - intros Hno.
    destruct (io.skip_comments (S (length (io.buf file))) file line) as [r|] eqn:Hr;
      [|reflexivity].
    exfalso. apply Hno. exists r.1, r.2. apply Hiff. reflexivity.
Qed.

Lemma skipws_length (s : list ascii) : (length (io.skipws s) <= length s)%nat.
Proof.
  induction s as [|c s IH]; simpl; [lia|].
  destruct (io.isspace c); simpl; lia.
Qed.

Lemma read_digits_length (s : list ascii) :
  forall count acc,
    let r := io.read_digits s count acc in
    (length r.2 + r.1.1 = length s + count)%nat.
Proof.
  induction s as [|c s IH]; intros count acc; simpl; [lia|].
  destruct (io.digit_value c); simpl; [|lia].
  specialize (IH (S count) (10 * acc + z)). simpl in IH. lia.
Qed.

(** A successful extraction takes at least one character. *)
Lemma extract_consumes (ty : io.num_type) (s : io.istream) (value : Z) :
  io.stream_ok (io.extract ty s value).1 = true ->
  (length (io.buf (io.extract ty s value).1) < length (io.buf s))%nat.
Proof.
  unfold io.extract. destruct (io.good s); [|simpl; discriminate].
  pose proof (skipws_length (io.buf s)) as Hws.
  destruct (io.skipws (io.buf s)) as [|c rest]; [simpl; discriminate|].
  set (after_sign := if Ascii.eqb c "-" || Ascii.eqb c "+" then rest else c :: rest).
  assert (Hafter : (length after_sign <= length (c :: rest))%nat).
  { subst after_sign. destruct (Ascii.eqb c "-" || Ascii.eqb c "+"); simpl; lia. }
  pose proof (read_digits_length after_sign 0 0) as Hlen. simpl in Hlen.
  destruct (io.read_digits after_sign 0 0) as [[count magnitude] rest'].
  simpl in Hlen. destruct count as [|count]; [simpl; discriminate|].
  intros _.
  assert (Hrest : (length rest' < length (io.buf s))%nat) by lia.
  destruct (Ascii.eqb c "-"), (io.is_signed ty);
    repeat match goal with
           | |- context [if ?b then _ else _] => destruct b
           end; simpl; exact Hrest.
Qed.

(** The fuel of [read_pins] is never exhausted when it is at least the
    number of characters of the stream: the result is the outcome of the
    loop. *)
Lemma read_pins_adequate (fuel : nat) :
  forall (s : io.istream) (pin : Z) (ev : list Z),
    (length (io.buf s) <= fuel)%nat ->
    pins_run id_bits s pin ev (io.read_pins id_bits fuel s pin ev).
Proof.
  induction fuel as [|fuel IH]; intros s pin ev Hfuel.
  - simpl.
    destruct (io.stream_ok (io.extract (io.id_type id_bits) s pin).1) eqn:Hok.
    + apply extract_consumes in Hok. lia.
    + apply pins_done. exact Hok.
  - simpl.
    destruct (io.stream_ok (io.extract (io.id_type id_bits) s pin).1) eqn:Hok.
    + apply pins_more; [exact Hok|]. apply IH.
      apply extract_consumes in Hok. lia.
    + apply pins_done. exact Hok.
Qed.

Lemma extract_buf_le (ty : io.num_type) (s : io.istream) (value : Z) :
  (length (io.buf (io.extract ty s value).1) <= length (io.buf s))%nat.
Proof.
  unfold io.extract. destruct (io.good s); [|simpl; lia].
  pose proof (skipws_length (io.buf s)) as Hws.
  destruct (io.skipws (io.buf s)) as [|c rest]; [simpl; lia|].
  set (after_sign := if Ascii.eqb c "-" || Ascii.eqb c "+" then rest else c :: rest).
  assert (Hafter : (length after_sign <= length (c :: rest))%nat).
  { subst after_sign. destruct (Ascii.eqb c "-" || Ascii.eqb c "+"); simpl; lia. }
  pose proof (read_digits_length after_sign 0 0) as Hlen. simpl in Hlen.
  destruct (io.read_digits after_sign 0 0) as [[count magnitude] rest'].
  simpl in Hlen.
  assert (Hrest : (length rest' <= length (io.buf s))%nat) by lia.
  destruct count as [|count]; [simpl; exact Hrest|].
  destruct (Ascii.eqb c "-"), (io.is_signed ty);
    repeat match goal with
           | |- context [if ?b then _ else _] => destruct b
           end; simpl; exact Hrest.
Qed.

(** In [read_hyperedge] the pins that are stored are those that the loop
    over the rest of the line yields. *)
Lemma read_hyperedge_pins (weight_type : io.num_type) (hw : bool)
  (st : io.ReaderState) :
  let r := io.getline (io.file st) (io.line st) in
  let line_stream :=
    if hw then (io.extract weight_type (io.open_stream r.2) 0).1
    else io.open_stream r.2 in
  pins_run id_bits line_stream 0 (io.edge_vector st)
    (io.edge_vector (io.read_hyperedge id_bits weight_type hw st)).
Proof.
  intros r line_stream. unfold io.read_hyperedge. fold r. simpl io.edge_vector.
  assert (Hfuel : (length (io.buf line_stream) <= length r.2)%nat).
  { subst line_stream. destruct hw; [|simpl; lia].
    etransitivity; [apply extract_buf_le|]. simpl. lia. }
  replace (if hw then io.extract weight_type (io.open_stream r.2) 0
           else (io.open_stream r.2, 0)).1 with line_stream
    by (subst line_stream; destruct hw; reflexivity).
  apply read_pins_adequate. exact Hfuel.
Qed.

End Fuel.

Ltac no_newline :=
  let H := fresh in
  intros H; simpl in H;
  repeat (destruct H as [H|H]; [discriminate H|]); exact H.

Lemma example_file_ok : hgr_ok 32 io.int_type example_file.
Proof.
  constructor.
  - repeat constructor. no_newline.
  - repeat constructor; discriminate.
  - exists 2%nat, 4%nat. split; [right; exists 1%nat; split; [reflexivity|lia]|].
    repeat split; try (vm_compute; discriminate).
  - repeat constructor; try discriminate; try (vm_compute; discriminate);
      simpl; lia.
  - discriminate.
Qed.

Lemma parseHypergraphFile_well_formed_witness :
  exists p,
    io.parseHypergraphFile 32 io.int_type (io.open_stream (render_file example_file))
      0 0 [] [] [] [] = Some p
    /\ io.num_hyperedges p = Z.of_nat (hgr_num_hyperedges example_file)
    /\ io.num_hypernodes p = Z.of_nat (hgr_num_hypernodes example_file)
    /\ io.edge_vector (io.final p) = expected_edge_vector example_file
    /\ io.index_vector (io.final p) = expected_index_vector example_file
    /\ io.hyperedge_weights (io.final p) = expected_hyperedge_weights example_file
    /\ io.hypernode_weights (io.final p) = expected_hypernode_weights example_file
    /\ length (io.index_vector (io.final p)) = S (hgr_num_hyperedges example_file)
    /\ forall i l, hyperedge_lines example_file !! i = Some l ->
         exists a b : nat,
           io.index_vector (io.final p) !! i = Some (Z.of_nat a)
           /\ io.index_vector (io.final p) !! S i = Some (Z.of_nat b)
           /\ take (b - a) (drop a (io.edge_vector (io.final p)))
              = map (fun pin => Z.of_nat pin - 1) (pins_of example_file l).
Proof.
  apply (parseHypergraphFile_well_formed 32 io.int_type example_file 0 0).
  exact example_file_ok.
Defined.

(** The reader on the example file: pins 1 2 3 and 3 4 become 0 1 2 and
    2 3. *)
Example parse_example_file :
  option_map
    (fun p => (io.num_hypernodes p, io.num_hyperedges p,
               io.index_vector (io.final p), io.edge_vector (io.final p),
               io.hyperedge_weights (io.final p), io.hypernode_weights (io.final p)))
    (io.parseHypergraphFile 32 io.int_type (io.open_stream (render_file example_file))
       0 0 [] [] [] [])
  = Some (4, 2, [0; 3; 5], [0; 1; 2; 2; 3], [7; 3], []).
Proof. vm_compute. reflexivity. Qed.

Lemma comments_only_before_header_witness :
  io.parseHGRHeader 32
    (io.open_stream
       (flat_map (fun c => c ++ [io.newline]) [chars "% one"; chars "%two"]
        ++ render_line (header example_file) ++ chars "1 2"))
    0 0 0
  = Some (io.open_stream (chars "1 2"), (2, 4, 1))
  /\ io.read_hyperedge 32 io.int_type true example_reader_state
     = {| io.file := io.open_stream (chars "3 4");
          io.line := chars "% inner";
          io.index_vector :=
            io.index_vector example_reader_state
            ++ [Z.of_nat (length (io.edge_vector example_reader_state))];
          io.edge_vector := io.edge_vector example_reader_state;
          io.hyperedge_weights := io.hyperedge_weights example_reader_state ++ [0];
          io.hypernode_weights := io.hypernode_weights example_reader_state |}
  /\ io.read_hypernode_weight io.int_type example_reader_state
     = {| io.file := io.open_stream (chars "3 4");
          io.line := chars "% inner";
          io.index_vector := io.index_vector example_reader_state;
          io.edge_vector := io.edge_vector example_reader_state;
          io.hyperedge_weights := io.hyperedge_weights example_reader_state;
          io.hypernode_weights := io.hypernode_weights example_reader_state ++ [0] |}.
Proof.
  assert (Hcs : Forall comment_ok [chars "% one"; chars "%two"])
    by (repeat constructor; no_newline).
  assert (Hh : line_ok (header example_file))
    by (repeat constructor; discriminate).
  assert (Hm : is_id 32 2) by (vm_compute; discriminate).
  assert (Hn : is_id 32 4) by (vm_compute; discriminate).
  assert (Hc : comment_ok (chars "% inner")) by (split; [reflexivity|no_newline]).
  pose proof (comments_only_before_header 32 io.int_type
                [chars "% one"; chars "%two"] (header example_file) (chars "1 2")
                (chars "% inner") (chars "3 4") 2 4 0 0 0 true example_reader_state
                Hcs Hh Hm Hn Hc eq_refl) as H.
  cbv zeta in H. destruct H as (_ & _ & Hflag & Hedge & Hweight).
  split; [|split; [exact Hedge|exact Hweight]].
  apply (Hflag 1%nat); [reflexivity|vm_compute; discriminate].
Defined.

(** A comment line between the hyperedge lines is read as a hyperedge: the
    file announces the hyperedges {1, 2} and {2, 3}, the reader returns
    {0, 1} and a hyperedge without pins. *)
Example comment_between_hyperedges :
  option_map
    (fun p => (io.index_vector (io.final p), io.edge_vector (io.final p)))
    (io.parseHypergraphFile 32 io.int_type (io.open_stream commented_body)
       0 0 [] [] [] [])
  = Some ([0; 2; 2], [0; 1]).
Proof. vm_compute. reflexivity. Qed.

(** * Further properties *)

(** ** The first loop of the extraction *)

Lemma is_visited_insert_ne (v : list bool) (p q : nat) :
  p <> q -> is_visited (<[p := true]> v) q = is_visited v q.
Proof. intros H. unfold is_visited. rewrite list_lookup_insert_ne by exact H. reflexivity. Qed.

Lemma is_visited_insert_eq (v : list bool) (p : nat) :
  (p < length v)%nat -> is_visited (<[p := true]> v) p = true.
Proof. intros H. unfold is_visited. rewrite list_lookup_insert_eq by exact H. reflexivity. Qed.

Lemma is_visited_bound (v : list bool) (p : nat) :
  is_visited v p = true -> (p < length v)%nat.
Proof.
  unfold is_visited. intros H. destruct (v !! p) eqn:Hp; [|discriminate].
  eapply lookup_lt_Some. exact Hp.
Qed.

Lemma size_t_wrap_add_l (a b : Z) : size_t_wrap (size_t_wrap a + b) = size_t_wrap (a + b).
Proof. unfold size_t_wrap, wrap. apply Zplus_mod_idemp_l. Qed.

Lemma size_t_wrap_add_r (a b : Z) : size_t_wrap (a + size_t_wrap b) = size_t_wrap (a + b).
Proof. unfold size_t_wrap, wrap. apply Zplus_mod_idemp_r. Qed.

Lemma Zsum_app {A : Type} (f : A -> Z) (l1 l2 : list A) :
  Zsum f (l1 ++ l2) = Zsum f l1 + Zsum f l2.
Proof. induction l1 as [|x l1 IH]; simpl; [reflexivity|]. rewrite IH. lia. Qed.

Lemma Zsum_perm {A : Type} (f : A -> Z) (l1 l2 : list A) :
  Permutation l1 l2 -> Zsum f l1 = Zsum f l2.
Proof. induction 1; simpl; lia. Qed.

Lemma pins_sublist (hg : Hypergraph) (he p : nat) :
  In p (pins hg he) -> In p (_incidence_array hg).
Proof.
  unfold pins. intros H. apply list_elem_of_In in H. apply list_elem_of_In.
  eapply elem_of_sublist; [|apply sublist_drop].
  eapply elem_of_sublist; [exact H|apply sublist_take].
Qed.

Lemma pins_bounded (hg : Hypergraph) (he : nat) :
  pins_in_range hg -> Forall (fun p => (p < initialNumNodes hg)%nat) (pins hg he).
Proof.
  intros Hr. apply List.Forall_forall. intros p Hp.
  unfold pins_in_range in Hr. rewrite List.Forall_forall in Hr.
  apply Hr. eapply pins_sublist. exact Hp.
Qed.

Section Collect.
Variable hg : Hypergraph.
Variable c : Z.

(** The pins of a hyperedge that is visited for the first time (lines
    133-139): the hypernodes that are new are appended, no slot of a
    hyperedge is touched, and the two counters advance by the number of the
    hypernodes that do not belong to the community. *)
Lemma visit_pins_effect (ps : list nat) :
  forall st : list bool * CommunitySubhypergraph,
    Forall (fun p => (p < initialNumNodes hg)%nat) ps ->
    length st.1 = (initialNumNodes hg + initialNumEdges hg)%nat ->
    hg_ref st.2 = hg -> community_id st.2 = c ->
    (forall p, (p < initialNumNodes hg)%nat ->
       (is_visited st.1 p = true <-> In p (subhypergraph_to_hypergraph_hn st.2))) ->
    List.NoDup (subhypergraph_to_hypergraph_hn st.2) ->
    num_hn_not_in_community st.2
      = size_t_wrap (foreign_count hg c (subhypergraph_to_hypergraph_hn st.2)) ->
    forall x, num_pins_not_in_community st.2 = size_t_wrap x ->
    let st' := fold_left visit_pin ps st in
    length st'.1 = (initialNumNodes hg + initialNumEdges hg)%nat
    /\ hg_ref st'.2 = hg /\ community_id st'.2 = c
    /\ subhypergraph st'.2 = subhypergraph st.2
    /\ subhypergraph_to_hypergraph_he st'.2 = subhypergraph_to_hypergraph_he st.2
    /\ (forall p, (p < initialNumNodes hg)%nat ->
          (is_visited st'.1 p = true <-> In p (subhypergraph_to_hypergraph_hn st'.2)))
    /\ List.NoDup (subhypergraph_to_hypergraph_hn st'.2)
    /\ (forall he, is_visited st'.1 (initialNumNodes hg + he)
                   = is_visited st.1 (initialNumNodes hg + he))
    /\ (forall p, In p (subhypergraph_to_hypergraph_hn st'.2)
                  <-> In p (subhypergraph_to_hypergraph_hn st.2) \/ In p ps)
    /\ num_hn_not_in_community st'.2
       = size_t_wrap (foreign_count hg c (subhypergraph_to_hypergraph_hn st'.2))
    /\ num_pins_not_in_community st'.2
       = size_t_wrap (x + foreign_count hg c ps).
Proof.
  induction ps as [|p ps IH]; intros st Hps Hlen Href Hid Hnodes Hnd Hcnt x Hpc; simpl.
  - split; [auto|]. split; [auto|]. split; [auto|]. split; [auto|].
    split; [auto|]. split; [auto|]. split; [auto|]. split; [auto|].
    split; [intros p; tauto|]. split; [exact Hcnt|].
    unfold foreign_count. simpl. rewrite Z.add_0_r. exact Hpc.
  - apply List.Forall_cons_iff in Hps. destruct Hps as [Hp Hps'].
    set (st1 := visit_pin st p).
    assert (H1 : length st1.1 = (initialNumNodes hg + initialNumEdges hg)%nat
            /\ hg_ref st1.2 = hg /\ community_id st1.2 = community_id st.2
            /\ subhypergraph st1.2 = subhypergraph st.2
            /\ subhypergraph_to_hypergraph_he st1.2 = subhypergraph_to_hypergraph_he st.2
            /\ (forall q, (q < initialNumNodes hg)%nat ->
                  (is_visited st1.1 q = true <-> In q (subhypergraph_to_hypergraph_hn st1.2)))
            /\ List.NoDup (subhypergraph_to_hypergraph_hn st1.2)
            /\ (forall he, is_visited st1.1 (initialNumNodes hg + he)
                           = is_visited st.1 (initialNumNodes hg + he))
            /\ (forall q, In q (subhypergraph_to_hypergraph_hn st1.2)
                          <-> In q (subhypergraph_to_hypergraph_hn st.2) \/ q = p)
            /\ num_hn_not_in_community st1.2
               = size_t_wrap (foreign_count hg (community_id st.2)
                                (subhypergraph_to_hypergraph_hn st1.2))
            /\ num_pins_not_in_community st1.2
               = size_t_wrap (x + (if communityID hg p =? community_id st.2 then 0 else 1))).
    { subst st1. unfold visit_pin.
      destruct (is_visited st.1 p) eqn:Hv; simpl.
      - unfold foreign. rewrite Href, Hpc, size_t_wrap_add_l.
        repeat (split; [solve [auto]|]).
        split; [|split; [rewrite Hcnt, Hid; reflexivity|reflexivity]].
        intros q. split; [tauto|]. intros [Hq| ->]; [exact Hq|].
        apply Hnodes; assumption.
      - rewrite length_insert.
        unfold foreign. simpl. rewrite Href.
        rewrite Hpc, size_t_wrap_add_l, Hcnt, size_t_wrap_add_l.
        split; [exact Hlen|]. split; [reflexivity|]. split; [reflexivity|].
        split; [reflexivity|]. split; [reflexivity|].
        assert (Hnew : ~ In p (subhypergraph_to_hypergraph_hn st.2)).
        { intros Hin. apply Hnodes in Hin; [congruence|exact Hp]. }
        split.
        { intros q Hq. rewrite in_app_iff. simpl.
          destruct (decide (q = p)) as [->|Hne].
          - rewrite is_visited_insert_eq by lia. tauto.
          - rewrite is_visited_insert_ne by congruence.
            rewrite (Hnodes q Hq). intuition congruence. }
        split.
        { apply List.NoDup_app; [exact Hnd|repeat constructor; simpl; tauto|].
          intros q Hq [<-|[]]. exact (Hnew Hq). }
        split; [intros he; apply is_visited_insert_ne; lia|].
        split; [intros q; rewrite in_app_iff; simpl; intuition congruence|].
        split; [|reflexivity].
        unfold foreign_count. rewrite Zsum_app. simpl. rewrite Z.add_0_r, Hid.
        reflexivity. }
    destruct H1 as (L1 & R1 & I1 & S1 & E1 & N1 & D1 & V1 & M1 & C1 & P1).
    rewrite Hid in *.
    destruct (IH st1 Hps' L1 R1 I1 N1 D1 C1 _ P1)
      as (L2 & R2 & I2 & S2 & E2 & N2 & D2 & V2 & M2 & C2 & P2).
    fold st1.
    split; [exact L2|]. split; [exact R2|]. split; [exact I2|].
    split; [congruence|]. split; [congruence|]. split; [exact N2|].
    split; [exact D2|]. split; [intros he; rewrite V2; apply V1|].
    split; [intros q; rewrite M2, M1; intuition congruence|].
    split; [exact C2|].
    rewrite P2. unfold foreign_count. simpl. f_equal. lia.
Qed.

Hypothesis Hrange : pins_in_range hg.

Lemma is_visited_replicate (k i : nat) : is_visited (replicate k false) i = false.
Proof.
  unfold is_visited. destruct (replicate k false !! i) as [b|] eqn:Hb; [|reflexivity].
  apply lookup_replicate in Hb. destruct Hb as [-> _]. reflexivity.
Qed.

Lemma collect_inv_init :
  collect_inv hg c []
    (replicate (initialNumNodes hg + initialNumEdges hg) false,
     new_CommunitySubhypergraph hg c).
Proof.
  constructor; simpl; try reflexivity.
  - apply length_replicate.
  - intros p _. rewrite is_visited_replicate. split; [discriminate|tauto].
  - constructor.
  - intros he _. rewrite is_visited_replicate. split; [discriminate|tauto].
  - tauto.
  - tauto.
  - tauto.
  - intros _. constructor.
Qed.

Lemma visit_edge_inv (visited_edges : list nat) (st : list bool * CommunitySubhypergraph)
  (he : nat) :
  collect_inv hg c visited_edges st -> incident_to_community hg c he ->
  exists visited_edges',
    collect_inv hg c visited_edges' (visit_edge hg st he)
    /\ incl visited_edges visited_edges' /\ In he visited_edges'.
Proof.
  intros Inv Hinc. unfold visit_edge.
  destruct (is_visited st.1 (initialNumNodes hg + he)) eqn:Hv.
  - exists visited_edges. split; [exact Inv|]. split; [apply incl_refl|].
    apply (ci_edges _ _ _ _ Inv); [|exact Hv].
    apply is_visited_bound in Hv. rewrite (ci_length _ _ _ _ Inv) in Hv. lia.
  - destruct (visit_pins_effect (pins hg he) st (pins_bounded hg he Hrange)
                (ci_length _ _ _ _ Inv) (ci_ref _ _ _ _ Inv) (ci_id _ _ _ _ Inv)
                (ci_nodes _ _ _ _ Inv) (ci_nodup _ _ _ _ Inv)
                (ci_hn_counter _ _ _ _ Inv) _ (ci_pin_counter _ _ _ _ Inv))
      as (L & R & I & S & E & N & D & V & M & C & P).
    set (st' := fold_left visit_pin (pins hg he) st) in *.
    exists (visited_edges ++ [he]).
    split; [|split; [apply incl_appl, incl_refl|apply in_or_app; right; left; reflexivity]].
    constructor; simpl.
    + rewrite length_insert. exact L.
    + exact R.
    + exact I.
    + rewrite S. apply (ci_sub _ _ _ _ Inv).
    + rewrite E. apply (ci_he _ _ _ _ Inv).
    + intros p Hp. rewrite is_visited_insert_ne by lia. apply N. exact Hp.
    + exact D.
    + intros he' Hhe'. rewrite in_app_iff. simpl.
      destruct (decide (he' = he)) as [->|Hne].
      * rewrite is_visited_insert_eq by (rewrite L; lia). tauto.
      * rewrite is_visited_insert_ne by lia. rewrite V.
        rewrite (ci_edges _ _ _ _ Inv he' Hhe'). intuition congruence.
    + intros he' Hin. apply in_app_or in Hin. destruct Hin as [Hin|[<-|[]]].
      * apply (ci_incident _ _ _ _ Inv). exact Hin.
      * exact Hinc.
    + intros he' p Hin Hp. apply M. apply in_app_or in Hin.
      destruct Hin as [Hin|[<-|[]]].
      * left. eapply (ci_pins _ _ _ _ Inv); eassumption.
      * right. exact Hp.
    + intros p Hp. apply M in Hp. destruct Hp as [Hp|Hp].
      * destruct (ci_origin _ _ _ _ Inv p Hp) as (he' & Hin & Hpin).
        exists he'. split; [apply in_or_app; left; exact Hin|exact Hpin].
      * exists he. split; [apply in_or_app; right; left; reflexivity|exact Hp].
    + intros Hall. apply Forall_app in Hall. destruct Hall as [Hall Hhe].
      apply Forall_inv in Hhe.
      apply List.NoDup_app; [apply (ci_once _ _ _ _ Inv); exact Hall
                            |repeat constructor; simpl; tauto|].
      intros he' Hin [<-|[]].
      apply (ci_edges _ _ _ _ Inv he Hhe) in Hin. congruence.
    + exact C.
    + rewrite P, Zsum_app. simpl. rewrite Z.add_0_r. reflexivity.
Qed.

Lemma visit_edges_inv (hes : list nat) :
  forall (visited_edges : list nat) (st : list bool * CommunitySubhypergraph),
    collect_inv hg c visited_edges st ->
    Forall (incident_to_community hg c) hes ->
    exists visited_edges',
      collect_inv hg c visited_edges' (fold_left (visit_edge hg) hes st)
      /\ incl visited_edges visited_edges'
      /\ forall he, In he hes -> In he visited_edges'.
Proof.
  induction hes as [|he hes IH]; intros visited_edges st Inv Hall; simpl.
  - exists visited_edges. split; [exact Inv|]. split; [apply incl_refl|tauto].
  - apply List.Forall_cons_iff in Hall. destruct Hall as [Hhe Hall].
    destruct (visit_edge_inv visited_edges st he Inv Hhe) as (d1 & Inv1 & Hincl1 & Hin1).
    destruct (IH d1 _ Inv1 Hall) as (d2 & Inv2 & Hincl2 & Hin2).
    exists d2. split; [exact Inv2|].
    split; [eapply incl_tran; eassumption|].
    intros he' [<-|Hin]; [apply Hincl2; exact Hin1|apply Hin2; exact Hin].
Qed.

Lemma visit_node_inv (visited_edges : list nat) (st : list bool * CommunitySubhypergraph)
  (hn : nat) :
  collect_inv hg c visited_edges st -> In hn (nodes hg) ->
  exists visited_edges',
    collect_inv hg c visited_edges' (visit_node hg c st hn)
    /\ incl visited_edges visited_edges'
    /\ (communityID hg hn = c ->
        forall he, In he (incidentEdges hg hn) -> In he visited_edges').
Proof.
  intros Inv Hhn. unfold visit_node.
  destruct (Z.eqb_spec (communityID hg hn) c) as [Heq|Hne].
  - destruct (visit_edges_inv (incidentEdges hg hn) visited_edges st Inv)
      as (d & Inv' & Hincl & Hin).
    + apply List.Forall_forall. intros he Hhe. exists hn. auto.
    + exists d. auto.
  - exists visited_edges. split; [exact Inv|]. split; [apply incl_refl|]. congruence.
Qed.

Lemma visit_nodes_inv (hns : list nat) :
  forall (visited_edges : list nat) (st : list bool * CommunitySubhypergraph),
    collect_inv hg c visited_edges st ->
    (forall hn, In hn hns -> In hn (nodes hg)) ->
    exists visited_edges',
      collect_inv hg c visited_edges' (fold_left (visit_node hg c) hns st)
      /\ incl visited_edges visited_edges'
      /\ forall hn he, In hn hns -> communityID hg hn = c ->
            In he (incidentEdges hg hn) -> In he visited_edges'.
Proof.
  induction hns as [|hn hns IH]; intros visited_edges st Inv Hsub; simpl.
  - exists visited_edges. split; [exact Inv|]. split; [apply incl_refl|tauto].
  - destruct (visit_node_inv visited_edges st hn Inv (Hsub hn (or_introl eq_refl)))
      as (d1 & Inv1 & Hincl1 & Hin1).
    destruct (IH d1 _ Inv1 (fun x Hx => Hsub x (or_intror Hx)))
      as (d2 & Inv2 & Hincl2 & Hin2).
    exists d2. split; [exact Inv2|].
    split; [eapply incl_tran; eassumption|].
    intros hn' he [<-|Hin] Hc Hhe.
    + apply Hincl2. apply Hin1; assumption.
    + eapply Hin2; eassumption.
Qed.

(** The state after the first loop. *)
Lemma collect_community_inv :
  exists visited_edges,
    collect_inv hg c visited_edges (collect_community hg c)
    /\ forall he, In he visited_edges <-> incident_to_community hg c he.
Proof.
  destruct (visit_nodes_inv (nodes hg) [] _ collect_inv_init (fun x Hx => Hx))
    as (d & Inv & _ & Hin).
  exists d. split; [exact Inv|]. intros he. split.
  - apply (ci_incident _ _ _ _ Inv).
  - intros (hn & Hhn & Hc & Hhe). eapply Hin; eassumption.
Qed.

End Collect.

(** ** The numbering of the collected hypernodes *)

Lemma number_hypernodes_snoc (l : list nat) (x : nat) :
  number_hypernodes (l ++ [x])
  = (<[x := (number_hypernodes l).2]> (number_hypernodes l).1, S (number_hypernodes l).2).
Proof. unfold number_hypernodes. rewrite fold_left_app. reflexivity. Qed.

Lemma number_hypernodes_spec (mapping : list nat) :
  (number_hypernodes mapping).2 = length mapping
  /\ (forall p, In p mapping ->
        exists i, (number_hypernodes mapping).1 !! p = Some i /\ mapping !! i = Some p)
  /\ (forall p, ~ In p mapping -> (number_hypernodes mapping).1 !! p = None)
  /\ (List.NoDup mapping -> forall i p, mapping !! i = Some p ->
        (number_hypernodes mapping).1 !! p = Some i).
Proof.
  induction mapping as [|x l IH] using rev_ind.
  - split; [reflexivity|]. split; [intros p []|].
    split; [intros p _; apply lookup_empty|]. intros _ i p H. discriminate.
  - destruct IH as (Hcount & Hin & Hout & Hnd).
    rewrite number_hypernodes_snoc. simpl. rewrite Hcount.
    split; [rewrite length_app; simpl; lia|]. split; [|split].
    2:{ intros p Hp. rewrite in_app_iff in Hp. simpl in Hp.
        rewrite lookup_insert_ne by (intros ->; tauto). apply Hout. tauto. }
    + intros p Hp. destruct (decide (p = x)) as [->|Hne].
      * exists (length l). rewrite lookup_insert_eq. split; [reflexivity|].
        apply list_lookup_middle. reflexivity.
      * apply in_app_or in Hp. destruct Hp as [Hp|[Hp|[]]]; [|congruence].
        destruct (Hin p Hp) as (i & Hi & Hl). exists i.
        rewrite lookup_insert_ne by congruence. split; [exact Hi|].
        apply lookup_app_l_Some. exact Hl.
    + intros Hnodup i p Hi.
      assert (Hx : ~ In x l).
      { intros Hx. apply NoDup_remove_2 in Hnodup. apply Hnodup.
        rewrite app_nil_r. exact Hx. }
      apply NoDup_app_remove_r in Hnodup.
      apply lookup_snoc_Some in Hi. destruct Hi as [[Hlt Hi]|[-> ->]].
      * assert (p <> x).
        { intros ->. apply Hx. apply list_elem_of_In.
          eapply list_elem_of_lookup_2. exact Hi. }
        rewrite lookup_insert_ne by congruence. apply Hnd; assumption.
      * apply lookup_insert_eq.
Qed.

(** ** The sizes of the communities in a hyperedge *)

Section Ranges.
Variable c : Z.

Lemma sizes_below_cons (k x : Z) (m : list (Z * Z)) :
  sizes_below c ((k, x) :: m) = (if k <? c then x else 0) + sizes_below c m.
Proof. reflexivity. Qed.

Lemma sizes_at_cons (k x : Z) (m : list (Z * Z)) :
  sizes_at c ((k, x) :: m) = (if k =? c then x else 0) + sizes_at c m.
Proof. reflexivity. Qed.

Lemma sizes_at_absent (m : list (Z * Z)) : ~ In c (map fst m) -> sizes_at c m = 0.
Proof.
  induction m as [|[k x] m IH]; intros Hnot; [reflexivity|].
  rewrite sizes_at_cons. simpl in Hnot.
  destruct (Z.eqb_spec k c) as [->|_]; [tauto|]. rewrite IH by tauto. reflexivity.
Qed.

Lemma community_range_fold (m : list (Z * Z)) :
  forall a s,
    List.NoDup (map fst m) -> (s = 0 \/ ~ In c (map fst m)) ->
    fold_left (range_step c) m (size_t_wrap a, s)
    = (size_t_wrap (a + sizes_below c m), s + sizes_at c m).
Proof.
  induction m as [|[k x] m IH]; intros a s Hnd Hs.
  - unfold sizes_below, sizes_at. simpl. rewrite !Z.add_0_r. reflexivity.
  - simpl in Hnd. apply NoDup_cons_iff in Hnd. destruct Hnd as [Hk Hnd].
    cbn [fold_left]. unfold range_step at 2. cbn [fst snd].
    rewrite sizes_below_cons, sizes_at_cons.
    destruct (Z.ltb_spec k c) as [Hlt|Hge].
    + destruct (Z.eqb_spec k c) as [->|Hne]; [lia|].
      rewrite size_t_wrap_add_l. rewrite IH; [|exact Hnd|simpl in Hs; tauto].
      apply pair_equal_spec; split; [f_equal; lia|lia].
    + destruct (Z.eqb_spec k c) as [->|Hne].
      * assert (s = 0) as -> by (destruct Hs as [Hs|Hs]; [exact Hs|simpl in Hs; tauto]).
        rewrite IH; [|exact Hnd|right; exact Hk].
        rewrite (sizes_at_absent m Hk). apply pair_equal_spec; split; [f_equal; lia|lia].
      * rewrite IH; [|exact Hnd|simpl in Hs; tauto].
        apply pair_equal_spec; split; [f_equal; lia|lia].
Qed.

Lemma sparse_add_keys (m : list (Z * Z)) (k w : Z) :
  (In k (map fst m) -> map fst (sparse_add m k w) = map fst m)
  /\ (~ In k (map fst m) -> map fst (sparse_add m k w) = map fst m ++ [k]).
Proof.
  induction m as [|[k' x] m IH]; simpl.
  - split; [tauto|reflexivity].
  - destruct (Z.eqb_spec k' k) as [->|Hne]; simpl.
    + split; [reflexivity|tauto].
    + destruct IH as [IH1 IH2]. split.
      * intros [H|H]; [congruence|]. rewrite IH1 by exact H. reflexivity.
      * intros H. rewrite IH2 by tauto. reflexivity.
Qed.

Lemma sparse_add_nodup (m : list (Z * Z)) (k w : Z) :
  List.NoDup (map fst m) -> List.NoDup (map fst (sparse_add m k w)).
Proof.
  intros Hnd. destruct (sparse_add_keys m k w) as [H1 H2].
  destruct (in_dec Z.eq_dec k (map fst m)) as [Hin|Hnot].
  - rewrite H1 by exact Hin. exact Hnd.
  - rewrite H2 by exact Hnot.
    apply List.NoDup_app; [exact Hnd|repeat constructor; simpl; tauto|].
    intros a Ha [<-|[]]. exact (Hnot Ha).
Qed.

Lemma sparse_add_below (m : list (Z * Z)) (k w : Z) :
  size_t_wrap (sizes_below c (sparse_add m k w))
  = size_t_wrap (sizes_below c m + (if k <? c then w else 0)).
Proof.
  induction m as [|[k' x] m IH]; cbn [sparse_add].
  - rewrite sizes_below_cons. change (sizes_below c []) with 0.
    destruct (k <? c); [|reflexivity].
    rewrite !Z.add_0_r, Z.add_0_l. unfold size_t_wrap, wrap. apply Zmod_mod.
  - destruct (Z.eqb_spec k' k) as [->|Hne]; rewrite !sizes_below_cons.
    + destruct (k <? c).
      * rewrite size_t_wrap_add_l. f_equal. lia.
      * f_equal. lia.
    + rewrite <- size_t_wrap_add_r, IH, size_t_wrap_add_r. f_equal. lia.
Qed.

Lemma sparse_add_at (m : list (Z * Z)) (k w : Z) :
  List.NoDup (map fst m) ->
  sizes_at c (sparse_add m k w)
  = if k =? c then size_t_wrap (sizes_at c m + w) else sizes_at c m.
Proof.
  induction m as [|[k' x] m IH]; intros Hnd; cbn [sparse_add].
  - rewrite sizes_at_cons. change (sizes_at c []) with 0.
    destruct (Z.eqb_spec k c); [rewrite Z.add_0_r; reflexivity|reflexivity].
  - simpl in Hnd. apply NoDup_cons_iff in Hnd. destruct Hnd as [Hk Hnd].
    destruct (Z.eqb_spec k' k) as [->|Hne]; rewrite !sizes_at_cons.
    + destruct (Z.eqb_spec k c) as [->|Hkc]; [|reflexivity].
      rewrite (sizes_at_absent m Hk), !Z.add_0_r. reflexivity.
    + rewrite IH by exact Hnd.
      destruct (Z.eqb_spec k' c) as [->|Hk'c].
      * destruct (Z.eqb_spec k c) as [->|_]; [congruence|reflexivity].
      * destruct (Z.eqb_spec k c) as [->|_]; reflexivity.
Qed.

Variable hg : Hypergraph.

Abbreviation add_pin_size :=
  (fun (s : list (Z * Z)) (p : nat) => sparse_add s (communityID hg p) (nodeWeight hg p)).

Lemma community_sizes_spec (ps : list nat) :
  let sizes := fold_left add_pin_size ps [] in
  List.NoDup (map fst sizes)
  /\ size_t_wrap (sizes_below c sizes) = size_t_wrap (weight_below hg c ps)
  /\ sizes_at c sizes = size_t_wrap (weight_in hg c ps).
Proof.
  induction ps as [|p ps IH] using rev_ind.
  - simpl. split; [constructor|]. split; reflexivity.
  - destruct IH as (Hnd & Hb & Ha). cbv zeta. rewrite fold_left_app. simpl.
    split; [apply sparse_add_nodup; exact Hnd|]. split.
    + rewrite sparse_add_below. unfold weight_below. rewrite Zsum_app. simpl.
      rewrite Z.add_0_r.
      rewrite <- size_t_wrap_add_l, Hb, size_t_wrap_add_l. reflexivity.
    + rewrite sparse_add_at by exact Hnd. unfold weight_in. rewrite Zsum_app. simpl.
      rewrite Z.add_0_r. fold (weight_in hg c ps). rewrite Ha.
      destruct (communityID hg p =? c).
      * apply size_t_wrap_add_l.
      * rewrite Z.add_0_r. reflexivity.
Qed.

(** Lines 185-194 on the sizes that line 177 accumulated for the pins
    [ps]: the range of the community starts behind the weight of the pins
    of the communities below it, and its length is the weight of its own
    pins. *)
Lemma community_range_spec (ps : list nat) :
  community_range c (fold_left add_pin_size ps [])
  = (size_t_wrap (weight_below hg c ps), size_t_wrap (weight_in hg c ps)).
Proof.
  destruct (community_sizes_spec ps) as (Hnd & Hb & Ha).
  unfold community_range.
  change (0, 0) with (size_t_wrap 0, 0).
  rewrite community_range_fold; [|exact Hnd|left; reflexivity].
  rewrite !Z.add_0_l, Hb, Ha. reflexivity.
Qed.

End Ranges.

(** ** The loop over the hyperedges *)

Section Copy.
Variable hash_add : Z -> nat -> Z.
Variable kEdgeHashSeed : Z.
Variable hg : Hypergraph.
Variable c : Z.
Variable visited : list bool.
Variable m : gmap nat nat.

Lemma local_edges_length (start : nat) (copied : list nat) :
  length (local_edges hash_add kEdgeHashSeed hg m start copied) = length copied.
Proof.
  revert start. induction copied as [|he l IH]; intros start; simpl; [reflexivity|].
  rewrite IH. reflexivity.
Qed.

Lemma local_pins_app (l1 l2 : list nat) :
  local_pins hg m (l1 ++ l2) = local_pins hg m l1 ++ local_pins hg m l2.
Proof. unfold local_pins. apply flat_map_app. Qed.

Lemma local_edges_snoc (copied : list nat) (he : nat) :
  forall start,
    local_edges hash_add kEdgeHashSeed hg m start (copied ++ [he])
    = local_edges hash_add kEdgeHashSeed hg m start copied
      ++ [local_edge hash_add kEdgeHashSeed hg m
            (start + length (local_pins hg m copied)) he].
Proof.
  induction copied as [|he' l IH]; intros start; simpl.
  - rewrite Nat.add_0_r. reflexivity.
  - rewrite IH. fold (local_pins hg m l).
    replace (start + length (map (local_id m) (pins hg he') ++ local_pins hg m l))%nat
      with (start + length (pins hg he') + length (local_pins hg m l))%nat
      by (rewrite length_app, length_map; lia).
    reflexivity.
Qed.

(** Lines 171-179 for all pins of a hyperedge. *)
Lemma copy_pins_effect (num : nat) (ps : list nat) :
  forall (sub : Hypergraph) (sizes : list (Z * Z)) (idx : nat),
    let r := fold_left (copy_pin hash_add hg m num) ps (sub, sizes, idx) in
    _hyperedges r.1.1
      = alter (fun e => setHash (fold_left hash_add (map (local_id m) ps) (he_hash e))
                          (setSize (he_size e + length ps) e)) num (_hyperedges sub)
    /\ _incidence_array r.1.1 = _incidence_array sub ++ map (local_id m) ps
    /\ _num_hyperedges r.1.1 = _num_hyperedges sub
    /\ _num_hypernodes r.1.1 = _num_hypernodes sub
    /\ _hypernodes r.1.1 = _hypernodes sub
    /\ r.1.2 = fold_left (fun s p => sparse_add s (communityID hg p) (nodeWeight hg p))
                 ps sizes
    /\ r.2 = (idx + length ps)%nat.
Proof.
  induction ps as [|p ps IH]; intros sub sizes idx.
  - simpl. rewrite app_nil_r, Nat.add_0_r. repeat split; try reflexivity.
    symmetry. apply list_alter_id. intros e. destruct e. unfold setHash, setSize.
    simpl. f_equal. lia.
  - cbn [fold_left].
    set (sub1 := set_hyperedges
                   (alter (fun e => setHash (hash_add (he_hash e) (local_id m p))
                                      (incrementSize e)) num (_hyperedges sub)) sub).
    set (sub2 := set_incidence_array (_incidence_array sub1 ++ [local_id m p]) sub1).
    change (copy_pin hash_add hg m num (sub, sizes, idx) p)
      with (sub2, sparse_add sizes (communityID hg p) (nodeWeight hg p), S idx).
    destruct (IH sub2 (sparse_add sizes (communityID hg p) (nodeWeight hg p)) (S idx))
      as (H1 & H2 & H3 & H4 & H5 & H6 & H7).
    cbv zeta. rewrite H1, H2, H3, H4, H5, H6, H7. subst sub2 sub1. simpl.
    split.
    { rewrite list_alter_alter_eq. apply list_alter_ext; [|reflexivity].
      intros e _. destruct e. unfold setHash, setSize, incrementSize, compose.
      simpl. f_equal. lia. }
    split; [rewrite <- app_assoc; reflexivity|].
    repeat split; try reflexivity. lia.
Qed.

Lemma copy_edge_inv (cs0 : CommunitySubhypergraph) (copied : list nat)
  (st : ExtractState) (he : nat) :
  copy_inv hash_add kEdgeHashSeed hg c m cs0 copied st ->
  copy_inv hash_add kEdgeHashSeed hg c m cs0
    (if is_visited visited (initialNumNodes hg + he) then copied ++ [he] else copied)
    (copy_edge hash_add kEdgeHashSeed hg c visited m st he).
Proof.
  intros Inv. unfold copy_edge.
  destruct (is_visited visited (initialNumNodes hg + he)); [|exact Inv].
  match goal with
  | |- context [fold_left _ (pins hg he) (?s, ?z, ?i)] =>
      destruct (copy_pins_effect (ex_num_hyperedges st) (pins hg he) s z i)
        as (H1 & H2 & H3 & H4 & H5 & H6 & H7);
      destruct (fold_left (copy_pin hash_add hg m (ex_num_hyperedges st))
                  (pins hg he) (s, z, i)) as [[sub3 sizes] idx'] eqn:Hr
  end.
  simpl in H1, H2, H3, H4, H5, H6, H7.
  rewrite H6. rewrite community_range_spec.
  constructor; simpl.
  - rewrite length_app, (cp_num _ _ _ _ _ _ _ _ Inv). simpl. lia.
  - rewrite H7, local_pins_app, length_app, (cp_idx _ _ _ _ _ _ _ _ Inv).
    unfold local_pins at 2. simpl. rewrite app_nil_r, length_map. reflexivity.
  - rewrite H2, local_pins_app, (cp_inc _ _ _ _ _ _ _ _ Inv).
    unfold local_pins at 3. simpl. rewrite app_nil_r. reflexivity.
  - rewrite H1, (cp_edges _ _ _ _ _ _ _ _ Inv), local_edges_snoc.
    rewrite (cp_num _ _ _ _ _ _ _ _ Inv).
    rewrite <- (local_edges_length 0 copied).
    rewrite <- (Nat.add_0_r (length (local_edges hash_add kEdgeHashSeed hg m 0 copied))).
    rewrite !alter_app_r. f_equal. simpl. unfold local_edge, setHash, setSize, setFirstEntry.
    simpl. rewrite (cp_idx _ _ _ _ _ _ _ _ Inv). reflexivity.
  - rewrite H3, length_app, (cp_num_edges _ _ _ _ _ _ _ _ Inv). simpl. lia.
  - rewrite H4. apply (cp_num_nodes _ _ _ _ _ _ _ _ Inv).
  - rewrite H5. apply (cp_hypernodes _ _ _ _ _ _ _ _ Inv).
  - rewrite map_app, (cp_he _ _ _ _ _ _ _ _ Inv). simpl. unfold community_hyperedge.
    rewrite size_t_wrap_add_l, size_t_wrap_add_r. reflexivity.
  - apply (cp_hn _ _ _ _ _ _ _ _ Inv).
  - apply (cp_ref _ _ _ _ _ _ _ _ Inv).
  - apply (cp_id _ _ _ _ _ _ _ _ Inv).
  - apply (cp_hn_counter _ _ _ _ _ _ _ _ Inv).
  - apply (cp_pin_counter _ _ _ _ _ _ _ _ Inv).
Qed.

Lemma copy_edges_inv (cs0 : CommunitySubhypergraph) (l : list nat) :
  forall (copied : list nat) (st : ExtractState),
    copy_inv hash_add kEdgeHashSeed hg c m cs0 copied st ->
    copy_inv hash_add kEdgeHashSeed hg c m cs0
      (copied ++ filter (fun he => is_visited visited (initialNumNodes hg + he) = true) l)
      (fold_left (copy_edge hash_add kEdgeHashSeed hg c visited m) l st).
Proof.
  induction l as [|he l IH]; intros copied st Inv; simpl.
  - rewrite app_nil_r. exact Inv.
  - pose proof (copy_edge_inv cs0 copied st he Inv) as Inv1.
    rewrite filter_cons.
    destruct (decide (is_visited visited (initialNumNodes hg + he) = true)) as [Hv|Hv].
    + rewrite Hv in Inv1. apply IH in Inv1. rewrite <- app_assoc in Inv1. exact Inv1.
    + apply not_true_is_false in Hv. rewrite Hv in Inv1. apply IH. exact Inv1.
Qed.

End Copy.

(** ** The result of the extraction *)

Lemma sorted_filter {A : Type} (R : A -> A -> Prop) (P : A -> Prop)
  `{!forall x, Decision (P x)} (l : list A) :
  StronglySorted R l -> StronglySorted R (filter P l).
Proof.
  induction 1 as [|x l Hs IH Hx]; [constructor|].
  rewrite filter_cons. destruct (decide (P x)); [|exact IH].
  constructor; [exact IH|].
  apply List.Forall_forall. intros y Hy. rewrite List.Forall_forall in Hx.
  apply Hx. apply list_elem_of_In in Hy. apply list_elem_of_filter in Hy.
  apply list_elem_of_In. tauto.
Qed.

Lemma sorted_seq (s n : nat) : StronglySorted lt (seq s n).
Proof.
  revert s. induction n as [|n IH]; intros s; simpl; constructor; [apply IH|].
  apply List.Forall_forall. intros y Hy. apply in_seq in Hy. lia.
Qed.

Lemma sorted_lt_nodup (l : list nat) : StronglySorted lt l -> List.NoDup l.
Proof.
  induction 1 as [|x l Hs IH Hx]; constructor; [|exact IH].
  intros Hin. rewrite List.Forall_forall in Hx. specialize (Hx x Hin). lia.
Qed.

Lemma edges_sorted (hg : Hypergraph) : StronglySorted lt (edges hg).
Proof. unfold edges. apply sorted_filter. apply sorted_seq. Qed.

Lemma edges_bounded (hg : Hypergraph) (he : nat) :
  In he (edges hg) -> (he < initialNumEdges hg)%nat.
Proof.
  unfold edges. intros H. apply list_elem_of_In, list_elem_of_filter in H.
  destruct H as [_ H]. apply elem_of_seq in H. unfold initialNumEdges. lia.
Qed.

(** The part of the state that the first loop never changes. *)
Lemma visit_pin_shape (st : list bool * CommunitySubhypergraph) (p : nat) :
  subhypergraph (visit_pin st p).2 = subhypergraph st.2
  /\ subhypergraph_to_hypergraph_he (visit_pin st p).2
     = subhypergraph_to_hypergraph_he st.2.
Proof. unfold visit_pin. destruct (is_visited st.1 p); simpl; auto. Qed.

Lemma collect_community_shape (hg : Hypergraph) (c : Z) :
  subhypergraph (collect_community hg c).2 = empty_hypergraph
  /\ subhypergraph_to_hypergraph_he (collect_community hg c).2 = [].
Proof.
  unfold collect_community.
  set (P := fun st : list bool * CommunitySubhypergraph =>
              subhypergraph st.2 = empty_hypergraph
              /\ subhypergraph_to_hypergraph_he st.2 = []).
  assert (Hpins : forall ps st, P st -> P (fold_left visit_pin ps st)).
  { induction ps as [|p ps IH]; intros st Hst; simpl; [exact Hst|].
    apply IH. destruct (visit_pin_shape st p) as [H1 H2].
    destruct Hst as [H3 H4]. split; congruence. }
  assert (Hedges : forall hes st, P st -> P (fold_left (visit_edge hg) hes st)).
  { induction hes as [|he hes IH]; intros st Hst; simpl; [exact Hst|].
    apply IH. unfold visit_edge.
    destruct (is_visited st.1 (initialNumNodes hg + he)); [exact Hst|].
    apply (Hpins (pins hg he)) in Hst. exact Hst. }
  assert (Hnodes : forall hns st, P st -> P (fold_left (visit_node hg c) hns st)).
  { induction hns as [|hn hns IH]; intros st Hst; simpl; [exact Hst|].
    apply IH. unfold visit_node.
    destruct (communityID hg hn =? c); [|exact Hst]. apply Hedges. exact Hst. }
  apply Hnodes. split; reflexivity.
Qed.

Section Extract.
Variable hash_add : Z -> nat -> Z.
Variable kEdgeHashSeed : Z.
Variable hg : Hypergraph.
Variable c : Z.
Variable order : bool.

Abbreviation extracted :=
  (extractCommunityInducedSectionHypergraph hash_add kEdgeHashSeed hg c order).

Lemma extract_unfold :
  let cs := extracted in
  let m := (number_hypernodes (numbered_hypernodes hg c order)).1 in
  subhypergraph_to_hypergraph_hn cs = (numbered_hypernodes hg c order)
  /\ num_hn_not_in_community cs = num_hn_not_in_community (collect_community hg c).2
  /\ num_pins_not_in_community cs = num_pins_not_in_community (collect_community hg c).2
  /\ ((numbered_hypernodes hg c order) = [] ->
      subhypergraph_to_hypergraph_he cs = [] /\ subhypergraph cs = empty_hypergraph)
  /\ ((numbered_hypernodes hg c order) <> [] ->
      subhypergraph_to_hypergraph_he cs
        = map (community_hyperedge hg c) (copied_hyperedges hg c)
      /\ _hyperedges (subhypergraph cs)
         = local_edges hash_add kEdgeHashSeed hg m 0 (copied_hyperedges hg c)
           ++ [ {| he_begin := length (local_pins hg m (copied_hyperedges hg c));
                   he_size := 0; he_weight := 0; he_hash := kEdgeHashSeed;
                   he_valid := true |} ]
      /\ _incidence_array (subhypergraph cs) = local_pins hg m (copied_hyperedges hg c)
      /\ _num_hyperedges (subhypergraph cs) = length (copied_hyperedges hg c)
      /\ _num_hypernodes (subhypergraph cs) = length (numbered_hypernodes hg c order)
      /\ _num_pins (subhypergraph cs) = length (local_pins hg m (copied_hyperedges hg c))).
Proof.
  cbv zeta. unfold extractCommunityInducedSectionHypergraph, numbered_hypernodes,
    copied_hyperedges.
  destruct (collect_community_shape hg c) as [Hsub Hhe].
  destruct (collect_community hg c) as [visited cs0]. simpl in Hsub, Hhe. simpl.
  set (cs1 := if order then sortHypernodes cs0 else cs0).
  assert (Hcs1 : subhypergraph_to_hypergraph_hn cs1
                 = (if order then std_sort Nat.ltb (subhypergraph_to_hypergraph_hn cs0)
                    else subhypergraph_to_hypergraph_hn cs0)
                 /\ subhypergraph cs1 = empty_hypergraph
                 /\ subhypergraph_to_hypergraph_he cs1 = []
                 /\ num_hn_not_in_community cs1 = num_hn_not_in_community cs0
                 /\ num_pins_not_in_community cs1 = num_pins_not_in_community cs0).
  { subst cs1. destruct order; simpl; auto. }
  destruct Hcs1 as (Hmap & Hsub1 & Hhe1 & Hc1 & Hc2). rewrite <- Hmap.
  pose proof (number_hypernodes_spec (subhypergraph_to_hypergraph_hn cs1)) as (Hnum & _).
  destruct (number_hypernodes (subhypergraph_to_hypergraph_hn cs1)) as [m num] eqn:Hm.
  simpl in Hnum. simpl.
  destruct (Nat.ltb_spec 0 num) as [Hpos|Hzero].
  - set (cs2 := set_subhypergraph (resize_hypernodes num (subhypergraph cs1)) cs1).
    assert (Inv0 : copy_inv hash_add kEdgeHashSeed hg c m cs2 []
                     {| ex_cs := cs2; ex_num_hyperedges := 0; ex_pin_index := 0 |}).
    { constructor; simpl; try reflexivity; rewrite ?Hsub1; try reflexivity. exact Hhe1. }
    pose proof (copy_edges_inv hash_add kEdgeHashSeed hg c visited m cs2 (edges hg) [] _ Inv0)
      as Inv.
    simpl in Inv.
    set (st := fold_left (copy_edge hash_add kEdgeHashSeed hg c visited m) (edges hg) _) in *.
    simpl.
    split; [apply (cp_hn _ _ _ _ _ _ _ _ Inv)|].
    split; [rewrite (cp_hn_counter _ _ _ _ _ _ _ _ Inv); exact Hc1|].
    split; [rewrite (cp_pin_counter _ _ _ _ _ _ _ _ Inv); exact Hc2|].
    split.
    { intros Hnil. rewrite Hnil in Hnum. simpl in Hnum. lia. }
    intros _.
    split; [apply (cp_he _ _ _ _ _ _ _ _ Inv)|].
    rewrite (cp_edges _ _ _ _ _ _ _ _ Inv), (cp_inc _ _ _ _ _ _ _ _ Inv),
      (cp_idx _ _ _ _ _ _ _ _ Inv), (cp_num_edges _ _ _ _ _ _ _ _ Inv),
      (cp_num_nodes _ _ _ _ _ _ _ _ Inv).
    repeat (split; [reflexivity|]). split; [|reflexivity].
    subst cs2. simpl. exact Hnum.
  - assert (Hnil : subhypergraph_to_hypergraph_hn cs1 = []).
    { destruct (subhypergraph_to_hypergraph_hn cs1); [reflexivity|simpl in Hnum; lia]. }
    split; [reflexivity|]. split; [exact Hc1|]. split; [exact Hc2|].
    split; [auto|]. intros Hne. congruence.
Qed.

Lemma numbered_hypernodes_perm :
  Permutation (numbered_hypernodes hg c order)
    (subhypergraph_to_hypergraph_hn (collect_community hg c).2).
Proof.
  unfold numbered_hypernodes. destruct order; [apply std_sort_perm|reflexivity].
Qed.

Lemma foreign_count_perm (l1 l2 : list nat) :
  Permutation l1 l2 -> foreign_count hg c l1 = foreign_count hg c l2.
Proof. apply Zsum_perm. Qed.

Hypothesis Hrange : pins_in_range hg.

(** What the first loop has collected. *)
Lemma collected_facts :
  exists visited_edges,
    (forall he, In he visited_edges <-> incident_to_community hg c he)
    /\ List.NoDup (numbered_hypernodes hg c order)
    /\ (forall p, In p (numbered_hypernodes hg c order)
                  <-> exists he, In he visited_edges /\ In p (pins hg he))
    /\ (forall he, (he < initialNumEdges hg)%nat ->
          (is_visited (collect_community hg c).1 (initialNumNodes hg + he) = true
           <-> In he visited_edges))
    /\ (Forall (fun he => (he < initialNumEdges hg)%nat) visited_edges ->
        List.NoDup visited_edges)
    /\ num_hn_not_in_community (collect_community hg c).2
       = size_t_wrap (foreign_count hg c (numbered_hypernodes hg c order))
    /\ num_pins_not_in_community (collect_community hg c).2
       = size_t_wrap (Zsum (fun he => foreign_count hg c (pins hg he)) visited_edges).
Proof.
  destruct (collect_community_inv hg c Hrange) as (d & Inv & Hd).
  pose proof numbered_hypernodes_perm as Hperm.
  exists d. split; [exact Hd|].
  split; [eapply Permutation_NoDup; [symmetry; exact Hperm|apply (ci_nodup _ _ _ _ Inv)]|].
  split.
  { intros p. split.
    - intros Hp. apply (ci_origin _ _ _ _ Inv).
      eapply Permutation_in; [exact Hperm|exact Hp].
    - intros (he & Hhe & Hp). eapply Permutation_in; [symmetry; exact Hperm|].
      eapply (ci_pins _ _ _ _ Inv); eassumption. }
  split; [apply (ci_edges _ _ _ _ Inv)|].
  split; [apply (ci_once _ _ _ _ Inv)|].
  split; [|apply (ci_pin_counter _ _ _ _ Inv)].
  rewrite (ci_hn_counter _ _ _ _ Inv). f_equal. symmetry.
  apply foreign_count_perm. exact Hperm.
Qed.

(** The copied hyperedges are the enabled hyperedges that the first loop
    visited. *)
Lemma copied_hyperedges_spec (visited_edges : list nat) :
  (forall he, (he < initialNumEdges hg)%nat ->
     (is_visited (collect_community hg c).1 (initialNumNodes hg + he) = true
      <-> In he visited_edges)) ->
  StronglySorted lt (copied_hyperedges hg c)
  /\ forall he, In he (copied_hyperedges hg c) <-> In he (edges hg) /\ In he visited_edges.
Proof.
  intros Hv. unfold copied_hyperedges. split.
  - apply sorted_filter. apply edges_sorted.
  - intros he. rewrite <- !list_elem_of_In, list_elem_of_filter, !list_elem_of_In.
    split.
    + intros [H1 H2]. split; [exact H2|]. apply Hv; [apply edges_bounded; exact H2|exact H1].
    + intros [H1 H2]. split; [|exact H1]. apply Hv; [apply edges_bounded; exact H1|exact H2].
Qed.

End Extract.

(** ** The copied hyperedges inside the sub-hypergraph *)

Section LocalLayout.
Variable hash_add : Z -> nat -> Z.
Variable kEdgeHashSeed : Z.
Variable hg : Hypergraph.
Variable m : gmap nat nat.

Lemma local_edges_lookup (copied : list nat) :
  forall (k he start : nat),
    copied !! k = Some he ->
    local_edges hash_add kEdgeHashSeed hg m start copied !! k
    = Some (local_edge hash_add kEdgeHashSeed hg m
              (start + length (local_pins hg m (take k copied))) he).
Proof.
  induction copied as [|he0 l IH]; intros k he start Hk; [discriminate|].
  destruct k as [|k]; simpl in *.
  - injection Hk as <-. rewrite Nat.add_0_r. reflexivity.
  - rewrite (IH k he _ Hk). f_equal. f_equal.
    fold (local_pins hg m (take k l)). rewrite length_app, length_map. lia.
Qed.

Lemma local_pins_segment (copied : list nat) (k he : nat) :
  copied !! k = Some he ->
  take (length (pins hg he))
       (drop (length (local_pins hg m (take k copied))) (local_pins hg m copied))
  = map (local_id m) (pins hg he).
Proof.
  intros Hk. rewrite <- (take_drop_middle copied k he Hk) at 2.
  rewrite local_pins_app. rewrite drop_app_length.
  change (he :: drop (S k) copied) with ([he] ++ drop (S k) copied).
  rewrite local_pins_app. unfold local_pins at 1. simpl. rewrite app_nil_r.
  apply take_app_length'. symmetry. apply length_map.
Qed.

Lemma local_pins_take_S (copied : list nat) (k he : nat) :
  copied !! k = Some he ->
  length (local_pins hg m (take (S k) copied))
  = (length (local_pins hg m (take k copied)) + length (pins hg he))%nat.
Proof.
  intros Hk. rewrite (take_S_r _ _ _ Hk), local_pins_app, length_app.
  unfold local_pins at 2. simpl. rewrite app_nil_r, length_map. reflexivity.
Qed.

End LocalLayout.

Lemma Zsum_map {A B : Type} (f : B -> Z) (g : A -> B) (l : list A) :
  Zsum f (map g l) = Zsum (fun x => f (g x)) l.
Proof. induction l as [|x l IH]; simpl; [reflexivity|]. rewrite IH. reflexivity. Qed.

Lemma ltb_asym (a b : nat) : (a <? b)%nat = true -> (b <? a)%nat = false.
Proof. intros H. apply Nat.ltb_lt in H. apply Nat.ltb_ge. lia. Qed.

Lemma ltb_trans (a b c : nat) :
  (b <? a)%nat = false -> (c <? b)%nat = false -> (c <? a)%nat = false.
Proof. intros H1 H2. apply Nat.ltb_ge in H1, H2. apply Nat.ltb_ge. lia. Qed.

(** [std::sort] with [operator<] leaves distinct hypernodes in strictly
    increasing order. *)
Lemma std_sort_increasing (l : list nat) :
  List.NoDup l -> StronglySorted lt (std_sort Nat.ltb l).
Proof.
  intros Hnd.
  assert (Hs : StronglySorted (fun a b => (b <? a)%nat = false) (std_sort Nat.ltb l))
    by (apply std_sort_sorted; [exact ltb_asym|exact ltb_trans]).
  assert (Hnd' : List.NoDup (std_sort Nat.ltb l))
    by (eapply Permutation_NoDup; [symmetry; apply std_sort_perm|exact Hnd]).
  induction Hs as [|x s Hs IH Hx]; constructor.
  - apply IH. inversion Hnd'; assumption.
  - inversion Hnd' as [|? ? Hnotin _]; subst.
    apply List.Forall_forall. intros y Hy. rewrite List.Forall_forall in Hx.
    specialize (Hx y Hy). apply Nat.ltb_ge in Hx.
    assert (x <> y) by (intros ->; exact (Hnotin Hy)). lia.
Qed.

Section ExtractionTheorems.
Variable hash_add : Z -> nat -> Z.
Variable kEdgeHashSeed : Z.

Abbreviation extract :=
  (extractCommunityInducedSectionHypergraph hash_add kEdgeHashSeed).

(** X1.  The first loop of the extraction collects every hypernode once: the
    hypernodes of the sub-hypergraph are pairwise distinct, and they are
    exactly the pins of the hyperedges that are listed as incident to an
    enabled hypernode of the community. *)
Theorem collected_hypernodes (hg : Hypergraph) (c : Z) (order : bool) :
  pins_in_range hg ->
  let cs := extract hg c order in
  List.NoDup (subhypergraph_to_hypergraph_hn cs)
  /\ forall p, In p (subhypergraph_to_hypergraph_hn cs)
       <-> exists he, incident_to_community hg c he /\ In p (pins hg he).
Proof.
  intros Hrange cs.
  destruct (extract_unfold hash_add kEdgeHashSeed hg c order) as (Hmap & _).
  fold cs in Hmap. rewrite Hmap.
  destruct (collected_facts hg c order Hrange) as (d & Hd & Hnd & Hin & _).
  split; [exact Hnd|]. intros p. rewrite Hin. split.
  - intros (he & Hhe & Hp). exists he. split; [apply Hd; exact Hhe|exact Hp].
  - intros (he & Hhe & Hp). exists he. split; [apply Hd; exact Hhe|exact Hp].
Qed.

(** X2.  With [respect_order_of_hypernodes] the hypernodes of the sub-hypergraph
    are numbered in strictly increasing order of their original identifier;
    they are the same hypernodes as without the flag. *)
Theorem hypernodes_in_increasing_order (hg : Hypergraph) (c : Z) :
  pins_in_range hg ->
  StronglySorted lt (subhypergraph_to_hypergraph_hn (extract hg c true))
  /\ Permutation (subhypergraph_to_hypergraph_hn (extract hg c true))
       (subhypergraph_to_hypergraph_hn (extract hg c false)).
Proof.
  intros Hrange.
  destruct (extract_unfold hash_add kEdgeHashSeed hg c true) as (Ht & _).
  destruct (extract_unfold hash_add kEdgeHashSeed hg c false) as (Hf & _).
  rewrite Ht, Hf. unfold numbered_hypernodes. split.
  - apply std_sort_increasing.
    destruct (collected_facts hg c false Hrange) as (d & _ & Hnd & _).
    exact Hnd.
  - apply std_sort_perm.
Qed.

(** X3.  The numbering of lines 153-155 inverts the list of the collected
    hypernodes: the number of a collected hypernode is a position at which
    the list holds it, the position when the list has no duplicates; a
    hypernode that was not collected has no number and reads as 0. *)
Theorem numbering_round_trip (mapping : list nat) :
  let hypergraph_to_subhypergraph := (number_hypernodes mapping).1 in
  (number_hypernodes mapping).2 = length mapping
  /\ (forall p, In p mapping ->
        mapping !! local_id hypergraph_to_subhypergraph p = Some p)
  /\ (forall p, ~ In p mapping ->
        hypergraph_to_subhypergraph !! p = None
        /\ local_id hypergraph_to_subhypergraph p = 0%nat)
  /\ (List.NoDup mapping -> forall i p, mapping !! i = Some p ->
        local_id hypergraph_to_subhypergraph p = i).
Proof.
  destruct (number_hypernodes_spec mapping) as (Hnum & Hin & Hout & Hnd).
  cbv zeta. split; [exact Hnum|]. split; [|split].
  - intros p Hp. destruct (Hin p Hp) as (i & Hi & Hl).
    unfold local_id. rewrite Hi. exact Hl.
  - intros p Hp. unfold local_id. rewrite (Hout p Hp). auto.
  - intros Hnodup i p Hi. unfold local_id. rewrite (Hnd Hnodup i p Hi). reflexivity.
Qed.

(** Under [incidence_consistent] the hyperedges that the first loop visits
    are enabled hyperedges, each visited once, and the second loop copies
    exactly them. *)
Lemma copied_are_visited (hg : Hypergraph) (c : Z) (order : bool) :
  pins_in_range hg -> incidence_consistent hg ->
  exists visited_edges,
    Permutation visited_edges (copied_hyperedges hg c)
    /\ (forall he, In he visited_edges <-> incident_to_community hg c he)
    /\ (numbered_hypernodes hg c order = [] -> visited_edges = [])
    /\ num_pins_not_in_community (collect_community hg c).2
       = size_t_wrap (Zsum (fun he => foreign_count hg c (pins hg he)) visited_edges).
Proof.
  intros Hrange Hcons.
  destruct (collected_facts hg c order Hrange)
    as (d & Hd & Hnd & Hin & Hv & Honce & _ & Hpc).
  destruct (copied_hyperedges_spec hg c d Hv) as [Hsorted Hcopied].
  assert (Hedges : forall he, In he d -> In he (edges hg)).
  { intros he Hhe. apply Hd in Hhe. destruct Hhe as (hn & Hhn & _ & Hhe).
    apply (Hcons hn he Hhn Hhe). }
  exists d. split; [|split; [exact Hd|split; [|exact Hpc]]].
  - apply Permutation.NoDup_Permutation.
    + apply Honce. apply List.Forall_forall. intros he Hhe.
      apply edges_bounded. apply Hedges. exact Hhe.
    + apply sorted_lt_nodup. exact Hsorted.
    + intros he. rewrite Hcopied. split; [auto|tauto].
  - intros Hnil. destruct d as [|he d]; [reflexivity|exfalso].
    assert (Hhe : In he (he :: d)) by (left; reflexivity).
    pose proof Hhe as Hinc. apply Hd in Hinc. destruct Hinc as (hn & Hhn & _ & Hhe').
    destruct (Hcons hn he Hhn Hhe') as [_ Hpin].
    assert (Hnum : In hn (numbered_hypernodes hg c order))
      by (apply Hin; exists he; auto).
    rewrite Hnil in Hnum. exact Hnum.
Qed.

(** X4.  The two boundary counters count the hypernodes of the sub-hypergraph,
    and the pins of its hyperedges, that lie outside the community. *)
Theorem boundary_counters (hg : Hypergraph) (c : Z) (order : bool) :
  pins_in_range hg -> incidence_consistent hg ->
  let cs := extract hg c order in
  num_hn_not_in_community cs
    = size_t_wrap (foreign_count hg c (subhypergraph_to_hypergraph_hn cs))
  /\ num_pins_not_in_community cs
     = size_t_wrap (Zsum (fun ce => foreign_count hg c (pins hg (original_he ce)))
                      (subhypergraph_to_hypergraph_he cs)).
Proof.
  intros Hrange Hcons cs.
  destruct (extract_unfold hash_add kEdgeHashSeed hg c order)
    as (Hmap & Hc1 & Hc2 & Hempty & Hfull).
  fold cs in Hmap, Hc1, Hc2, Hempty, Hfull.
  destruct (collected_facts hg c order Hrange) as (_ & _ & _ & _ & _ & _ & Hhn & _).
  destruct (copied_are_visited hg c order Hrange Hcons) as (d & Hperm & _ & Hnil & Hpc).
  split; [rewrite Hc1, Hmap; exact Hhn|].
  rewrite Hc2, Hpc. f_equal.
  destruct (numbered_hypernodes hg c order) as [|x l] eqn:Hnum.
  - destruct (Hempty eq_refl) as [-> _]. rewrite (Hnil eq_refl). reflexivity.
  - destruct (Hfull ltac:(discriminate)) as (-> & _).
    rewrite Zsum_map. simpl. apply Zsum_perm. exact Hperm.
Qed.

(** X5.  The hyperedges of the sub-hypergraph are the hyperedges incident to an
    enabled hypernode of the community, in increasing order of their
    original identifier. *)
Theorem extracted_hyperedges (hg : Hypergraph) (c : Z) (order : bool) :
  pins_in_range hg -> incidence_consistent hg ->
  let cs := extract hg c order in
  StronglySorted lt (map original_he (subhypergraph_to_hypergraph_he cs))
  /\ (forall he, In he (map original_he (subhypergraph_to_hypergraph_he cs))
                 <-> incident_to_community hg c he)
  /\ initialNumEdges (subhypergraph cs) = length (subhypergraph_to_hypergraph_he cs).
Proof.
  intros Hrange Hcons cs.
  destruct (extract_unfold hash_add kEdgeHashSeed hg c order)
    as (_ & _ & _ & Hempty & Hfull).
  fold cs in Hempty, Hfull.
  destruct (copied_are_visited hg c order Hrange Hcons) as (d & Hperm & Hd & Hnil & _).
  destruct (collected_facts hg c order Hrange) as (d' & _ & _ & _ & Hv & _).
  destruct (copied_hyperedges_spec hg c d' Hv) as [Hsorted _].
  destruct (numbered_hypernodes hg c order) as [|x l] eqn:Hnum.
  - destruct (Hempty eq_refl) as [-> ->]. simpl.
    split; [constructor|]. split; [|reflexivity].
    intros he. rewrite <- Hd, (Hnil eq_refl). reflexivity.
  - destruct (Hfull ltac:(discriminate)) as (-> & _ & _ & Hn & _).
    rewrite map_map. simpl. rewrite map_id.
    split; [exact Hsorted|]. split.
    + intros he. rewrite <- Hd. split; intros H.
      * eapply Permutation_in; [symmetry; exact Hperm|exact H].
      * eapply Permutation_in; [exact Hperm|exact H].
    + unfold initialNumEdges. rewrite Hn, length_map. reflexivity.
Qed.

(** X6.  Every hyperedge of the sub-hypergraph is a copy of its original: its
    pins, translated back through [subhypergraph_to_hypergraph_hn], are the
    pins of the original hyperedge in their order; its weight is the
    weight of the original; it is enabled; its pins are hypernodes of the
    sub-hypergraph, and its hash accumulates them from the seed. *)
Theorem extracted_pins (hg : Hypergraph) (c : Z) (order : bool)
  (k : nat) (ce : CommunityHyperedge) :
  pins_in_range hg ->
  let cs := extract hg c order in
  subhypergraph_to_hypergraph_he cs !! k = Some ce ->
  map (fun p => subhypergraph_to_hypergraph_hn cs !!! p) (pins (subhypergraph cs) k)
    = pins hg (original_he ce)
  /\ edgeWeight (subhypergraph cs) k = edgeWeight hg (original_he ce)
  /\ he_valid (_hyperedges (subhypergraph cs) !!! k) = true
  /\ Forall (fun p => (p < initialNumNodes (subhypergraph cs))%nat)
            (pins (subhypergraph cs) k)
  /\ he_hash (_hyperedges (subhypergraph cs) !!! k)
     = fold_left hash_add (pins (subhypergraph cs) k) kEdgeHashSeed.
Proof.
  intros Hrange cs Hk.
  destruct (extract_unfold hash_add kEdgeHashSeed hg c order)
    as (Hmap & _ & _ & Hempty & Hfull).
  fold cs in Hmap, Hempty, Hfull.
  destruct (collected_facts hg c order Hrange) as (d & Hd & Hnd & Hin & Hv & _).
  destruct (copied_hyperedges_spec hg c d Hv) as [_ Hcopied].
  destruct (decide (numbered_hypernodes hg c order = [])) as [Hnil|Hne].
  { destruct (Hempty Hnil) as [He _]. rewrite He in Hk. discriminate. }
  destruct (Hfull Hne) as (He & Hedges & Hinc & _ & Hn & _).
  set (num := numbered_hypernodes hg c order) in *.
  set (m := (number_hypernodes num).1) in *.
  rewrite He in Hk. rewrite list_lookup_fmap in Hk. apply fmap_Some in Hk.
  destruct Hk as (he & Hhe & ->). simpl original_he.
  assert (Hedge : _hyperedges (subhypergraph cs) !!! k
                  = local_edge hash_add kEdgeHashSeed hg m
                      (0 + length (local_pins hg m (take k (copied_hyperedges hg c)))) he).
  { apply list_lookup_total_correct. rewrite Hedges. apply lookup_app_l_Some.
    apply local_edges_lookup. exact Hhe. }
  assert (Hpins : pins (subhypergraph cs) k = map (local_id m) (pins hg he)).
  { unfold pins. rewrite Hedge, Hinc. simpl. apply local_pins_segment. exact Hhe. }
  assert (Hlocal : forall p, In p (pins hg he) -> num !! local_id m p = Some p).
  { intros p Hp.
    assert (Hpn : In p num).
    { apply Hin. exists he. split; [|exact Hp].
      apply Hcopied. apply list_elem_of_In. eapply list_elem_of_lookup_2. exact Hhe. }
    destruct (number_hypernodes_spec num) as (_ & Hfound & _).
    destruct (Hfound p Hpn) as (i & Hi & Hl). unfold local_id. fold m in Hi.
    rewrite Hi. exact Hl. }
  rewrite Hpins, Hedge, Hmap. fold num.
  split.
  { rewrite map_map. rewrite <- (map_id (pins hg he)) at 2. apply map_ext_in.
    intros p Hp. apply list_lookup_total_correct. apply Hlocal. exact Hp. }
  split; [unfold edgeWeight; rewrite Hedge; reflexivity|].
  split; [reflexivity|]. split; [|reflexivity].
  apply List.Forall_forall. intros q Hq. apply in_map_iff in Hq.
  destruct Hq as (p & <- & Hp). unfold initialNumNodes. rewrite Hn.
  eapply lookup_lt_Some. apply Hlocal. exact Hp.
Qed.

(** The entries of [subhypergraph_to_hypergraph_he] are the ranges of
    [community_hyperedge]. *)
Lemma extracted_he_lookup (hg : Hypergraph) (c : Z) (order : bool)
  (k : nat) (ce : CommunityHyperedge) :
  subhypergraph_to_hypergraph_he (extract hg c order) !! k = Some ce ->
  exists he, ce = community_hyperedge hg c he.
Proof.
  intros Hk.
  destruct (extract_unfold hash_add kEdgeHashSeed hg c order)
    as (_ & _ & _ & Hempty & Hfull).
  destruct (decide (numbered_hypernodes hg c order = [])) as [Hnil|Hne].
  { destruct (Hempty Hnil) as [He _]. rewrite He in Hk. discriminate. }
  destruct (Hfull Hne) as (He & _).
  rewrite He in Hk. rewrite list_lookup_fmap in Hk. apply fmap_Some in Hk.
  destruct Hk as (he & _ & ->). exists he. reflexivity.
Qed.

(** X7.  The range that the extraction issues to its community inside a
    hyperedge starts behind the weight of the pins of the communities with
    a smaller identifier, and its length is the weight of the pins of the
    community itself; both are sums of hypernode weights, taken modulo
    2^64. *)
Theorem issued_ranges (hg : Hypergraph) (c : Z) (order : bool)
  (k : nat) (ce : CommunityHyperedge) :
  subhypergraph_to_hypergraph_he (extract hg c order) !! k = Some ce ->
  incidence_array_start ce
    = size_t_wrap (weight_below hg c (pins hg (original_he ce)))
  /\ incidence_array_end ce
     = size_t_wrap (weight_below hg c (pins hg (original_he ce))
                    + weight_in hg c (pins hg (original_he ce))).
Proof.
  intros Hk. destruct (extracted_he_lookup hg c order k ce Hk) as [he ->].
  split; reflexivity.
Qed.

End ExtractionTheorems.

Lemma scenario_hg_pins_in_range : pins_in_range scenario_hg.
Proof. unfold pins_in_range. simpl. repeat constructor. Qed.

Lemma weighted_hg_pins_in_range : pins_in_range weighted_hg.
Proof. unfold pins_in_range. simpl. repeat constructor. Qed.

Lemma scenario_hg_incidence_consistent : incidence_consistent scenario_hg.
Proof.
  intros hn he Hn He. vm_compute in Hn.
  repeat (destruct Hn as [<-|Hn];
          [vm_compute in He;
           repeat (destruct He as [<-|He]; [vm_compute; tauto|]); destruct He|]).
  destruct Hn.
Qed.

Lemma collected_hypernodes_witness :
  pins_in_range scenario_hg
  /\ let cs := example_extract scenario_hg 0 in
     List.NoDup (subhypergraph_to_hypergraph_hn cs)
     /\ forall p, In p (subhypergraph_to_hypergraph_hn cs)
          <-> exists he, incident_to_community scenario_hg 0 he
                         /\ In p (pins scenario_hg he).
Proof.
  split; [exact scenario_hg_pins_in_range|].
  exact (collected_hypernodes example_hash_add example_seed scenario_hg 0 false
           scenario_hg_pins_in_range).
Defined.

Lemma hypernodes_in_increasing_order_witness :
  pins_in_range weighted_hg
  /\ StronglySorted lt
       (subhypergraph_to_hypergraph_hn
          (extractCommunityInducedSectionHypergraph example_hash_add example_seed
             weighted_hg 1 true))
  /\ Permutation
       (subhypergraph_to_hypergraph_hn
          (extractCommunityInducedSectionHypergraph example_hash_add example_seed
             weighted_hg 1 true))
       (subhypergraph_to_hypergraph_hn (example_extract weighted_hg 1)).
Proof.
  split; [exact weighted_hg_pins_in_range|].
  exact (hypernodes_in_increasing_order example_hash_add example_seed weighted_hg 1
           weighted_hg_pins_in_range).
Defined.

Lemma boundary_counters_witness :
  pins_in_range scenario_hg /\ incidence_consistent scenario_hg
  /\ let cs := example_extract scenario_hg 0 in
     num_hn_not_in_community cs
       = size_t_wrap (foreign_count scenario_hg 0 (subhypergraph_to_hypergraph_hn cs))
     /\ num_pins_not_in_community cs
        = size_t_wrap
            (Zsum (fun ce => foreign_count scenario_hg 0 (pins scenario_hg (original_he ce)))
               (subhypergraph_to_hypergraph_he cs)).
Proof.
  split; [exact scenario_hg_pins_in_range|].
  split; [exact scenario_hg_incidence_consistent|].
  exact (boundary_counters example_hash_add example_seed scenario_hg 0 false
           scenario_hg_pins_in_range scenario_hg_incidence_consistent).
Defined.

Lemma extracted_hyperedges_witness :
  pins_in_range scenario_hg /\ incidence_consistent scenario_hg
  /\ let cs := example_extract scenario_hg 1 in
     StronglySorted lt (map original_he (subhypergraph_to_hypergraph_he cs))
     /\ (forall he, In he (map original_he (subhypergraph_to_hypergraph_he cs))
                    <-> incident_to_community scenario_hg 1 he)
     /\ initialNumEdges (subhypergraph cs) = length (subhypergraph_to_hypergraph_he cs).
Proof.
  split; [exact scenario_hg_pins_in_range|].
  split; [exact scenario_hg_incidence_consistent|].
  exact (extracted_hyperedges example_hash_add example_seed scenario_hg 1 false
           scenario_hg_pins_in_range scenario_hg_incidence_consistent).
Defined.

Lemma extracted_pins_witness :
  let cs := example_extract weighted_hg 1 in
  let ce := {| original_he := 0%nat; incidence_array_start := 2;
               incidence_array_end := 3 |} in
  pins_in_range weighted_hg
  /\ subhypergraph_to_hypergraph_he cs !! 0%nat = Some ce
  /\ map (fun p => subhypergraph_to_hypergraph_hn cs !!! p) (pins (subhypergraph cs) 0)
     = pins weighted_hg (original_he ce)
  /\ edgeWeight (subhypergraph cs) 0 = edgeWeight weighted_hg (original_he ce)
  /\ he_valid (_hyperedges (subhypergraph cs) !!! 0%nat) = true
  /\ Forall (fun p => (p < initialNumNodes (subhypergraph cs))%nat)
            (pins (subhypergraph cs) 0)
  /\ he_hash (_hyperedges (subhypergraph cs) !!! 0%nat)
     = fold_left example_hash_add (pins (subhypergraph cs) 0) example_seed.
Proof.
  cbv zeta. unfold example_extract.
  pose proof (extracted_pins example_hash_add example_seed weighted_hg 1 false 0
                {| original_he := 0%nat; incidence_array_start := 2;
                   incidence_array_end := 3 |} weighted_hg_pins_in_range) as H.
  cbv zeta in H.
  match type of H with ?A -> _ => assert (Hk : A) by (vm_compute; reflexivity) end.
  split; [exact weighted_hg_pins_in_range|]. split; [exact Hk|]. exact (H Hk).
Defined.

Lemma issued_ranges_witness :
  let ce := {| original_he := 0%nat; incidence_array_start := 2;
               incidence_array_end := 3 |} in
  subhypergraph_to_hypergraph_he (example_extract weighted_hg 1) !! 0%nat = Some ce
  /\ incidence_array_start ce
     = size_t_wrap (weight_below weighted_hg 1 (pins weighted_hg (original_he ce)))
  /\ incidence_array_end ce
     = size_t_wrap (weight_below weighted_hg 1 (pins weighted_hg (original_he ce))
                    + weight_in weighted_hg 1 (pins weighted_hg (original_he ce))).
Proof.
  cbv zeta. unfold example_extract.
  pose proof (issued_ranges example_hash_add example_seed weighted_hg 1 false 0
                {| original_he := 0%nat; incidence_array_start := 2;
                   incidence_array_end := 3 |}) as H.
  match type of H with ?A -> _ => assert (Hk : A) by (vm_compute; reflexivity) end.
  split; [exact Hk|]. exact (H Hk).
Defined.


(** The weights of the pins of a hyperedge, community by community. *)
Lemma weights_by_community (hg : Hypergraph) (c1 c2 : Z) (ps : list nat) :
  c1 < c2 ->
  Forall (fun p => 0 <= nodeWeight hg p) ps ->
  0 <= weight_below hg c1 ps
  /\ 0 <= weight_in hg c1 ps
  /\ weight_below hg c1 ps + weight_in hg c1 ps <= weight_below hg c2 ps
  /\ 0 <= weight_in hg c2 ps
  /\ weight_below hg c2 ps + weight_in hg c2 ps <= Zsum (nodeWeight hg) ps.
Proof.
  intros Hlt. unfold weight_below, weight_in.
  induction 1 as [|p ps Hp _ IH]; simpl; [lia|].
  destruct (Z.ltb_spec (communityID hg p) c1), (Z.eqb_spec (communityID hg p) c1),
    (Z.ltb_spec (communityID hg p) c2), (Z.eqb_spec (communityID hg p) c2); lia.
Qed.

Section RangeTheorems.
Variable hash_add : Z -> nat -> Z.
Variable kEdgeHashSeed : Z.

Abbreviation extract :=
  (extractCommunityInducedSectionHypergraph hash_add kEdgeHashSeed).

(** X8.  The ranges that two communities are issued inside the same hyperedge do
    not overlap: the range of the community with the smaller identifier
    ends before the range of the other one starts, and both lie within the
    weight of the pins of the hyperedge.  The weights of the pins are not
    negative, and their sum fits [size_t]. *)
Theorem ranges_do_not_overlap (hg : Hypergraph) (c1 c2 : Z) (o1 o2 : bool)
  (ce1 ce2 : CommunityHyperedge) :
  c1 < c2 ->
  In ce1 (subhypergraph_to_hypergraph_he (extract hg c1 o1)) ->
  In ce2 (subhypergraph_to_hypergraph_he (extract hg c2 o2)) ->
  original_he ce1 = original_he ce2 ->
  Forall (fun p => 0 <= nodeWeight hg p) (pins hg (original_he ce1)) ->
  Zsum (nodeWeight hg) (pins hg (original_he ce1)) < 2 ^ 64 ->
  0 <= incidence_array_start ce1 <= incidence_array_end ce1
  /\ incidence_array_end ce1 <= incidence_array_start ce2
  /\ incidence_array_start ce2 <= incidence_array_end ce2
  /\ incidence_array_end ce2 <= Zsum (nodeWeight hg) (pins hg (original_he ce1)).
Proof.
  intros Hlt H1 H2 Hsame Hw Hfit.
  apply list_elem_of_In, list_elem_of_lookup_1 in H1. destruct H1 as [k1 H1].
  apply list_elem_of_In, list_elem_of_lookup_1 in H2. destruct H2 as [k2 H2].
  destruct (extracted_he_lookup hash_add kEdgeHashSeed hg c1 o1 k1 ce1 H1) as [he1 ->].
  destruct (extracted_he_lookup hash_add kEdgeHashSeed hg c2 o2 k2 ce2 H2) as [he2 ->].
  simpl in Hsame, Hw, Hfit |- *. subst he2.
  destruct (weights_by_community hg c1 c2 _ Hlt Hw) as (A & B & C & D & E).
  unfold size_t_wrap, wrap.
  rewrite !Z.mod_small by lia. lia.
Qed.

(** X9.  In the sub-hypergraph the pin ranges of the hyperedges follow each
    other without a gap: the first starts at 0, every hyperedge ends where
    the next element of [_hyperedges] starts, and the closing element,
    which [setupInternalStructure] appends, starts at the end of the
    incidence array. *)
Theorem extracted_ranges_contiguous (hg : Hypergraph) (c : Z) (order : bool) :
  let sub := subhypergraph (extract hg c order) in
  ranges_ok sub
  /\ firstEntry (_hyperedges sub !!! 0%nat) = 0%nat
  /\ (forall k, (k < initialNumEdges sub)%nat ->
        firstEntry (_hyperedges sub !!! S k) = firstInvalidEntry (_hyperedges sub !!! k))
  /\ firstEntry (_hyperedges sub !!! initialNumEdges sub)
     = length (_incidence_array sub).
Proof.
  cbv zeta.
  destruct (extract_unfold hash_add kEdgeHashSeed hg c order)
    as (_ & _ & _ & Hempty & Hfull).
  destruct (decide (numbered_hypernodes hg c order = [])) as [Hnil|Hne].
  { destruct (Hempty Hnil) as [_ ->].
    split; [|repeat split];
      intros x Hx; unfold initialNumEdges in Hx; simpl in Hx; lia. }
  destruct (Hfull Hne) as (_ & Hedges & Hinc & Hnum & _).
  set (m := (number_hypernodes (numbered_hypernodes hg c order)).1) in *.
  set (copied := copied_hyperedges hg c) in *.
  set (sub := subhypergraph (extract hg c order)) in *.
  assert (Hbegin : forall j, (j <= length copied)%nat ->
            he_begin (_hyperedges sub !!! j) = length (local_pins hg m (take j copied))).
  { intros j Hj. rewrite Hedges.
    destruct (copied !! j) as [he|] eqn:Hhe.
    - erewrite list_lookup_total_correct;
        [|apply lookup_app_l_Some; apply local_edges_lookup; exact Hhe].
      reflexivity.
    - apply lookup_ge_None in Hhe. assert (j = length copied) as -> by lia.
      rewrite <- (local_edges_length hash_add kEdgeHashSeed hg m 0 copied) at 1.
      rewrite list_lookup_total_middle by reflexivity. simpl.
      rewrite firstn_all. reflexivity. }
  assert (Hsize : forall k he, copied !! k = Some he ->
            he_size (_hyperedges sub !!! k) = length (pins hg he)).
  { intros k he Hhe. rewrite Hedges.
    erewrite list_lookup_total_correct;
      [|apply lookup_app_l_Some; apply local_edges_lookup; exact Hhe].
    reflexivity. }
  assert (Hnext : forall k, (k < length copied)%nat ->
            firstEntry (_hyperedges sub !!! S k)
            = firstInvalidEntry (_hyperedges sub !!! k)).
  { intros k Hk. destruct (lookup_lt_is_Some_2 copied k Hk) as [he Hhe].
    unfold firstEntry, firstInvalidEntry.
    rewrite !Hbegin by lia. rewrite (Hsize k he Hhe).
    apply local_pins_take_S. exact Hhe. }
  assert (Hle : forall j, (length (local_pins hg m (take j copied))
                           <= length (local_pins hg m copied))%nat).
  { intros j. rewrite <- (take_drop j copied) at 2.
    rewrite local_pins_app, length_app. lia. }
  unfold initialNumEdges. rewrite Hnum.
  split; [|split; [|split]].
  - intros he Hhe. unfold initialNumEdges in Hhe. rewrite Hnum in Hhe.
    split; [|split].
    + rewrite Hedges, length_app, local_edges_length. simpl. lia.
    + rewrite Hnext by exact Hhe. lia.
    + unfold firstEntry. rewrite Hbegin by lia. rewrite Hinc. apply Hle.
  - unfold firstEntry. rewrite Hbegin by lia. reflexivity.
  - exact Hnext.
  - unfold firstEntry. rewrite Hbegin by lia. rewrite firstn_all, Hinc. reflexivity.
Qed.

End RangeTheorems.

Lemma ranges_do_not_overlap_witness :
  let ce1 := {| original_he := 0%nat; incidence_array_start := 0;
                incidence_array_end := 2 |} in
  let ce2 := {| original_he := 0%nat; incidence_array_start := 2;
                incidence_array_end := 3 |} in
  (In ce1 (subhypergraph_to_hypergraph_he (example_extract weighted_hg 0))
   /\ In ce2 (subhypergraph_to_hypergraph_he (example_extract weighted_hg 1))
   /\ Forall (fun p => 0 <= nodeWeight weighted_hg p) (pins weighted_hg (original_he ce1))
   /\ Zsum (nodeWeight weighted_hg) (pins weighted_hg (original_he ce1)) < 2 ^ 64)
  /\ 0 <= incidence_array_start ce1 <= incidence_array_end ce1
  /\ incidence_array_end ce1 <= incidence_array_start ce2
  /\ incidence_array_start ce2 <= incidence_array_end ce2
  /\ incidence_array_end ce2
     <= Zsum (nodeWeight weighted_hg) (pins weighted_hg (original_he ce1)).
Proof.
  cbv zeta. unfold example_extract.
  pose proof (ranges_do_not_overlap example_hash_add example_seed weighted_hg 0 1
                false false
                {| original_he := 0%nat; incidence_array_start := 0;
                   incidence_array_end := 2 |}
                {| original_he := 0%nat; incidence_array_start := 2;
                   incidence_array_end := 3 |} eq_refl) as H.
  match type of H with
  | ?A -> ?B -> _ -> ?C -> ?D -> _ =>
      assert (H1 : A) by (vm_compute; left; reflexivity);
      assert (H2 : B) by (vm_compute; left; reflexivity);
      assert (Hw : C) by (repeat constructor; vm_compute; discriminate);
      assert (Hfit : D) by (vm_compute; reflexivity)
  end.
  split; [tauto|]. exact (H H1 H2 eq_refl Hw Hfit).
Defined.


(** ** The frame of the merge *)

Lemma merge_frame_refl (hg : Hypergraph) : merge_frame hg hg.
Proof. constructor; auto. Qed.

Lemma merge_frame_trans (hg1 hg2 hg3 : Hypergraph) :
  merge_frame hg1 hg2 -> merge_frame hg2 hg3 -> merge_frame hg1 hg3.
Proof.
  intros F G. constructor.
  - rewrite (mf_num_hypernodes _ _ G). apply (mf_num_hypernodes _ _ F).
  - rewrite (mf_num_hyperedges _ _ G). apply (mf_num_hyperedges _ _ F).
  - rewrite (mf_num_pins _ _ G). apply (mf_num_pins _ _ F).
  - rewrite (mf_communities _ _ G). apply (mf_communities _ _ F).
  - rewrite (mf_hypernodes_length _ _ G). apply (mf_hypernodes_length _ _ F).
  - rewrite (mf_hyperedges_length _ _ G). apply (mf_hyperedges_length _ _ F).
  - rewrite (mf_incidence_length _ _ G). apply (mf_incidence_length _ _ F).
  - intros j. rewrite (mf_begin _ _ G). apply (mf_begin _ _ F).
  - intros j. etransitivity; [apply (mf_size _ _ G)|apply (mf_size _ _ F)].
  - intros j H. apply (mf_valid _ _ F). apply (mf_valid _ _ G). exact H.
Qed.


Lemma merge_frame_ranges_ok (hg hg' : Hypergraph) :
  merge_frame hg hg' -> ranges_ok hg -> ranges_ok hg'.
Proof.
  intros F Hok he Hhe. unfold initialNumEdges in Hhe.
  rewrite (mf_num_hyperedges _ _ F) in Hhe.
  destruct (Hok he Hhe) as (H1 & H2 & H3).
  unfold edge_range_ok, firstInvalidEntry, firstEntry in *.
  rewrite (mf_hyperedges_length _ _ F), (mf_incidence_length _ _ F), !(mf_begin _ _ F).
  pose proof (mf_size _ _ F he). lia.
Qed.

(** *** The pre-phase and phase 1 *)

Section Phase1Frame.
Variable id_bits : Z.


Lemma write_pins_length (community : CommunitySubhypergraph) (l : list nat) :
  forall st, length (fold_left (write_pin community) l st).1 = length st.1.
Proof.
  induction l as [|i l IH]; intros st; simpl; [reflexivity|].
  rewrite IH. unfold write_pin.
  destruct (_ =? _); simpl; [apply length_insert|reflexivity].
Qed.

Lemma alter_frame (f : Hyperedge -> Hyperedge) (i : nat) (hes : list Hyperedge) :
  (forall e, he_begin (f e) = he_begin e /\ he_size (f e) = he_size e
             /\ (he_valid (f e) = true -> he_valid e = true)) ->
  forall j, he_begin (alter f i hes !!! j) = he_begin (hes !!! j)
            /\ he_size (alter f i hes !!! j) = he_size (hes !!! j)
            /\ (he_valid (alter f i hes !!! j) = true -> he_valid (hes !!! j) = true).
Proof.
  intros Hf j. destruct (decide (i = j)) as [->|Hne].
  - destruct (Nat.lt_ge_cases j (length hes)) as [Hlt|Hge].
    + rewrite list_lookup_total_alter_eq by exact Hlt. apply Hf.
    + rewrite !list_lookup_total_alt, list_lookup_alter_eq.
      rewrite (lookup_ge_None_2 hes j Hge). auto.
  - rewrite list_lookup_total_alter_ne by exact Hne. auto.
Qed.

Lemma write_back_edge_frame (community : CommunitySubhypergraph)
  (hg : Hypergraph) (he : nat) :
  merge_frame hg (write_back_edge community hg he)
  /\ _hypernodes (write_back_edge community hg he) = _hypernodes hg.
Proof.
  unfold write_back_edge. cbv zeta. split; [|reflexivity].
  set (sub := subhypergraph community).
  set (oh := original_he (subhypergraph_to_hypergraph_he community !!! he)).
  assert (Hw : forall hes j,
    he_begin (update_weight sub he oh hes !!! j) = he_begin (hes !!! j)
    /\ he_size (update_weight sub he oh hes !!! j) = he_size (hes !!! j)
    /\ (he_valid (update_weight sub he oh hes !!! j) = true -> he_valid (hes !!! j) = true)).
  { intros hes j. unfold update_weight. destruct (_ <? _); [|auto].
    apply alter_frame. intros e. simpl. auto. }
  assert (Hd : forall hes j,
    he_begin (update_disabled sub he oh hes !!! j) = he_begin (hes !!! j)
    /\ he_size (update_disabled sub he oh hes !!! j) = he_size (hes !!! j)
    /\ (he_valid (update_disabled sub he oh hes !!! j) = true -> he_valid (hes !!! j) = true)).
  { intros hes j. unfold update_disabled. destruct (he_isDisabled _); [|auto].
    apply alter_frame. intros e. simpl. repeat split; auto. discriminate. }
  constructor; simpl; try reflexivity.
  - unfold update_disabled, update_weight.
    repeat match goal with |- context [if ?b then _ else _] => destruct b end;
      rewrite ?length_alter; reflexivity.
  - apply write_pins_length.
  - intros j. destruct (Hd (update_weight sub he oh (_hyperedges hg)) j) as (-> & _).
    apply Hw.
  - intros j. destruct (Hd (update_weight sub he oh (_hyperedges hg)) j) as (_ & -> & _).
    destruct (Hw (_hyperedges hg) j) as (_ & -> & _). reflexivity.
  - intros j H. apply Hd in H. apply Hw in H. exact H.
Qed.

Lemma write_back_nets_frame (community : CommunitySubhypergraph) (nets : list nat) :
  forall st,
    merge_frame (ts_hypergraph st)
      (ts_hypergraph (fold_left (write_back_net community) nets st))
    /\ _hypernodes (ts_hypergraph (fold_left (write_back_net community) nets st))
       = _hypernodes (ts_hypergraph st)
    /\ ts_incident_nets (fold_left (write_back_net community) nets st)
       = ts_incident_nets st
         ++ map (fun he => original_he (subhypergraph_to_hypergraph_he community !!! he))
                nets.
Proof.
  induction nets as [|he nets IH]; intros st; simpl.
  - rewrite app_nil_r. split; [apply merge_frame_refl|auto].
  - destruct (IH (write_back_net community st he)) as (F & Hn & Hnets).
    assert (Hstep : merge_frame (ts_hypergraph st)
                      (ts_hypergraph (write_back_net community st he))
                    /\ _hypernodes (ts_hypergraph (write_back_net community st he))
                       = _hypernodes (ts_hypergraph st)
                    /\ ts_incident_nets (write_back_net community st he)
                       = ts_incident_nets st
                         ++ [original_he (subhypergraph_to_hypergraph_he community !!! he)]).
    { unfold write_back_net. destruct (is_visited (ts_visited st) he); simpl.
      - split; [apply merge_frame_refl|auto].
      - destruct (write_back_edge_frame community (ts_hypergraph st) he) as [F' Hn'].
        auto. }
    destruct Hstep as (F1 & Hn1 & Hnets1).
    split; [eapply merge_frame_trans; eassumption|].
    split; [congruence|]. rewrite Hnets, Hnets1, <- app_assoc. reflexivity.
Qed.

(** Lines 241-299 for one local hypernode of the community: the original
    hypernode is overwritten, no other is touched. *)
Lemma write_back_node_effect (community : CommunitySubhypergraph)
  (st : Hypergraph * list bool) (hn : nat) :
  let sub := subhypergraph community in
  merge_frame st.1 (write_back_node community st hn).1
  /\ _hypernodes (write_back_node community st hn).1
     = if _communities sub !!! hn =? community_id community
       then <[subhypergraph_to_hypergraph_hn community !!! hn :=
                {| hn_incident_nets :=
                     map (fun he => original_he
                                      (subhypergraph_to_hypergraph_he community !!! he))
                         (hn_incident_nets (_hypernodes sub !!! hn));
                   hn_weight := hn_weight (_hypernodes sub !!! hn);
                   hn_valid := hn_valid (_hypernodes sub !!! hn) |}]>
              (_hypernodes st.1)
       else _hypernodes st.1.
Proof.
  cbv zeta. unfold write_back_node.
  destruct (_ =? _); [|split; [apply merge_frame_refl|reflexivity]].
  match goal with
  | |- context [fold_left (write_back_net community) ?nets ?s] =>
      destruct (write_back_nets_frame community nets s) as (F & Hn & Hnets)
  end.
  simpl in F, Hn, Hnets. simpl. split.
  - eapply merge_frame_trans; [exact F|].
    constructor; simpl; auto. apply length_insert.
  - rewrite Hn, Hnets. unfold hn_isDisabled. rewrite negb_involutive. reflexivity.
Qed.



End Phase1Frame.

(** *** Phase 3 *)

Section Phase3Frame.
Variable hash_add : Z -> nat -> Z.
Variable kEdgeHashSeed : Z.
Variable ci : list Z.

Abbreviation step3' := (create_contraction_hierarchy_he hash_add kEdgeHashSeed ci).

Lemma step_merge_frame (hg : Hypergraph) (k : nat) :
  edge_range_ok hg k ->
  merge_frame hg (step3' hg k)
  /\ _hypernodes (step3' hg k) = _hypernodes hg
  /\ forall j, he_valid (_hyperedges (step3' hg k) !!! j) = he_valid (_hyperedges hg !!! j)
               /\ he_weight (_hyperedges (step3' hg k) !!! j)
                  = he_weight (_hyperedges hg !!! j).
Proof.
  intros Hok.
  pose proof (step_frame_holds hash_add kEdgeHashSeed ci hg k Hok) as F.
  destruct (create_contraction_hierarchy_he_effect hash_add kEdgeHashSeed ci hg k Hok)
    as (kept & removed & e' & _ & _ & _ & _ & _ & Hw & Hv & _ & Hrun).
  assert (Hfields : forall j,
            he_valid (_hyperedges (step3' hg k) !!! j) = he_valid (_hyperedges hg !!! j)
            /\ he_weight (_hyperedges (step3' hg k) !!! j)
               = he_weight (_hyperedges hg !!! j)).
  { intros j. destruct (decide (j = k)) as [->|Hne].
    - rewrite Hrun. simpl. destruct Hok as (Hlen & _).
      rewrite list_lookup_total_insert_eq by lia. auto.
    - rewrite (sf_other_edges _ _ _ F j Hne). auto. }
  split; [|split; [apply (sf_hypernodes _ _ _ F)|exact Hfields]].
  constructor.
  - rewrite Hrun. reflexivity.
  - apply (sf_num_edges _ _ _ F).
  - rewrite Hrun. reflexivity.
  - rewrite Hrun. reflexivity.
  - rewrite (sf_hypernodes _ _ _ F). reflexivity.
  - apply (sf_edges_length _ _ _ F).
  - apply (sf_length _ _ _ F).
  - intros j. destruct (decide (j = k)) as [->|Hne].
    + apply (sf_begin _ _ _ F).
    + rewrite (sf_other_edges _ _ _ F j Hne). reflexivity.
  - intros j. destruct (decide (j = k)) as [->|Hne].
    + apply (sf_size _ _ _ F).
    + rewrite (sf_other_edges _ _ _ F j Hne). reflexivity.
  - intros j H. destruct (Hfields j) as [<- _]. exact H.
Qed.

Lemma steps_merge_frame (ks : list nat) :
  forall hg : Hypergraph,
    ranges_ok hg ->
    Forall (fun k => (k < initialNumEdges hg)%nat) ks ->
    let hg' := fold_left step3' ks hg in
    merge_frame hg hg'
    /\ _hypernodes hg' = _hypernodes hg
    /\ forall j, he_valid (_hyperedges hg' !!! j) = he_valid (_hyperedges hg !!! j)
                 /\ he_weight (_hyperedges hg' !!! j) = he_weight (_hyperedges hg !!! j).
Proof.
  induction ks as [|k ks IH]; intros hg Hok Hks; simpl.
  - split; [apply merge_frame_refl|auto].
  - apply List.Forall_cons_iff in Hks. destruct Hks as [Hk Hks].
    destruct (step_merge_frame hg k (Hok k Hk)) as (F1 & Hn1 & Hf1).
    destruct (IH (step3' hg k)) as (F2 & Hn2 & Hf2).
    + eapply merge_frame_ranges_ok; eassumption.
    + unfold initialNumEdges. rewrite (mf_num_hyperedges _ _ F1). exact Hks.
    + split; [eapply merge_frame_trans; eassumption|].
      split; [congruence|].
      intros j. destruct (Hf1 j) as [<- <-]. apply Hf2.
Qed.

Lemma phase3_merge_frame (pool : ThreadPool) (hg : Hypergraph) :
  ranges_ok hg -> (0 < pool_size pool)%nat ->
  let hg' := phase3 hash_add kEdgeHashSeed pool ci hg in
  merge_frame hg hg'
  /\ _hypernodes hg' = _hypernodes hg
  /\ forall j, he_valid (_hyperedges hg' !!! j) = he_valid (_hyperedges hg !!! j)
               /\ he_weight (_hyperedges hg' !!! j) = he_weight (_hyperedges hg !!! j).
Proof.
  intros Hok Hpos. cbv zeta. rewrite phase3_as_fold by exact Hpos.
  apply steps_merge_frame; [exact Hok|].
  apply List.Forall_forall. intros k Hk. apply in_seq in Hk. lia.
Qed.

End Phase3Frame.

(** ** Properties of the merge *)

(** X10.  The work of phase 2 and of phase 3 is split so that every position is
    handed out exactly once and in order: the ranges of [split_ranges]
    follow each other from 0 to [total].  There is one range for every
    worker when each worker gets at least one position and the pool has
    more than one worker, and a single range (the sequential call)
    otherwise. *)
Theorem split_ranges_partition (num_threads total : nat) :
  (0 < num_threads)%nat ->
  flat_map (fun r : nat * nat => seq r.1 (r.2 - r.1)) (split_ranges num_threads total)
  = seq 0 total
  /\ Forall (fun r : nat * nat => (r.1 <= r.2 <= total)%nat)
            (split_ranges num_threads total)
  /\ length (split_ranges num_threads total)
     = if ((num_threads <=? total) && negb (num_threads =? 1))%nat
       then num_threads else 1%nat.
Proof.
  intros Hpos. split; [apply split_ranges_tile; exact Hpos|].
  unfold split_ranges.
  assert (Hstep : (1 <=? total / num_threads)%nat = (num_threads <=? total)%nat).
  { destruct (Nat.leb_spec num_threads total) as [Hle|Hgt].
    - apply Nat.leb_le. apply Nat.div_str_pos. lia.
    - apply Nat.leb_gt. rewrite Nat.div_small by lia. lia. }
  rewrite Hstep.
  assert (Hfit : (num_threads * (total / num_threads) <= total)%nat)
    by apply Nat.Div0.mul_div_le.
  destruct ((num_threads <=? total)%nat && negb (num_threads =? 1)%nat).
  - split; [|rewrite length_map, length_seq; reflexivity].
    apply List.Forall_forall. intros r Hr. apply in_map_iff in Hr.
    destruct Hr as (i & <- & Hi). apply in_seq in Hi. simpl.
    destruct (Nat.eqb_spec i (num_threads - 1)); nia.
  - split; [|reflexivity]. repeat constructor; simpl; lia.
Qed.

Lemma split_ranges_partition_witness :
  flat_map (fun r : nat * nat => seq r.1 (r.2 - r.1)) (split_ranges 3 10) = seq 0 10
  /\ Forall (fun r : nat * nat => (r.1 <= r.2 <= 10)%nat) (split_ranges 3 10)
  /\ length (split_ranges 3 10) = 3%nat.
Proof. apply (split_ranges_partition 3 10). lia. Defined.


Section MergeTheorems.
Variable hash_add : Z -> nat -> Z.
Variable kEdgeHashSeed : Z.
Variable id_bits : Z.

Abbreviation merge :=
  (mergeCommunityInducedSectionHypergraphs hash_add kEdgeHashSeed id_bits).

(** X11.  When the tasks of a phase are run in the order of their submission,
    the merged hypergraph does not depend on the number of workers. *)
Theorem merge_independent_of_pool_size (pool1 pool2 : ThreadPool) (hg : Hypergraph)
  (communities : list CommunitySubhypergraph) (history : list ContractionMemento) :
  (0 < pool_size pool1)%nat -> (0 < pool_size pool2)%nat ->
  merge pool1 hg communities history = merge pool2 hg communities history.
Proof.
  intros H1 H2. unfold mergeCommunityInducedSectionHypergraphs. cbv zeta.
  rewrite !phase3_as_fold by assumption.
  rewrite !phase2_writes_run, !phase2_writes_all by assumption. reflexivity.
Qed.


(** X13.  After phase 3 the hash of every hyperedge is the seed to which the
    hashes of its active pins were added in the order in which the pins are
    stored; all its active pins are enabled hypernodes; weight and enabled
    flag of the hyperedge are those from before the phase. *)
Theorem phase3_rebuilds_hash (pool : ThreadPool) (contraction_index : list Z)
  (hg : Hypergraph) (he : nat) :
  ranges_ok hg -> (0 < pool_size pool)%nat -> (he < initialNumEdges hg)%nat ->
  let hg' := phase3 hash_add kEdgeHashSeed pool contraction_index hg in
  he_hash (_hyperedges hg' !!! he) = fold_left hash_add (pins hg' he) kEdgeHashSeed
  /\ Forall (pin_enabled (_hypernodes hg')) (pins hg' he)
  /\ he_weight (_hyperedges hg' !!! he) = he_weight (_hyperedges hg !!! he)
  /\ he_valid (_hyperedges hg' !!! he) = he_valid (_hyperedges hg !!! he).
Proof.
  intros Hok Hpos Hhe hg'.
  destruct (phase3_edge hash_add kEdgeHashSeed contraction_index pool hg he Hok Hpos Hhe)
    as (kept & removed & _ & Hk & _ & Hpins & _ & Hw & Hv & Hh).
  destruct (phase3_merge_frame hash_add kEdgeHashSeed contraction_index pool hg Hok Hpos)
    as (_ & Hn & _).
  fold hg' in Hpins, Hw, Hv, Hh, Hn. rewrite Hpins, Hn. auto.
Qed.

End MergeTheorems.


Lemma merge_independent_of_pool_size_witness :
  example_merge 1 scenario_hg scenario_communities example_history
  = example_merge 4 scenario_hg scenario_communities example_history.
Proof.
  apply (merge_independent_of_pool_size example_hash_add example_seed 32
           {| pool_size := 1 |} {| pool_size := 4 |}); simpl; lia.
Defined.


Lemma phase3_rebuilds_hash_witness :
  let hg' := example_phase3 1 compaction_hg compaction_history in
  he_hash (_hyperedges hg' !!! 0%nat)
    = fold_left example_hash_add (pins hg' 0) example_seed
  /\ Forall (pin_enabled (_hypernodes hg')) (pins hg' 0)
  /\ he_weight (_hyperedges hg' !!! 0%nat) = he_weight (_hyperedges compaction_hg !!! 0%nat)
  /\ he_valid (_hyperedges hg' !!! 0%nat) = he_valid (_hyperedges compaction_hg !!! 0%nat).
Proof.
  apply (phase3_rebuilds_hash example_hash_add example_seed {| pool_size := 1 |}
           (phase2 {| pool_size := 1 |} compaction_hg compaction_history)
           compaction_hg 0).
  - exact compaction_hg_ranges_ok.
  - simpl. lia.
  - vm_compute. lia.
Defined.


(** ** Phase 1: what a task writes *)

Lemma lookup_segment (v : list nat) (a b : nat) :
  (a <= b <= length v)%nat ->
  map (fun i => v !!! i) (seq a (b - a)) = segment v a b.
Proof.
  intros H. unfold segment. apply list_eq. intros i.
  rewrite list_lookup_fmap.
  destruct (Nat.lt_ge_cases i (b - a)) as [Hlt|Hge].
  - rewrite lookup_seq_lt by exact Hlt. simpl.
    rewrite lookup_take_lt by exact Hlt. rewrite lookup_drop.
    symmetry. apply list_lookup_lookup_total_lt. lia.
  - rewrite lookup_seq_ge by exact Hge. simpl. symmetry.
    apply lookup_ge_None. rewrite length_take. lia.
Qed.

Section WrittenPins.
Variable community : CommunitySubhypergraph.

Abbreviation in_community :=
  (fun p : nat => _communities (subhypergraph community) !!! p = community_id community).

(** Lines 265-276: the pins of the community are stored one behind the
    other, from position [pos] on; no other position is touched. *)
Lemma write_pins_effect (l : list nat) :
  forall (inc : list nat) (pos : Z),
    0 <= pos ->
    (Z.to_nat pos + length (own_pins_at community l) <= length inc)%nat ->
    Z.of_nat (length inc) < 2 ^ 64 ->
    fold_left (write_pin community) l (inc, pos)
    = (take (Z.to_nat pos) inc ++ own_pins_at community l
         ++ drop (Z.to_nat pos + length (own_pins_at community l)) inc,
       pos + Z.of_nat (length (own_pins_at community l))).
Proof.
  induction l as [|i l IH]; intros inc pos Hpos Hfit Hlen.
  - simpl. unfold own_pins_at. simpl. rewrite Nat.add_0_r, Z.add_0_r, take_drop.
    reflexivity.
  - cbn [fold_left]. unfold write_pin at 2. cbn [fst snd].
    unfold own_pins_at in *. cbn [map] in *. rewrite filter_cons in *.
    set (p := _incidence_array (subhypergraph community) !!! i) in *.
    destruct (Z.eqb_spec (_communities (subhypergraph community) !!! p)
                (community_id community)) as [Hin|Hout].
    + destruct (decide (_communities (subhypergraph community) !!! p
                        = community_id community)) as [_|Hno]; [|contradiction].
      cbn [map length] in *.
      set (x := subhypergraph_to_hypergraph_hn community !!! p) in *.
      set (own := map _ (filter _ _)) in *.
      assert (Hwrap : size_t_wrap (pos + 1) = pos + 1).
      { unfold size_t_wrap, wrap. apply Z.mod_small. lia. }
      rewrite Hwrap. rewrite IH.
      * rewrite ?length_insert.
        replace (Z.to_nat (pos + 1)) with (S (Z.to_nat pos)) by lia.
        apply pair_equal_spec. split; [|lia].
        assert (Hx : <[Z.to_nat pos := x]> inc !! Z.to_nat pos = Some x)
          by (apply list_lookup_insert_eq; lia).
        rewrite (take_S_r _ _ _ Hx), take_insert_ge by lia.
        rewrite drop_insert_lt by lia.
        rewrite <- app_assoc. simpl.
        replace (Z.to_nat pos + S (length own))%nat
          with (S (Z.to_nat pos) + length own)%nat by lia.
        reflexivity.
      * lia.
      * rewrite length_insert. lia.
      * rewrite length_insert. exact Hlen.
    + destruct (decide (_communities (subhypergraph community) !!! p
                        = community_id community)) as [Hyes|_]; [contradiction|].
      apply IH; assumption.
Qed.

End WrittenPins.

(** X14.  A task of phase 1 stores the pins of its community that lie in the
    range of the local hyperedge, active or not, translated to the
    original hypernodes and in their order, into the incidence array of the
    original hypergraph, from the position [incidence_array_start] of the
    range of the original hyperedge on; every other position keeps its
    pin. *)
Theorem written_pins (community : CommunitySubhypergraph) (hg : Hypergraph) (he : nat) :
  let sub := subhypergraph community in
  let ce := subhypergraph_to_hypergraph_he community !!! he in
  let own :=
    map (fun p => subhypergraph_to_hypergraph_hn community !!! p)
        (filter (fun p => _communities sub !!! p = community_id community)
                (edge_range sub he)) in
  let pos := (firstEntry (_hyperedges hg !!! original_he ce)
              + Z.to_nat (incidence_array_start ce))%nat in
  (firstEntry (_hyperedges sub !!! he) <= firstEntry (_hyperedges sub !!! S he)
   <= length (_incidence_array sub))%nat ->
  0 <= incidence_array_start ce ->
  (pos + length own <= length (_incidence_array hg))%nat ->
  Z.of_nat (length (_incidence_array hg)) < 2 ^ 64 ->
  _incidence_array (write_back_edge community hg he)
  = take pos (_incidence_array hg) ++ own ++ drop (pos + length own) (_incidence_array hg).
Proof.
  intros sub ce own pos Hsub Hstart Hfit Hlen.
  unfold write_back_edge. cbv zeta. simpl _incidence_array.
  fold sub. fold ce.
  assert (Hown : own_pins_at community
                   (seq (firstEntry (_hyperedges sub !!! he))
                        (firstEntry (_hyperedges sub !!! S he)
                         - firstEntry (_hyperedges sub !!! he)))
                 = own).
  { unfold own_pins_at. fold sub. rewrite lookup_segment by exact Hsub. reflexivity. }
  assert (Hpos : size_t_wrap (Z.of_nat (firstEntry (_hyperedges hg !!! original_he ce))
                              + incidence_array_start ce)
                 = Z.of_nat pos).
  { unfold size_t_wrap, wrap. rewrite Z.mod_small; subst pos; lia. }
  rewrite Hpos. rewrite write_pins_effect.
  - simpl. rewrite Hown, Nat2Z.id. reflexivity.
  - lia.
  - rewrite Hown, Nat2Z.id. exact Hfit.
  - exact Hlen.
Qed.

Lemma written_pins_witness :
  let community := example_extract scenario_hg 1 in
  _incidence_array (write_back_edge community scenario_hg 0)
  = take 2 (_incidence_array scenario_hg) ++ [2%nat]
    ++ drop 3 (_incidence_array scenario_hg).
Proof.
  intros community.
  apply (written_pins community scenario_hg 0);
    vm_compute; first [lia | discriminate | reflexivity].
Defined.


(** ** Phase 1: the hypernodes *)

Section WrittenHypernodes.
Variable community : CommunitySubhypergraph.

Abbreviation sub := (subhypergraph community).
Abbreviation original_hn :=
  (fun hn : nat => subhypergraph_to_hypergraph_hn community !!! hn).

Lemma write_back_nodes_effect (l : list nat) :
  forall (st : Hypergraph * list bool),
    let hg' := (fold_left (write_back_node community) l st).1 in
    (forall target,
       (forall hn, In hn l -> owned community hn -> original_hn hn <> target) ->
       _hypernodes hg' !!! target = _hypernodes st.1 !!! target)
    /\ (forall hn,
          In hn l -> owned community hn ->
          (original_hn hn < length (_hypernodes st.1))%nat ->
          (forall hn', In hn' l -> owned community hn' -> original_hn hn' = original_hn hn ->
                       hn' = hn) ->
          List.NoDup l ->
          _hypernodes hg' !!! original_hn hn = merged_hypernode community hn).
Proof.
  induction l as [|x l IH]; intros st; cbv zeta; simpl.
  - split; [reflexivity|]. intros hn [].
  - destruct (write_back_node_effect community st x) as [F Hn].
    destruct (IH (write_back_node community st x)) as [IHa IHb].
    cbv zeta in Hn. fold (merged_hypernode community x) in Hn.
    assert (Hlen : length (_hypernodes (write_back_node community st x).1)
                   = length (_hypernodes st.1))
      by apply (mf_hypernodes_length _ _ F).
    split.
    + intros target Hfree. rewrite IHa by (intros hn Hin; apply Hfree; right; exact Hin).
      rewrite Hn. destruct (Z.eqb_spec (_communities sub !!! x) (community_id community))
        as [Hx|_]; [|reflexivity].
      apply list_lookup_total_insert_ne. apply Hfree; [left; reflexivity|exact Hx].
    + intros hn Hin Hown Hbound Hinj Hnd.
      apply NoDup_cons_iff in Hnd. destruct Hnd as [Hx Hnd].
      destruct Hin as [->|Hin].
      * rewrite IHa.
        -- rewrite Hn. unfold owned in Hown. rewrite Hown, Z.eqb_refl.
           apply list_lookup_total_insert_eq. exact Hbound.
        -- intros hn' Hin' Hown' Heq. apply Hx.
           rewrite <- (Hinj hn' (or_intror Hin') Hown' Heq). exact Hin'.
      * apply IHb; [exact Hin|exact Hown|rewrite Hlen; exact Hbound| |exact Hnd].
        intros hn' Hin'. apply Hinj. right. exact Hin'.
Qed.

End WrittenHypernodes.

(** X15.  The task of a community overwrites the original hypernode of every
    local hypernode that carries the label of the community: weight and
    enabled flag are taken from the sub-hypergraph, and the incident
    hyperedges are those of the local hypernode, translated through
    [subhypergraph_to_hypergraph_he].  No other hypernode is touched. *)
Theorem written_hypernodes (hg : Hypergraph) (community : CommunitySubhypergraph) :
  let sub := subhypergraph community in
  let hg' := write_back_community hg community in
  List.NoDup (subhypergraph_to_hypergraph_hn community) ->
  (initialNumNodes sub <= length (subhypergraph_to_hypergraph_hn community))%nat ->
  (forall hn,
     (hn < initialNumNodes sub)%nat ->
     _communities sub !!! hn = community_id community ->
     (subhypergraph_to_hypergraph_hn community !!! hn < length (_hypernodes hg))%nat ->
     _hypernodes hg' !!! (subhypergraph_to_hypergraph_hn community !!! hn)
     = {| hn_incident_nets :=
            map (fun he => original_he (subhypergraph_to_hypergraph_he community !!! he))
                (hn_incident_nets (_hypernodes sub !!! hn));
          hn_weight := hn_weight (_hypernodes sub !!! hn);
          hn_valid := hn_valid (_hypernodes sub !!! hn) |})
  /\ (forall target,
        (forall hn, (hn < initialNumNodes sub)%nat ->
                    _communities sub !!! hn = community_id community ->
                    subhypergraph_to_hypergraph_hn community !!! hn <> target) ->
        _hypernodes hg' !!! target = _hypernodes hg !!! target).
Proof.
  intros sub hg' Hnd Hlen. subst hg'. unfold write_back_community. fold sub.
  destruct (write_back_nodes_effect community (seq 0 (initialNumNodes sub))
              (hg, replicate (initialNumEdges sub) false)) as [Ha Hb].
  cbv zeta in Ha, Hb. simpl fst in Ha, Hb. split.
  - intros hn Hhn Hown Hbound. apply Hb.
    + apply in_seq. lia.
    + exact Hown.
    + exact Hbound.
    + intros hn' Hin' _ Heq. apply in_seq in Hin'.
      apply NoDup_ListNoDup in Hnd.
      eapply (NoDup_lookup _ hn' hn); [exact Hnd| |].
      * apply list_lookup_lookup_total_lt. fold sub in Hlen. lia.
      * rewrite Heq. apply list_lookup_lookup_total_lt. fold sub in Hlen. lia.
    + apply seq_NoDup.
  - intros target Hfree. apply Ha. intros hn Hin. apply in_seq in Hin.
    apply Hfree. lia.
Qed.

Lemma written_hypernodes_witness :
  let community := example_extract scenario_hg 1 in
  let sub := subhypergraph community in
  let hg' := write_back_community scenario_hg community in
  List.NoDup (subhypergraph_to_hypergraph_hn community)
  /\ (initialNumNodes sub <= length (subhypergraph_to_hypergraph_hn community))%nat
  /\ (forall hn,
        (hn < initialNumNodes sub)%nat ->
        _communities sub !!! hn = community_id community ->
        (subhypergraph_to_hypergraph_hn community !!! hn < length (_hypernodes scenario_hg))%nat ->
        _hypernodes hg' !!! (subhypergraph_to_hypergraph_hn community !!! hn)
        = {| hn_incident_nets :=
               map (fun he => original_he (subhypergraph_to_hypergraph_he community !!! he))
                   (hn_incident_nets (_hypernodes sub !!! hn));
             hn_weight := hn_weight (_hypernodes sub !!! hn);
             hn_valid := hn_valid (_hypernodes sub !!! hn) |})
  /\ (forall target,
        (forall hn, (hn < initialNumNodes sub)%nat ->
                    _communities sub !!! hn = community_id community ->
                    subhypergraph_to_hypergraph_hn community !!! hn <> target) ->
        _hypernodes hg' !!! target = _hypernodes scenario_hg !!! target).
Proof.
  intros community sub hg'.
  assert (Hnd : List.NoDup (subhypergraph_to_hypergraph_hn community))
    by (vm_compute; repeat constructor; simpl; lia).
  assert (Hlen : (initialNumNodes sub <= length (subhypergraph_to_hypergraph_hn community))%nat)
    by (vm_compute; lia).
  split; [exact Hnd|]. split; [exact Hlen|].
  exact (written_hypernodes scenario_hg community Hnd Hlen).
Defined.


(** ** The reader on files that are not well-formed *)

Lemma until_newline_none (c : list ascii) :
  ~ In io.newline c -> io.until_newline c = (c, None).
Proof.
  induction c as [|x c IH]; intros Hnl; [reflexivity|]. simpl.
  destruct (Ascii.eqb_spec x io.newline) as [->|_].
  - exfalso. apply Hnl. left. reflexivity.
  - rewrite IH; [reflexivity|]. intros Hin. apply Hnl. right. exact Hin.
Qed.

(** [getline] on a good stream whose last line no newline closes. *)
Lemma getline_unterminated (c old : list ascii) :
  c <> [] -> ~ In io.newline c ->
  io.getline (io.open_stream c) old
  = ({| io.buf := []; io.eofbit := true; io.failbit := false |}, c).
Proof.
  intros Hne Hnl. unfold io.getline, io.open_stream. simpl.
  rewrite until_newline_none by exact Hnl. destruct c; [congruence|reflexivity].
Qed.

Section Malformed.
Variable id_bits : Z.
Variable weight_type : io.num_type.

(** A stream that has failed stays as it is under [getline]. *)
Lemma getline_failed (file : io.istream) (line : list ascii) :
  io.stream_ok file = false -> io.getline file line = (file, line).
Proof.
  intros H. unfold io.stream_ok in H. apply negb_false_iff in H.
  unfold io.getline, io.good. rewrite H, andb_false_r.
  destruct file as [b e f]. simpl in *. subst f. reflexivity.
Qed.

(** One turn of the loop over the hyperedges on a failed stream, with an
    empty [line]: a hyperedge without pins. *)
Lemma read_hyperedge_failed (st : io.ReaderState) :
  io.stream_ok (io.file st) = false -> io.line st = [] ->
  io.read_hyperedge id_bits weight_type false st
  = {| io.file := io.file st; io.line := [];
       io.index_vector :=
         io.index_vector st ++ [Z.of_nat (length (io.edge_vector st))];
       io.edge_vector := io.edge_vector st;
       io.hyperedge_weights := io.hyperedge_weights st;
       io.hypernode_weights := io.hypernode_weights st |}.
Proof.
  intros Hf Hl. unfold io.read_hyperedge. rewrite getline_failed by exact Hf.
  rewrite Hl. reflexivity.
Qed.

Lemma read_hyperedges_failed (k : nat) :
  forall st : io.ReaderState,
    io.stream_ok (io.file st) = false -> io.line st = [] ->
    Nat.iter k (io.read_hyperedge id_bits weight_type false) st
    = {| io.file := io.file st; io.line := [];
         io.index_vector :=
           io.index_vector st ++ replicate k (Z.of_nat (length (io.edge_vector st)));
         io.edge_vector := io.edge_vector st;
         io.hyperedge_weights := io.hyperedge_weights st;
         io.hypernode_weights := io.hypernode_weights st |}.
Proof.
  induction k as [|k IH]; intros st Hf Hl.
  - simpl. rewrite app_nil_r. destruct st. simpl in *. subst. reflexivity.
  - rewrite Nat.iter_succ_r. rewrite (read_hyperedge_failed st Hf Hl).
    rewrite IH by (simpl; auto). simpl. rewrite <- app_assoc. reflexivity.
Qed.

(** The hyperedge loop and the weight loop of [parseHypergraphFile] once
    the header was looked for in vain: the stream has failed and the
    format is 0. *)
Lemma body_on_failed_stream (file : io.istream) (m0 : Z)
  (iv ev hw nw : list Z) :
  io.stream_ok file = false ->
  io.repeat_loop m0 (io.read_hyperedge id_bits weight_type false)
    {| io.file := file; io.line := [];
       io.index_vector := iv ++ [Z.of_nat (length ev)];
       io.edge_vector := ev; io.hyperedge_weights := hw;
       io.hypernode_weights := nw |}
  = {| io.file := file; io.line := [];
       io.index_vector := iv ++ replicate (S (Z.to_nat m0)) (Z.of_nat (length ev));
       io.edge_vector := ev; io.hyperedge_weights := hw;
       io.hypernode_weights := nw |}.
Proof.
  intros Hf. unfold io.repeat_loop. rewrite read_hyperedges_failed by (simpl; auto).
  simpl. rewrite <- app_assoc. reflexivity.
Qed.

(** X16.  A file that could not be opened: [parseHGRHeader] leaves its three
    outputs as they are, and [parseHypergraphFile] returns the numbers of
    hypernodes and hyperedges that the caller passed in, with one empty
    hyperedge for every hyperedge of that number; no pin and no weight is
    stored. *)
Theorem unreadable_file (file : io.istream) (n0 m0 t0 : Z) (iv ev hw nw : list Z) :
  io.stream_ok file = false ->
  io.parseHGRHeader id_bits file m0 n0 t0 = Some (file, (m0, n0, t0))
  /\ io.parseHypergraphFile id_bits weight_type file n0 m0 iv ev hw nw
     = Some {| io.num_hypernodes := n0; io.num_hyperedges := m0;
               io.final :=
                 {| io.file := file; io.line := [];
                    io.index_vector :=
                      iv ++ replicate (S (Z.to_nat m0)) (Z.of_nat (length ev));
                    io.edge_vector := ev; io.hyperedge_weights := hw;
                    io.hypernode_weights := nw |} |}.
Proof.
  intros Hf. unfold io.parseHypergraphFile, io.parseHGRHeader. rewrite Hf.
  split; [reflexivity|]. simpl.
  rewrite body_on_failed_stream by exact Hf. reflexivity.
Qed.

(** The three extractions of line 23 on an empty line change nothing. *)
Lemma read_header_empty (m n t : Z) : io.read_header id_bits [] m n t = (m, n, t).
Proof. reflexivity. Qed.

Lemma skip_comments_terminated (cs : list (list ascii)) :
  forall (c : list ascii) (fuel : nat),
    Forall comment_ok (c :: cs) ->
    (length cs < fuel)%nat ->
    io.skip_comments fuel
      (io.open_stream (flat_map (fun c => c ++ [io.newline]) cs)) c
    = Some ({| io.buf := []; io.eofbit := true; io.failbit := true |}, []).
Proof.
  induction cs as [|c' cs IH]; intros c fuel Hcs Hfuel;
    apply List.Forall_cons_iff in Hcs; destruct Hcs as [[Hc _] Hcs];
    (destruct fuel as [|fuel]; [lia|]); cbn [io.skip_comments]; rewrite Hc;
    simpl io.good; cbv iota.
  - simpl. destruct fuel; reflexivity.
  - simpl flat_map. rewrite <- app_assoc. simpl app.
    pose proof Hcs as Hcs'. apply List.Forall_cons_iff in Hcs'.
    destruct Hcs' as [[_ Hnl] _].
    rewrite getline_line by exact Hnl. cbn [fst snd].
    apply IH; [exact Hcs|simpl in Hfuel; lia].
Qed.

(** X17.  A file without header line, that is, an empty file or one that holds
    only comment lines, each closed by a newline: the loop of
    [parseHGRHeader] ends on the empty line that the failing [getline]
    leaves, the three outputs stay as they are, and the file is read like
    one that could not be opened. *)
Theorem file_without_header (cs : list (list ascii)) (n0 m0 t0 : Z)
  (iv ev hw nw : list Z) :
  Forall comment_ok cs ->
  let file := io.open_stream (flat_map (fun c => c ++ [io.newline]) cs) in
  let failed := {| io.buf := []; io.eofbit := true; io.failbit := true |} in
  io.parseHGRHeader id_bits file m0 n0 t0 = Some (failed, (m0, n0, t0))
  /\ io.parseHypergraphFile id_bits weight_type file n0 m0 iv ev hw nw
     = Some {| io.num_hypernodes := n0; io.num_hyperedges := m0;
               io.final :=
                 {| io.file := failed; io.line := [];
                    io.index_vector :=
                      iv ++ replicate (S (Z.to_nat m0)) (Z.of_nat (length ev));
                    io.edge_vector := ev; io.hyperedge_weights := hw;
                    io.hypernode_weights := nw |} |}.
Proof.
  intros Hcs file failed.
  assert (Hhead : forall m n t,
            io.parseHGRHeader id_bits file m n t = Some (failed, (m, n, t))).
  { intros m n t. subst file. unfold io.parseHGRHeader. simpl io.stream_ok. cbv iota.
    destruct cs as [|c cs].
    - reflexivity.
    - simpl flat_map. rewrite <- app_assoc. simpl app.
      pose proof Hcs as Hcs'. apply List.Forall_cons_iff in Hcs'.
      destruct Hcs' as [[_ Hnl] _].
      rewrite getline_line by exact Hnl. cbn [fst snd].
      rewrite skip_comments_terminated; [reflexivity|exact Hcs|].
      simpl io.buf. pose proof (comment_lines_length cs []) as Hlen.
      rewrite app_nil_r in Hlen. lia. }
  split; [apply Hhead|].
  unfold io.parseHypergraphFile. rewrite Hhead. simpl.
  rewrite body_on_failed_stream by reflexivity. reflexivity.
Qed.

(** The loop of [parseHGRHeader] on a stream whose unread part ends in a
    comment line that no newline closes. *)
Lemma skip_run_unterminated (cs : list (list ascii)) (c : list ascii) :
  Forall comment_ok cs -> comment_ok c ->
  forall line file' line',
    io.is_comment line = true ->
    skip_run (io.open_stream (flat_map (fun c => c ++ [io.newline]) cs ++ c)) line
      file' line' ->
    False.
Proof.
  intros Hcs [Hc Hnl].
  induction Hcs as [|c' cs [Hc' Hnl'] _ IH]; intros line file' line' Hline Hrun.
  - simpl in Hrun. inversion Hrun as [? ? Hdone|? ? ? ? _ Hrest]; subst; [congruence|].
    rewrite getline_unterminated in Hrest by (exact Hnl || (intros ->; discriminate)).
    simpl in Hrest.
    eapply skip_run_stuck; [exact Hrest|reflexivity|exact Hc].
  - simpl flat_map in Hrun. rewrite <- !app_assoc in Hrun. simpl app in Hrun.
    inversion Hrun as [? ? Hdone|? ? ? ? _ Hrest]; subst; [congruence|].
    rewrite getline_line in Hrest by exact Hnl'. simpl in Hrest.
    eapply IH; [exact Hc'|exact Hrest].
Qed.

(** X18.  A file that ends in a comment line without a closing newline, before
    any header line: the loop [while (line[0] == '%')] of [parseHGRHeader]
    never ends.  Once the end of the file is reached, [getline] fails and
    leaves the comment in [line]. *)
Theorem header_loop_does_not_end (cs : list (list ascii)) (c : list ascii)
  (m0 n0 t0 : Z) :
  Forall comment_ok cs -> comment_ok c ->
  let file := io.open_stream (flat_map (fun c => c ++ [io.newline]) cs ++ c) in
  io.parseHGRHeader id_bits file m0 n0 t0 = None
  /\ io.is_comment (io.getline file []).2 = true
  /\ ~ exists file' line',
         skip_run (io.getline file []).1 (io.getline file []).2 file' line'.
Proof.
  intros Hcs Hc file.
  assert (Hfirst : io.is_comment (io.getline file []).2 = true
                   /\ ~ exists file' line',
                          skip_run (io.getline file []).1 (io.getline file []).2
                            file' line').
  { subst file. destruct Hcs as [|c' cs [Hc' Hnl'] Hcs].
    - simpl. destruct Hc as [Hc Hnl].
      rewrite getline_unterminated by (exact Hnl || (intros ->; discriminate)).
      simpl. split; [exact Hc|].
      intros (file' & line' & Hrun).
      eapply skip_run_stuck; [exact Hrun|reflexivity|exact Hc].
    - simpl flat_map. rewrite <- !app_assoc. simpl app.
      rewrite getline_line by exact Hnl'. simpl. split; [exact Hc'|].
      intros (file' & line' & Hrun).
      eapply skip_run_unterminated; [exact Hcs|exact Hc|exact Hc'|exact Hrun]. }
  destruct Hfirst as [Hcomment Hnone]. split; [|split; assumption].
  unfold io.parseHGRHeader. subst file. simpl io.stream_ok. cbv iota.
  match goal with
  | |- context [io.skip_comments _ ?f ?l] =>
      destruct (skip_comments_adequate f l) as [_ Hiff]
  end.
  apply Hiff in Hnone. rewrite Hnone. reflexivity.
Qed.

End Malformed.

Lemma unreadable_file_witness :
  io.stream_ok io.missing_file = false
  /\ io.parseHGRHeader 32 io.missing_file 2 4 0 = Some (io.missing_file, (2, 4, 0))
  /\ io.parseHypergraphFile 32 io.int_type io.missing_file 4 2 [7] [5; 6] [] []
     = Some {| io.num_hypernodes := 4; io.num_hyperedges := 2;
               io.final :=
                 {| io.file := io.missing_file; io.line := [];
                    io.index_vector := [7] ++ replicate 3 2;
                    io.edge_vector := [5; 6]; io.hyperedge_weights := [];
                    io.hypernode_weights := [] |} |}.
Proof.
  split; [reflexivity|].
  exact (unreadable_file 32 io.int_type io.missing_file 4 2 0 [7] [5; 6] [] [] eq_refl).
Defined.

Lemma file_without_header_witness :
  let cs := [chars "% a comment"; chars "% and another one"] in
  let file := io.open_stream (flat_map (fun c => c ++ [io.newline]) cs) in
  let failed := {| io.buf := []; io.eofbit := true; io.failbit := true |} in
  Forall comment_ok cs
  /\ io.parseHGRHeader 32 file 2 4 0 = Some (failed, (2, 4, 0))
  /\ io.parseHypergraphFile 32 io.int_type file 4 2 [] [] [] []
     = Some {| io.num_hypernodes := 4; io.num_hyperedges := 2;
               io.final :=
                 {| io.file := failed; io.line := [];
                    io.index_vector := [] ++ replicate 3 0;
                    io.edge_vector := []; io.hyperedge_weights := [];
                    io.hypernode_weights := [] |} |}.
Proof.
  intros cs file failed.
  assert (Hcs : Forall comment_ok cs).
  { repeat constructor; vm_compute; intuition discriminate. }
  split; [exact Hcs|].
  exact (file_without_header 32 io.int_type cs 4 2 0 [] [] [] [] Hcs).
Defined.

Lemma header_loop_does_not_end_witness :
  let cs := [chars "% a comment"] in
  let c := chars "% the last line" in
  let file := io.open_stream (flat_map (fun c => c ++ [io.newline]) cs ++ c) in
  (Forall comment_ok cs /\ comment_ok c)
  /\ io.parseHGRHeader 32 file 0 0 0 = None
  /\ io.is_comment (io.getline file []).2 = true
  /\ ~ exists file' line',
         skip_run (io.getline file []).1 (io.getline file []).2 file' line'.
Proof.
  intros cs c file.
  assert (Hcs : Forall comment_ok cs).
  { repeat constructor; vm_compute; intuition discriminate. }
  assert (Hc : comment_ok c).
  { split; vm_compute; intuition discriminate. }
  split; [split; [exact Hcs|exact Hc]|].
  exact (header_loop_does_not_end 32 cs c 0 0 0 Hcs Hc).
Defined.


(** ** The pins of a line *)

Section Pins.
Variable id_bits : Z.
Variable weight_type : io.num_type.

Lemma read_pins_app (fuel : nat) :
  forall (s : io.istream) (pin : Z) (ev : list Z),
    io.read_pins id_bits fuel s pin ev = ev ++ io.read_pins id_bits fuel s pin [].
Proof.
  induction fuel as [|fuel IH]; intros s pin ev; simpl.
  - destruct (io.stream_ok _); [|rewrite app_nil_r]; try reflexivity.
    rewrite app_nil_r. reflexivity.
  - destruct (io.stream_ok _); [|rewrite app_nil_r; reflexivity].
    rewrite IH. rewrite (IH _ _ [_]). rewrite <- app_assoc. reflexivity.
Qed.

Lemma read_pins_wrapped (fuel : nat) :
  0 <= id_bits ->
  forall (s : io.istream) (pin : Z),
    Forall (fun x => 0 <= x < 2 ^ id_bits) (io.read_pins id_bits fuel s pin []).
Proof.
  intros Hbits. induction fuel as [|fuel IH]; intros s pin; simpl.
  - destruct (io.stream_ok _); constructor.
  - destruct (io.stream_ok _); [|constructor].
    rewrite read_pins_app. constructor; [|apply IH].
    unfold wrap. apply Z.mod_pos_bound. apply Z.pow_pos_nonneg; lia.
Qed.

Lemma read_hyperedge_appends (hw : bool) (st : io.ReaderState) :
  io.edge_vector (io.read_hyperedge id_bits weight_type hw st)
    = io.edge_vector st ++ new_pins id_bits weight_type hw st
  /\ io.index_vector (io.read_hyperedge id_bits weight_type hw st)
     = io.index_vector st
       ++ [Z.of_nat (length (io.edge_vector st ++ new_pins id_bits weight_type hw st))].
Proof.
  unfold io.read_hyperedge, new_pins. simpl.
  rewrite read_pins_app. split; reflexivity.
Qed.

(** The loop [while (line_stream >> pin)] on a stream that holds numbers
    and, behind them, something that is not a number: every number is
    stored, decremented by one in the unsigned type of the identifiers. *)
Lemma read_pins_tokens (ts : list (list ascii * nat)) :
  forall (trail : list ascii) (fuel : nat) (eof : bool) (pin : Z) (ev : list Z),
    match ts with
    | [] => True
    | t :: ts' => forallb blank t.1 = true /\ separated ts' /\ eof = false
    end ->
    no_digit_first trail -> not_a_number trail ->
    Forall (fun t => is_id id_bits t.2) ts ->
    (length ts <= fuel)%nat ->
    io.read_pins id_bits fuel
      {| io.buf := render_tokens ts ++ trail; io.eofbit := eof; io.failbit := false |}
      pin ev
    = ev ++ map (fun t => wrap id_bits (Z.of_nat t.2 - 1)) ts.
Proof.
  induction ts as [|t ts IH]; intros trail fuel eof pin ev Hshape Hfirst Hstop Hpins Hfuel.
  - simpl. rewrite app_nil_r.
    assert (Hfail : io.stream_ok
              (io.extract (io.id_type id_bits)
                 {| io.buf := trail; io.eofbit := eof; io.failbit := false |} pin).1
            = false).
    { unfold io.extract, io.good. simpl. destruct eof; simpl; [reflexivity|].
      unfold not_a_number in Hstop.
      destruct (io.skipws trail) as [|x rest]; [reflexivity|].
      destruct Hstop as (Hd & Hplus & Hminus).
      assert (Hm : Ascii.eqb x "-" = false) by (apply Ascii.eqb_neq; exact Hminus).
      assert (Hp : Ascii.eqb x "+" = false) by (apply Ascii.eqb_neq; exact Hplus).
      rewrite Hm, Hp. simpl. rewrite Hd. reflexivity. }
    destruct fuel; simpl; rewrite Hfail; reflexivity.
  - destruct Hshape as (Hblank & Hsep & ->).
    apply List.Forall_cons_iff in Hpins. destruct Hpins as [Hid Hpins'].
    destruct fuel as [|fuel]; [simpl in Hfuel; lia|].
    cbn [io.read_pins]. simpl render_tokens. rewrite <- !app_assoc.
    assert (Hnext : no_digit_first (render_tokens ts ++ trail)).
    { destruct ts as [|t' ts']; [exact Hfirst|].
      apply List.Forall_cons_iff in Hsep. destruct Hsep as [[Hb' Hne'] _].
      unfold no_digit_first. simpl. destruct (t'.1) as [|c sep]; [congruence|]. simpl.
      simpl in Hb'. apply andb_true_iff in Hb'. apply blank_not_digit. tauto. }
    rewrite extract_number; [|exact Hblank|exact Hnext|exact Hid].
    simpl io.stream_ok. cbv iota. cbn [fst snd].
    rewrite IH.
    + rewrite <- app_assoc. reflexivity.
    + destruct ts as [|t' ts']; [exact I|].
      pose proof Hsep as Hsep0.
      apply List.Forall_cons_iff in Hsep. destruct Hsep as [[Hb' _] Hsep'].
      split; [exact Hb'|]. split; [exact Hsep'|].
      destruct (io.at_end (render_tokens (t' :: ts') ++ trail)) eqn:Hend;
        [|reflexivity].
      apply at_end_separated in Hend; [discriminate|exact Hsep0].
    + exact Hfirst.
    + exact Hstop.
    + exact Hpins'.
    + simpl in Hfuel. lia.
Qed.

Lemma blank_trail_stops (trail : list ascii) :
  forallb blank trail = true -> no_digit_first trail /\ not_a_number trail.
Proof.
  intros H. split.
  - destruct trail as [|c trail]; [exact I|]. simpl in *.
    apply andb_true_iff in H. apply blank_not_digit. tauto.
  - unfold not_a_number. replace trail with (trail ++ []) by apply app_nil_r.
    rewrite skipws_blank by (exact H || exact I). exact I.
Qed.

(** The pins that the loop reads from the text of a line of numbers that is
    followed by [junk]. *)
Lemma read_pins_line (l : Line) (junk : list ascii) (ev : list Z) :
  line_ok l -> Forall (is_id id_bits) (numbers l) ->
  no_digit_first (trailing l ++ junk) -> not_a_number (trailing l ++ junk) ->
  io.read_pins id_bits (length (line_text l ++ junk))
    (io.open_stream (line_text l ++ junk)) 0 ev
  = ev ++ map (fun p => wrap id_bits (Z.of_nat p - 1)) (numbers l).
Proof.
  intros [Htrail Hshape] Hids Hfirst Hstop.
  unfold line_text, io.open_stream, numbers in *. rewrite <- app_assoc.
  rewrite (read_pins_tokens (tokens l)).
  - rewrite map_map. reflexivity.
  - destruct (tokens l) as [|t ts]; [exact I|]. tauto.
  - exact Hfirst.
  - exact Hstop.
  - apply List.Forall_forall. intros t Ht. rewrite List.Forall_forall in Hids.
    apply Hids. apply in_map. exact Ht.
  - rewrite !length_app. pose proof (tokens_length (tokens l)). lia.
Qed.

End Pins.

Section BrokenLines.
Variable id_bits : Z.
Variable weight_type : io.num_type.

(** X19.  Every number of a hyperedge line is stored decremented by one in the
    unsigned type of the identifiers, so that a pin written as 0 wraps
    around to the largest identifier.  The only guard in the source is the
    ASSERT of line 59, a macro that is not part of the sources at hand and
    that the model leaves out. *)
Theorem pins_wrap_around (l : Line) (rest : list ascii) (st : io.ReaderState) :
  io.file st = io.open_stream (render_line l ++ rest) ->
  line_ok l -> Forall (is_id id_bits) (numbers l) ->
  let st' := io.read_hyperedge id_bits weight_type false st in
  io.edge_vector st'
    = io.edge_vector st ++ map (fun p => wrap id_bits (Z.of_nat p - 1)) (numbers l)
  /\ (0 < id_bits -> In 0%nat (numbers l) -> In (2 ^ id_bits - 1) (io.edge_vector st')).
Proof.
  intros Hfile Hok Hids st'.
  assert (Hev : io.edge_vector st'
                = io.edge_vector st
                  ++ map (fun p => wrap id_bits (Z.of_nat p - 1)) (numbers l)).
  { subst st'. unfold io.read_hyperedge. rewrite Hfile.
    unfold render_line. rewrite <- app_assoc. simpl app.
    rewrite getline_line by (apply line_text_no_newline; exact Hok).
    cbn [fst snd io.edge_vector].
    rewrite <- (app_nil_r (line_text l)).
    destruct (blank_trail_stops (trailing l ++ [])) as [Hfirst Hstop].
    { rewrite app_nil_r. apply Hok. }
    apply read_pins_line; assumption. }
  split; [exact Hev|].
  intros Hbits Hzero. rewrite Hev. apply in_or_app. right.
  apply in_map_iff. exists 0%nat. split; [|exact Hzero].
  unfold wrap. simpl.
  assert (1 < 2 ^ id_bits) by (apply Z.pow_gt_1; lia).
  change (Z.of_nat 0 - 1) with (-1).
  rewrite <- (Z_mod_plus_full (-1) 1 (2 ^ id_bits)).
  rewrite Z.mod_small; lia.
Qed.

(** X20.  The loop over the pins of a line ends at the first token that is not a
    number: the pins in front of it are stored, the rest of the line is
    dropped, and the next hyperedge is read from the next line. *)
Theorem line_is_cut_at_non_number (l : Line) (x : ascii) (junk rest : list ascii)
  (st : io.ReaderState) :
  io.file st = io.open_stream (line_text l ++ x :: junk ++ io.newline :: rest) ->
  line_ok l -> Forall (is_id id_bits) (numbers l) ->
  io.isspace x = false -> io.digit_value x = None ->
  x <> "+"%char -> x <> "-"%char ->
  ~ In io.newline (x :: junk) ->
  io.read_hyperedge id_bits weight_type false st
  = {| io.file := io.open_stream rest;
       io.line := line_text l ++ x :: junk;
       io.index_vector :=
         io.index_vector st
         ++ [Z.of_nat (length (io.edge_vector st) + length (numbers l))];
       io.edge_vector :=
         io.edge_vector st
         ++ map (fun p => wrap id_bits (Z.of_nat p - 1)) (numbers l);
       io.hyperedge_weights := io.hyperedge_weights st;
       io.hypernode_weights := io.hypernode_weights st |}.
Proof.
  intros Hfile Hok Hids Hspace Hdigit Hplus Hminus Hnl.
  unfold io.read_hyperedge. rewrite Hfile.
  replace (line_text l ++ x :: junk ++ io.newline :: rest)
    with ((line_text l ++ x :: junk) ++ io.newline :: rest)
    by (rewrite <- app_assoc; reflexivity).
  rewrite getline_line.
  2:{ intros Hin. apply in_app_or in Hin. destruct Hin as [Hin|Hin].
      - exact (line_text_no_newline l Hok Hin).
      - exact (Hnl Hin). }
  cbn [fst snd].
  assert (Hstops : no_digit_first (trailing l ++ x :: junk)
                   /\ not_a_number (trailing l ++ x :: junk)).
  { destruct Hok as [Htrail _]. split.
    - destruct (trailing l) as [|c tr]; [exact Hdigit|]. simpl in *.
      apply andb_true_iff in Htrail. apply blank_not_digit. tauto.
    - unfold not_a_number. rewrite skipws_blank; [|exact Htrail|exact Hspace].
      auto. }
  destruct Hstops as [Hfirst Hstop].
  rewrite (read_pins_line id_bits l (x :: junk) (io.edge_vector st) Hok Hids Hfirst Hstop).
  rewrite length_app, length_map. reflexivity.
Qed.

(** X21.  When the file ends in a hyperedge line that no newline closes, and the
    header announces more hyperedges than there are lines, every missing
    line is read as a copy of the last one: [getline] fails and leaves the
    text of that line in [line]. *)
Theorem missing_lines_repeat_the_last (l : Line) (k : nat) (st : io.ReaderState) :
  io.file st = io.open_stream (line_text l) ->
  line_text l <> [] -> line_ok l -> Forall (is_id id_bits) (numbers l) ->
  io.edge_vector (Nat.iter (S k) (io.read_hyperedge id_bits weight_type false) st)
  = io.edge_vector st
    ++ concat (replicate (S k) (map (fun p => wrap id_bits (Z.of_nat p - 1)) (numbers l))).
Proof.
  intros Hfile Hne Hok Hids.
  set (ps := map (fun p => wrap id_bits (Z.of_nat p - 1)) (numbers l)).
  assert (Hpins : forall ev,
            io.read_pins id_bits (length (line_text l)) (io.open_stream (line_text l)) 0 ev
            = ev ++ ps).
  { intros ev. rewrite <- (app_nil_r (line_text l)).
    destruct (blank_trail_stops (trailing l ++ [])) as [Hfirst Hstop].
    { rewrite app_nil_r. apply Hok. }
    apply read_pins_line; assumption. }
  assert (Hfirst : io.file (io.read_hyperedge id_bits weight_type false st)
                   = {| io.buf := []; io.eofbit := true; io.failbit := false |}
                   /\ io.line (io.read_hyperedge id_bits weight_type false st) = line_text l
                   /\ io.edge_vector (io.read_hyperedge id_bits weight_type false st)
                      = io.edge_vector st ++ ps).
  { unfold io.read_hyperedge. rewrite Hfile.
    rewrite getline_unterminated by (exact Hne || apply line_text_no_newline; exact Hok).
    cbn [fst snd io.file io.line io.edge_vector]. rewrite Hpins. auto. }
  assert (Hnext : forall s : io.ReaderState,
            io.good (io.file s) = false -> io.line s = line_text l ->
            io.good (io.file (io.read_hyperedge id_bits weight_type false s)) = false
            /\ io.line (io.read_hyperedge id_bits weight_type false s) = line_text l
            /\ io.edge_vector (io.read_hyperedge id_bits weight_type false s)
               = io.edge_vector s ++ ps).
  { intros s Hbad Hline. unfold io.read_hyperedge, io.getline. rewrite Hbad, Hline.
    cbn [fst snd io.file io.line io.edge_vector]. rewrite Hpins.
    split; [|auto]. unfold io.good. simpl. apply andb_false_r. }
  assert (Hiter : forall j,
            io.good (io.file (Nat.iter (S j) (io.read_hyperedge id_bits weight_type false) st))
              = false
            /\ io.line (Nat.iter (S j) (io.read_hyperedge id_bits weight_type false) st)
               = line_text l
            /\ io.edge_vector (Nat.iter (S j) (io.read_hyperedge id_bits weight_type false) st)
               = io.edge_vector st ++ concat (replicate (S j) ps)).
  { induction j as [|j IH].
    - change (Nat.iter 1 (io.read_hyperedge id_bits weight_type false) st)
        with (io.read_hyperedge id_bits weight_type false st).
      destruct Hfirst as (Hf & Hl & He). rewrite Hf, Hl, He. simpl.
      rewrite app_nil_r. auto.
    - destruct IH as (Hg & Hl & He).
      change (Nat.iter (S (S j)) (io.read_hyperedge id_bits weight_type false) st)
        with (io.read_hyperedge id_bits weight_type false
                (Nat.iter (S j) (io.read_hyperedge id_bits weight_type false) st)).
      destruct (Hnext _ Hg Hl) as (Hg' & Hl' & He').
      split; [exact Hg'|]. split; [exact Hl'|].
      rewrite He', He, <- app_assoc. f_equal.
      change (S (S j)) with (S j + 1)%nat || replace (S (S j)) with (S j + 1)%nat by lia.
      rewrite replicate_add, concat_app. simpl. rewrite app_nil_r. reflexivity. }
  apply Hiter.
Qed.

End BrokenLines.

Lemma zero_pin_line_ok : line_ok zero_pin_line /\ Forall (is_id 32) (numbers zero_pin_line).
Proof.
  split; [repeat split; repeat constructor; discriminate|].
  repeat constructor; vm_compute; discriminate.
Qed.

Lemma two_pins_line_ok : line_ok two_pins_line /\ Forall (is_id 32) (numbers two_pins_line).
Proof.
  split; [repeat split; repeat constructor; discriminate|].
  repeat constructor; vm_compute; discriminate.
Qed.

Lemma pins_wrap_around_witness :
  let st := reader_at (render_line zero_pin_line ++ []) in
  let st' := io.read_hyperedge 32 io.int_type false st in
  (line_ok zero_pin_line /\ Forall (is_id 32) (numbers zero_pin_line))
  /\ io.edge_vector st'
     = io.edge_vector st
       ++ map (fun p => wrap 32 (Z.of_nat p - 1)) (numbers zero_pin_line)
  /\ (0 < 32 -> In 0%nat (numbers zero_pin_line) -> In (2 ^ 32 - 1) (io.edge_vector st')).
Proof.
  intros st st'. split; [exact zero_pin_line_ok|].
  exact (pins_wrap_around 32 io.int_type zero_pin_line [] st eq_refl
           (proj1 zero_pin_line_ok) (proj2 zero_pin_line_ok)).
Defined.

Lemma line_is_cut_at_non_number_witness :
  let st := reader_at (line_text two_pins_line
                       ++ "x"%char :: chars " 3" ++ io.newline :: chars "4 5") in
  io.read_hyperedge 32 io.int_type false st
  = {| io.file := io.open_stream (chars "4 5");
       io.line := line_text two_pins_line ++ "x"%char :: chars " 3";
       io.index_vector := io.index_vector st ++ [2];
       io.edge_vector := io.edge_vector st ++ [0; 1];
       io.hyperedge_weights := []; io.hypernode_weights := [] |}.
Proof.
  intros st.
  apply (line_is_cut_at_non_number 32 io.int_type two_pins_line "x"%char (chars " 3")
           (chars "4 5") st eq_refl (proj1 two_pins_line_ok) (proj2 two_pins_line_ok));
    try reflexivity; try discriminate.
  vm_compute. intuition discriminate.
Defined.

Lemma missing_lines_repeat_the_last_witness :
  let st := reader_at (line_text two_pins_line) in
  io.edge_vector (Nat.iter 3 (io.read_hyperedge 32 io.int_type false) st)
  = [0; 1; 0; 1; 0; 1].
Proof.
  intros st.
  apply (missing_lines_repeat_the_last 32 io.int_type two_pins_line 2 st eq_refl).
  - discriminate.
  - exact (proj1 two_pins_line_ok).
  - exact (proj2 two_pins_line_ok).
Defined.


(** ** The vectors that the reader fills *)

Section Vectors.
Variable id_bits : Z.
Variable weight_type : io.num_type.

Section Appended.
Variables iv ev hw nw : list Z.

Lemma read_hyperedge_appended (flag : bool) (st0 st : io.ReaderState) :
  appended_to iv ev hw nw st0 st ->
  appended_to iv ev hw nw (io.read_hyperedge id_bits weight_type flag st0)
    (io.read_hyperedge id_bits weight_type flag st).
Proof.
  intros (Hf & Hl & Hi & He & (ws & Hw & Hwl) & Hn).
  unfold appended_to, io.read_hyperedge. cbn [io.file io.line io.index_vector
    io.edge_vector io.hyperedge_weights io.hypernode_weights].
  rewrite Hf, Hl, Hi, He.
  split; [reflexivity|]. split; [reflexivity|].
  rewrite (read_pins_app id_bits _ _ _ (ev ++ io.edge_vector st0)).
  rewrite (read_pins_app id_bits _ _ _ (io.edge_vector st0)).
  split.
  { rewrite map_app, !length_app, !Nat2Z.inj_add, <- !app_assoc. simpl.
    rewrite Z.add_assoc. reflexivity. }
  split; [rewrite <- app_assoc; reflexivity|].
  split; [|exact Hn].
  destruct flag.
  - eexists (ws ++ [_]). rewrite Hw, <- app_assoc. split; [reflexivity|].
    rewrite !length_app, Hwl. reflexivity.
  - exists ws. split; assumption.
Qed.

Lemma read_hypernode_weight_appended (st0 st : io.ReaderState) :
  appended_to iv ev hw nw st0 st ->
  appended_to iv ev hw nw (io.read_hypernode_weight weight_type st0)
    (io.read_hypernode_weight weight_type st).
Proof.
  intros (Hf & Hl & Hi & He & Hw & (ws & Hn & Hnl)).
  unfold appended_to, io.read_hypernode_weight. cbn [io.file io.line io.index_vector
    io.edge_vector io.hyperedge_weights io.hypernode_weights].
  rewrite Hf, Hl. repeat (split; [reflexivity || assumption|]).
  eexists (ws ++ [_]). rewrite Hn, <- app_assoc. split; [reflexivity|].
  rewrite !length_app, Hnl. reflexivity.
Qed.

Lemma iter_appended (body : io.ReaderState -> io.ReaderState) (k : nat)
  (st0 st : io.ReaderState) :
  (forall s0 s, appended_to iv ev hw nw s0 s -> appended_to iv ev hw nw (body s0) (body s)) ->
  appended_to iv ev hw nw st0 st ->
  appended_to iv ev hw nw (Nat.iter k body st0) (Nat.iter k body st).
Proof.
  intros Hbody Hst. induction k as [|k IH]; simpl; [exact Hst|].
  apply Hbody. exact IH.
Qed.

End Appended.

(** X22.  [parseHypergraphFile] appends to the vectors that it is given.  A
    call with vectors that are not empty returns when the call with empty
    vectors returns, with the same counts, stream and line; the index
    vector and the edge vector hold what that call stores, behind the old
    entries, with the new entries of the index vector moved by the old
    size of the edge vector; the weight vectors keep their old entries and
    grow by as many entries. *)
Theorem parse_appends (file : io.istream) (n0 m0 : Z) (iv ev hw nw : list Z) :
  match io.parseHypergraphFile id_bits weight_type file n0 m0 [] [] [] [],
        io.parseHypergraphFile id_bits weight_type file n0 m0 iv ev hw nw with
  | Some p0, Some p =>
      io.num_hypernodes p = io.num_hypernodes p0
      /\ io.num_hyperedges p = io.num_hyperedges p0
      /\ appended_to iv ev hw nw (io.final p0) (io.final p)
  | None, None => True
  | _, _ => False
  end.
Proof.
  unfold io.parseHypergraphFile.
  destruct (io.parseHGRHeader id_bits file m0 n0 0) as [[file1 [[m1 n1] t]]|];
    [|exact I].
  split; [reflexivity|]. split; [reflexivity|]. cbn [io.final].
  set (st0 := {| io.file := file1; io.line := [];
                 io.index_vector := [] ++ [Z.of_nat (length (@nil Z))];
                 io.edge_vector := []; io.hyperedge_weights := [];
                 io.hypernode_weights := [] |}).
  set (st := {| io.file := file1; io.line := [];
                io.index_vector := iv ++ [Z.of_nat (length ev)];
                io.edge_vector := ev; io.hyperedge_weights := hw;
                io.hypernode_weights := nw |}).
  assert (Hinit : appended_to iv ev hw nw st0 st).
  { unfold appended_to, st0, st. simpl. rewrite Z.add_0_r, !app_nil_r.
    repeat (split; [reflexivity|]). split; exists []; rewrite app_nil_r; auto. }
  assert (Hedges : appended_to iv ev hw nw
            (io.repeat_loop m1
               (io.read_hyperedge id_bits weight_type ((t =? 1) || (t =? 11))) st0)
            (io.repeat_loop m1
               (io.read_hyperedge id_bits weight_type ((t =? 1) || (t =? 11))) st)).
  { unfold io.repeat_loop. apply iter_appended; [|exact Hinit].
    intros s0 s. apply read_hyperedge_appended. }
  destruct ((t =? 10) || (t =? 11)); [|exact Hedges].
  unfold io.repeat_loop. apply iter_appended; [|exact Hedges].
  intros s0 s. apply read_hypernode_weight_appended.
Qed.

Lemma sorted_below_last (l : list Z) :
  StronglySorted Z.le l -> Forall (fun y => y <= List.last l 0) l.
Proof.
  induction 1 as [|a l Hs IH Ha]; [constructor|].
  destruct l as [|b l]; [repeat constructor; simpl; lia|].
  change (List.last (a :: b :: l) 0) with (List.last (b :: l) 0).
  constructor; [|exact IH].
  apply List.Forall_cons_iff in Ha. apply List.Forall_cons_iff in IH.
  destruct Ha as [Hab _], IH as [Hb _]. lia.
Qed.

Lemma sorted_snoc (l : list Z) (x : Z) :
  StronglySorted Z.le l -> List.last l 0 <= x -> StronglySorted Z.le (l ++ [x]).
Proof.
  intros Hs Hx. pose proof (sorted_below_last l Hs) as Hlast.
  induction Hs as [|a l Hs IH Ha]; [repeat constructor|].
  apply List.Forall_cons_iff in Hlast. destruct Hlast as [Hax Hlast].
  simpl app. constructor.
  - destruct l as [|b l]; [repeat constructor|].
    apply IH; [exact Hx|exact Hlast].
  - apply List.Forall_app. split; [exact Ha|]. repeat constructor. lia.
Qed.

Lemma read_hyperedges_entries (flag : bool) (first : Z) (iv : list Z) (k : nat) :
  forall (st : io.ReaderState) (entries : list Z),
    io.index_vector st = iv ++ entries -> entries_ok first entries st ->
    let st' := Nat.iter k (io.read_hyperedge id_bits weight_type flag) st in
    exists entries',
      io.index_vector st' = iv ++ entries'
      /\ length entries' = (length entries + k)%nat
      /\ entries_ok first entries' st'
      /\ exists added, io.edge_vector st' = io.edge_vector st ++ added
                      /\ (0 <= id_bits -> Forall (fun x => 0 <= x < 2 ^ id_bits) added).
Proof.
  induction k as [|k IH]; intros st entries Hiv Hok; cbv zeta.
  - exists entries. simpl. rewrite Nat.add_0_r.
    split; [exact Hiv|]. split; [reflexivity|]. split; [exact Hok|].
    exists []. rewrite app_nil_r. split; [reflexivity|constructor].
  - rewrite Nat.iter_succ_r.
    destruct (read_hyperedge_appends id_bits weight_type flag st) as [He Hi].
    set (st1 := io.read_hyperedge id_bits weight_type flag st) in *.
    destruct Hok as (Hhd & Hlast & Hsorted).
    assert (Hne : entries <> []) by (intros ->; discriminate).
    destruct (IH st1 (entries ++ [Z.of_nat (length (io.edge_vector st1))]))
      as (entries' & Hiv' & Hlen' & Hok' & added & Hpins & Hwrapped).
    + rewrite Hi, Hiv, <- app_assoc, He. reflexivity.
    + split; [|split].
      * destruct entries; [congruence|exact Hhd].
      * apply last_last.
      * apply sorted_snoc; [exact Hsorted|].
        rewrite Hlast, He, length_app. lia.
    + exists entries'. split; [exact Hiv'|].
      split; [rewrite Hlen', length_app; simpl; lia|]. split; [exact Hok'|].
      exists (new_pins id_bits weight_type flag st ++ added).
      split; [rewrite Hpins, He, <- app_assoc; reflexivity|].
      intros Hbits. apply Forall_app. split; [|apply Hwrapped; exact Hbits].
      apply read_pins_wrapped. exact Hbits.
Qed.

Lemma read_hypernode_weights_keep (k : nat) (st : io.ReaderState) :
  let st' := Nat.iter k (io.read_hypernode_weight weight_type) st in
  io.index_vector st' = io.index_vector st /\ io.edge_vector st' = io.edge_vector st.
Proof.
  induction k as [|k IH]; simpl; [auto|]. destruct IH as [<- <-]. auto.
Qed.

(** X23.  Whatever the file holds, a call of [parseHypergraphFile] that returns
    has appended one entry to the index vector for the start and one for
    every hyperedge that the header announces; these entries do not
    decrease, the first is the old and the last the new size of the edge
    vector; the old pins stay, and every pin that was appended is a value
    of the unsigned type of the identifiers. *)
Theorem index_vector_shape (file : io.istream) (n0 m0 : Z) (iv ev hw nw : list Z)
  (p : io.Parsed) :
  io.parseHypergraphFile id_bits weight_type file n0 m0 iv ev hw nw = Some p ->
  exists entries added,
    io.index_vector (io.final p) = iv ++ entries
    /\ length entries = S (Z.to_nat (io.num_hyperedges p))
    /\ hd_error entries = Some (Z.of_nat (length ev))
    /\ List.last entries 0 = Z.of_nat (length (io.edge_vector (io.final p)))
    /\ StronglySorted Z.le entries
    /\ io.edge_vector (io.final p) = ev ++ added
    /\ (0 <= id_bits -> Forall (fun x => 0 <= x < 2 ^ id_bits) added).
Proof.
  unfold io.parseHypergraphFile.
  destruct (io.parseHGRHeader id_bits file m0 n0 0) as [[file1 [[m1 n1] t]]|];
    [|discriminate].
  intros Hp. injection Hp as <-. cbn [io.final io.num_hyperedges].
  set (st0 := {| io.file := file1; io.line := [];
                 io.index_vector := iv ++ [Z.of_nat (length ev)];
                 io.edge_vector := ev; io.hyperedge_weights := hw;
                 io.hypernode_weights := nw |}).
  destruct (read_hyperedges_entries ((t =? 1) || (t =? 11)) (Z.of_nat (length ev)) iv
              (Z.to_nat m1) st0 [Z.of_nat (length ev)])
    as (entries & Hiv & Hlen & (Hhd & Hlast & Hsorted) & added & Hpins & Hwrapped).
  { reflexivity. }
  { split; [reflexivity|]. split; [reflexivity|]. repeat constructor. }
  fold (io.repeat_loop m1 (io.read_hyperedge id_bits weight_type ((t =? 1) || (t =? 11))) st0)
    in Hiv, Hlast, Hpins.
  set (st1 := io.repeat_loop m1 _ st0) in *.
  exists entries, added.
  assert (Hkeep : io.index_vector
                    (if (t =? 10) || (t =? 11)
                     then io.repeat_loop n1 (io.read_hypernode_weight weight_type) st1
                     else st1) = io.index_vector st1
                  /\ io.edge_vector
                       (if (t =? 10) || (t =? 11)
                        then io.repeat_loop n1 (io.read_hypernode_weight weight_type) st1
                        else st1) = io.edge_vector st1).
  { destruct ((t =? 10) || (t =? 11)); [|auto]. apply read_hypernode_weights_keep. }
  destruct Hkeep as [-> ->].
  split; [exact Hiv|]. split; [simpl in Hlen; lia|]. split; [exact Hhd|].
  split; [exact Hlast|]. split; [exact Hsorted|]. split; [exact Hpins|exact Hwrapped].
Qed.

End Vectors.

Lemma index_vector_shape_witness :
  io.parseHypergraphFile 32 io.int_type (io.open_stream small_file) 0 0 [7] [5; 6] [] []
  = Some small_parsed
  /\ exists entries added,
       io.index_vector (io.final small_parsed) = [7] ++ entries
       /\ length entries = S (Z.to_nat (io.num_hyperedges small_parsed))
       /\ hd_error entries = Some (Z.of_nat (length [5; 6]))
       /\ List.last entries 0 = Z.of_nat (length (io.edge_vector (io.final small_parsed)))
       /\ StronglySorted Z.le entries
       /\ io.edge_vector (io.final small_parsed) = [5; 6] ++ added
       /\ (0 <= 32 -> Forall (fun x => 0 <= x < 2 ^ 32) added).
Proof.
  assert (H : io.parseHypergraphFile 32 io.int_type (io.open_stream small_file)
                0 0 [7] [5; 6] [] [] = Some small_parsed) by (vm_compute; reflexivity).
  split; [exact H|].
  exact (index_vector_shape 32 io.int_type (io.open_stream small_file) 0 0
           [7] [5; 6] [] [] small_parsed H).
Defined.
